(** * Age-aware similarity calibration: a shallow embedding

    The development follows the calibration scripts of the repository:

    - [scripts/train-penalty-calibrator.py]: the penalty model
      [score' = s - alpha * clip(age_diff - tau, 0, M)] and its evaluation
      loop (EER by grid search, TAR at FAR = 1e-3);
    - [scripts/train-linear-calibrator.py]: the feature assembler, the
      constrained logistic model fitted with L-BFGS-B under box bounds, and
      its evaluation (ROC grid, AUC by the trapezoidal rule, EER, TAR);
    - [scripts/train-age-probe.py]: the loop that extracts embeddings from
      the UTKFace directories and skips bad samples, the age probe and the
      training loop with early stopping;
    - [scripts/train-age-probe-fairface.py], [scripts/train-similarity-
      calibrator.py] and [scripts/audit-calibrator.py]: the FairFace
      extraction, the learned calibrator and the threshold search.

    Numbers.  NumPy floats are modelled by exact numbers: rationals [Q]
    wherever the code only adds, multiplies, divides and compares (so that
    every definition runs), reals [R] where it calls [exp], [log] or the
    Euclidean norm.  Rounding is not modelled, so the theorems state what
    survives it: orders, closed ranges and the shape of the computation,
    not exact values of rounded quantities.  Validation losses, which the
    training loop compares with [inf], are floats with [inf] and [nan]. *)

From Stdlib Require Import String Ascii.
From Stdlib Require Import List ZArith QArith Qminmax Qabs Lia Lra Psatz Bool.
From Stdlib Require Import Sorted Permutation.
From Stdlib Require Import Reals.
Import ListNotations.

(* ================================================================== *)
(** * The penalty model ([train-penalty-calibrator.py]) *)
(* ================================================================== *)

Module Penalty.
Local Open Scope Q_scope.

(** [np.clip(a, a_min, a_max)], which NumPy defines as
    [np.minimum(a_max, np.maximum(a, a_min))]. *)
Definition np_clip (a a_min a_max : Q) : Q := Qmin a_max (Qmax a a_min).

(** [penalty_calibration(similarity, age_diff, alpha, tau, M)]:
<<
    penalty = alpha * np.clip(age_diff - tau, 0, M)
    return similarity - penalty
>> *)
Definition penalty_calibration (similarity age_diff alpha tau M : Q) : Q :=
  let penalty := alpha * np_clip (age_diff - tau) 0 M in
  similarity - penalty.

(** The clamp of the specification, written by cases: the value itself
    inside [lo, hi], the nearer end outside. *)
Definition clamp (x lo hi : Q) : Q :=
  if Qlt_le_dec x lo then lo
  else if Qlt_le_dec hi x then hi
  else x.

(** The box the fit searches, [bounds] of [fit_penalty_calibrator], in the
    order [alpha, tau, M]. *)
Definition bounds : list (Q * Q) :=
  [ (0, 2 # 100); (0, 20); (10, 80) ].

Definition initial_params : list Q := [ 5 # 1000; 5; 30 ].

End Penalty.

(* ================================================================== *)
(** * The constrained linear model ([train-linear-calibrator.py]) *)
(* ================================================================== *)

Module Linear.
Local Open Scope R_scope.

(** ** Array operations

    A NumPy operation on arrays whose shapes do not fit raises
    [ValueError]; the model returns [None] there.  (Broadcasting of a
    one-element array against a longer one is not modelled: the script only
    combines arrays of equal length.) *)

(** [np.dot] of two vectors, and [row @ w] for one row of a matrix. *)
Fixpoint dot (x w : list R) : option R :=
  match x, w with
  | [], [] => Some 0
  | a :: x', b :: w' =>
      match dot x' w' with
      | Some r => Some (a * b + r)
      | None => None
      end
  | _, _ => None
  end.

(** [features @ w]: one dot product per row. *)
Fixpoint matvec (features : list (list R)) (w : list R) : option (list R) :=
  match features with
  | [] => Some []
  | row :: rest =>
      match dot row w, matvec rest w with
      | Some l, Some ls => Some (l :: ls)
      | _, _ => None
      end
  end.

(** Element-wise combination of two arrays of the same length. *)
Fixpoint zip_with (f : R -> R -> R) (xs ys : list R) : option (list R) :=
  match xs, ys with
  | [], [] => Some []
  | x :: xs', y :: ys' =>
      match zip_with f xs' ys' with
      | Some r => Some (f x y :: r)
      | None => None
      end
  | _, _ => None
  end.

Definition np_sum (xs : list R) : R := fold_right Rplus 0 xs.

Definition np_mean (xs : list R) : R := np_sum xs / INR (length xs).

Definition np_clip (a a_min a_max : R) : R := Rmin a_max (Rmax a a_min).

(** [1 / (1 + np.exp(-logit))].  Over the reals the value lies strictly
    between 0 and 1; in the code's floats it rounds to exactly 1.0 for a
    large logit and to 0.0 for a very negative one (which is why
    [logistic_loss] clips it).  What carries over to the code is the
    order ([sigmoid] never decreases) and the closed range [0, 1]; no
    theorem on the program is stated with the strict bounds. *)
Definition sigmoid (logit : R) : R := 1 / (1 + exp (- logit)).

(** [logits = features @ w[1:] + w[0]]; indexing an empty parameter vector
    raises [IndexError]. *)
Definition logits (params : list R) (features : list (list R))
  : option (list R) :=
  match params with
  | [] => None
  | w0 :: w =>
      match matvec features w with
      | Some ls => Some (map (fun l => l + w0) ls)
      | None => None
      end
  end.

(** [probs = 1 / (1 + np.exp(-logits))], the first lines of both
    [logistic_loss] and [evaluate_calibrator]. *)
Definition probs (params : list R) (features : list (list R))
  : option (list R) :=
  match logits params features with
  | Some ls => Some (map sigmoid ls)
  | None => None
  end.

(** The probability of one feature row: [probs] on a one-row matrix. *)
Definition predict (params : list R) (row : list R) : option R :=
  match probs params [ row ] with
  | Some [ p ] => Some p
  | _ => None
  end.

(** ** The objective

<<
    def logistic_loss(params):
        w = params
        logits = features @ w[1:] + w[0]
        probs = 1 / (1 + np.exp(-logits))
        eps = 1e-15
        probs = np.clip(probs, eps, 1 - eps)
        bce = -np.mean(labels * np.log(probs) + (1 - labels) * np.log(1 - probs))
        l2 = regularization * np.sum(w[1:]**2)
        return bce + l2
>> *)
Definition eps : R := / 10 ^ 15.

Definition logistic_loss (features : list (list R)) (labels : list R)
    (regularization : R) (params : list R) : option R :=
  match probs params features with
  | None => None
  | Some ps =>
      let ps := map (fun p => np_clip p eps (1 - eps)) ps in
      match zip_with (fun y p => y * ln p + (1 - y) * ln (1 - p)) labels ps with
      | None => None
      | Some terms =>
          let bce := - np_mean terms in
          let l2 := regularization * np_sum (map (fun w => w ^ 2) (tl params)) in
          Some (bce + l2)
      end
  end.

(** ** The fit *)

(** One entry of [bounds]: [(lower, upper)], [None] for an open side. *)
Definition bound : Type := option R * option R.

(** [initial_params], in the order [bias, w_sim, w_age, w_age2, w_unc]. *)
Definition initial_params : list R :=
  [ 0; 1; - (1 / 100); - (1 / 10000); - (1 / 100) ].

(** [bounds]: the bias is free, the similarity weight has lower bound 0,
    the three other weights have upper bound 0. *)
Definition bounds : list bound :=
  [ (None, None);
    (Some 0, None);
    (None, Some 0);
    (None, Some 0);
    (None, Some 0) ].

(** [scipy.optimize.minimize(fun, x0, method='L-BFGS-B', bounds=...)] is a
    library routine; the model takes it as an argument.  It receives the
    objective, the starting point and the bounds and gives [result.x], or
    [None] when the objective raised. *)
Definition optimizer : Type :=
  (list R -> option R) -> list R -> list bound -> option (list R).

(** [constrained_linear_calibrator(features, labels, regularization)]:
    returns [result.x] unchanged. *)
Definition constrained_linear_calibrator (minimize : optimizer)
    (features : list (list R)) (labels : list R) (regularization : R)
  : option (list R) :=
  let result := minimize (logistic_loss features labels regularization)
                         initial_params bounds in
  result.

(** What the library documents of a bounded solve: every coordinate of the
    point it returns lies within its bound. *)
Definition within (b : bound) (x : R) : Prop :=
  match fst b with Some lo => lo <= x | None => True end
  /\ match snd b with Some hi => x <= hi | None => True end.

Definition feasible (bs : list bound) (xs : list R) : Prop :=
  Forall2 within bs xs.

(** A box is consistent when no lower bound exceeds its upper bound;
    SciPy refuses the others. *)
Definition consistent (b : bound) : Prop :=
  match b with
  | (Some lo, Some hi) => lo <= hi
  | _ => True
  end.

(** The point returned lies in the box. *)
Definition respects_bounds (minimize : optimizer) : Prop :=
  forall f x0 bs x,
    Forall consistent bs -> length x0 = length bs ->
    minimize f x0 bs = Some x -> feasible bs x.

(** A result is returned as long as the objective can be evaluated. *)
Definition returns_result (minimize : optimizer) : Prop :=
  forall f x0 bs,
    Forall consistent bs -> length x0 = length bs ->
    (forall p, length p = length x0 -> f p <> None) ->
    minimize f x0 bs <> None.

(** Projection of a point into a box, coordinate by coordinate: the
    clipping step of a projected-gradient method. *)
Definition project1 (b : bound) (x : R) : R :=
  let x := match fst b with Some lo => Rmax x lo | None => x end in
  match snd b with Some hi => Rmin x hi | None => x end.

Fixpoint project (bs : list bound) (xs : list R) : list R :=
  match bs, xs with
  | b :: bs', x :: xs' => project1 b x :: project bs' xs'
  | _, _ => []
  end.

(** A small bounded optimizer: it evaluates the objective at the projected
    starting point and returns that point. *)
Definition projected_start : optimizer :=
  fun f x0 bs =>
    match f (project bs x0) with
    | Some _ => Some (project bs x0)
    | None => None
    end.

(** A training set in which the age gap alone decides the label (gap 0:
    same person, gap 40: different) while the similarity goes the other
    way. *)
Definition age_only_features : list (list R) :=
  [ [ 2 / 10; 0; 0; 1 / 10 ];
    [ 9 / 10; 40; 1600; 1 / 10 ] ].

Definition age_only_labels : list R := [ 1; 0 ].

End Linear.

(* ================================================================== *)
(** * The feature assembler ([extract_features_from_pairs]) *)
(* ================================================================== *)

Module Assembler.
Import Linear.
Local Open Scope R_scope.

(** [np.linalg.norm(emb)] *)
Definition norm (emb : list R) : R := sqrt (np_sum (map (fun x => x * x) emb)).

(** [emb / np.linalg.norm(emb)].  Two limits of the model: the division is
    exact, where the binary32 quotient is rounded, so that the result has
    length 1 only up to rounding in the code; and for an embedding of norm
    0 NumPy gives [nan] entries (with a warning, no exception), where the
    division of the reals gives 0.  The theorems below on the similarity
    are stated for embeddings whose norm is not 0. *)
Definition normalize (emb : list R) : list R :=
  map (fun x => x / norm emb) emb.

(** The body of the loop between the two calls of [get_embedding_and_age]
    and the two [append]s:
<<
    emb1_norm = emb1 / np.linalg.norm(emb1)
    emb2_norm = emb2 / np.linalg.norm(emb2)
    similarity = float(np.dot(emb1_norm, emb2_norm))
    age_diff = abs(age1 - age2)
    avg_uncertainty = (unc1 + unc2) / 2
    feature_vec = [similarity, age_diff, age_diff**2, avg_uncertainty]
>> *)
Definition feature_vec (emb1 : list R) (age1 unc1 : R)
    (emb2 : list R) (age2 unc2 : R) : option (list R) :=
  let emb1_norm := normalize emb1 in
  let emb2_norm := normalize emb2 in
  match dot emb1_norm emb2_norm with
  | None => None
  | Some similarity =>
      let age_diff := Rabs (age1 - age2) in
      let avg_uncertainty := (unc1 + unc2) / 2 in
      Some [ similarity; age_diff; age_diff ^ 2; avg_uncertainty ]
  end.

(** The FacePairFeature of the data model, as the four named positions of a
    feature vector. *)
Record FacePairFeature : Type := {
  similarity : R;
  ageDiff : R;
  ageDiffSquared : R;
  uncertainty : R
}.

Definition as_FacePairFeature (v : list R) : option FacePairFeature :=
  match v with
  | [ s; d; d2; u ] =>
      Some {| similarity := s; ageDiff := d; ageDiffSquared := d2;
              uncertainty := u |}
  | _ => None
  end.

(** ** The assembler as the data model words it

    The data model defines the similarity of a FacePairFeature as the dot
    product of the two unit-normalized embeddings: each embedding is
    divided, entry by entry, by its Euclidean length, and the products of
    the entries at the same position are added.  These definitions follow
    those words, not the code; the theorems compare them with
    [feature_vec]. *)
Definition euclidean_length (e : list R) : R :=
  sqrt (fold_right (fun x acc => x * x + acc) 0 e).

Definition unit_vector (e : list R) : list R :=
  map (fun x => x / euclidean_length e) e.

Fixpoint inner_product (u v : list R) : R :=
  match u, v with
  | x :: u', y :: v' => x * y + inner_product u' v'
  | _, _ => 0
  end.

Definition cosine_similarity (e1 e2 : list R) : R :=
  inner_product (unit_vector e1) (unit_vector e2).

(** A feature row with a negative age gap, as no run of the assembler
    produces it. *)
Definition negative_gap_row : list R := [ 1 / 2; - 3; 9; 1 / 10 ].

End Assembler.

(* ================================================================== *)
(** * Evaluation: ROC grid, AUC, EER, TAR at FAR *)
(* ================================================================== *)

Module Metrics.
Import Penalty.
Local Open Scope Q_scope.

(** ** Shared array helpers *)

(** [np.linspace(start, stop, num)]: [num] evenly spaced points,
    [start + i * step] with [step = (stop - start) / (num - 1)]. *)
Definition linspace (start stop : Q) (num : Z) : list Q :=
  let step := (stop - start) / inject_Z (num - 1) in
  map (fun i => start + inject_Z (Z.of_nat i) * step) (seq 0 (Z.to_nat num)).

(** [np.sum] of a boolean array: the number of [True] entries. *)
Definition count_true (bs : list bool) : Z :=
  Z.of_nat (length (filter (fun b => b) bs)).

(** [scores >= threshold] and [scores < threshold], element-wise. *)
Definition ge_threshold (threshold : Q) (scores : list Q) : list bool :=
  map (fun s => Qle_bool threshold s) scores.

Definition lt_threshold (threshold : Q) (scores : list Q) : list bool :=
  map (fun s => negb (Qle_bool threshold s)) scores.

(** [a / b if b > 0 else 0] on counts. *)
Definition ratio_or_zero (a b : Z) : Q :=
  if (0 <? b)%Z then inject_Z a / inject_Z b else 0.

(** [np.trapz(y, x)]: [sum (diff(x) * (y[1:] + y[:-1]) / 2)]. *)
Fixpoint trapz (y x : list Q) : Q :=
  match y, x with
  | y0 :: ((y1 :: _) as y'), x0 :: ((x1 :: _) as x') =>
      (x1 - x0) * (y1 + y0) / 2 + trapz y' x'
  | _, _ => 0
  end.

(** [np.argmin]: the index of the first occurrence of the least entry.
    (NumPy raises on an empty array; the grid below is never empty.) *)
Fixpoint argmin_from (best_i : nat) (best : Q) (i : nat) (l : list Q) : nat :=
  match l with
  | [] => best_i
  | x :: l' =>
      if Qle_bool best x then argmin_from best_i best (S i) l'
      else argmin_from i x (S i) l'
  end.

Definition argmin (l : list Q) : nat :=
  match l with
  | [] => 0%nat
  | x :: l' => argmin_from 0 x 1 l'
  end.

(** ** [evaluate_calibrator] of [train-linear-calibrator.py]

    The function first turns the features into probabilities
    ([Linear.probs]); what follows is the rest of its body, on the array
    [probs] and the 0/1 array [labels] of the same length. *)

(** The confusion counts and the two rates at one threshold:
<<
    predictions = probs >= threshold
    tp = np.sum((predictions == 1) & (labels == 1))
    fp = np.sum((predictions == 1) & (labels == 0))
    tn = np.sum((predictions == 0) & (labels == 0))
    fn = np.sum((predictions == 0) & (labels == 1))
    tpr = tp / (tp + fn) if (tp + fn) > 0 else 0
    fpr = fp / (fp + tn) if (fp + tn) > 0 else 0
>> *)
Definition rates_at (probs : list Q) (labels : list Z) (threshold : Q)
  : Q * Q :=
  let predictions := ge_threshold threshold probs in
  let rows := combine predictions labels in
  let tp := count_true (map (fun '(p, y) => p && (y =? 1)%Z) rows) in
  let fp := count_true (map (fun '(p, y) => p && (y =? 0)%Z) rows) in
  let tn := count_true (map (fun '(p, y) => negb p && (y =? 0)%Z) rows) in
  let fn := count_true (map (fun '(p, y) => negb p && (y =? 1)%Z) rows) in
  let tpr := ratio_or_zero tp (tp + fn) in
  let fpr := ratio_or_zero fp (fp + tn) in
  (tpr, fpr).

Record LinearMetrics : Type := {
  tpr_list : list Q;
  fpr_list : list Q;
  auc : Q;
  eer_idx : nat;
  eer : Q;
  tar_at_far : Q
}.

Definition linear_thresholds : list Q := linspace 0 1 1000.

Definition far_target : Q := 1 # 1000.

(** The loop [for i, fpr_val in enumerate(fpr_list)] with its [break]:
    the TPR at the first index whose FPR is at most the target, the
    initial value [0.0] when there is none. *)
Definition first_tpr_below (target : Q) (fprs tprs : list Q) : Q :=
  match find (fun '(fpr_val, _) => Qle_bool fpr_val target)
             (combine fprs tprs) with
  | Some (_, tpr_val) => tpr_val
  | None => 0
  end.

Definition evaluate_calibrator_on (thresholds : list Q)
    (probs : list Q) (labels : list Z) : LinearMetrics :=
  let points := map (rates_at probs labels) thresholds in
  let tprs := map fst points in
  let fprs := map snd points in
  let auc := trapz tprs fprs in
  let idx :=
    argmin (map (fun '(tpr, fpr) => Qabs (tpr - (1 - fpr))) points) in
  let eer := (nth idx fprs 0 + (1 - nth idx tprs 0)) / 2 in
  {| tpr_list := tprs; fpr_list := fprs; auc := auc;
     eer_idx := idx; eer := eer;
     tar_at_far := first_tpr_below far_target fprs tprs |}.

(** [evaluate_calibrator], from [thresholds = np.linspace(0, 1, 1000)] on. *)
Definition evaluate_calibrator (probs : list Q) (labels : list Z)
  : LinearMetrics :=
  evaluate_calibrator_on linear_thresholds probs labels.

(** ** [evaluate_calibration] of [train-penalty-calibrator.py] *)

(** The dictionaries [same_pairs] and [diff_pairs]: two arrays of equal
    length under the keys ['similarity'] and ['age_diff']. *)
Record Pairs : Type := {
  similarity : list Q;
  age_diff : list Q
}.

Definition calibrated_scores (alpha tau M : Q) (pairs : Pairs) : list Q :=
  map (fun '(s, d) => penalty_calibration s d alpha tau M)
      (combine (similarity pairs) (age_diff pairs)).

(** One round of the EER loop on the state [(best_eer, best_threshold)]:
<<
    tp = np.sum(same_scores >= threshold)
    fn = len(same_scores) - tp
    tn = np.sum(diff_scores < threshold)
    fp = len(diff_scores) - tn
    fnr = fn / len(same_scores) if len(same_scores) > 0 else 0
    fpr = fp / len(diff_scores) if len(diff_scores) > 0 else 0
    eer = (fnr + fpr) / 2
    if eer < best_eer:
        best_eer = eer
        best_threshold = threshold
>> *)
Definition half_total_error (same_scores diff_scores : list Q) (threshold : Q)
  : Q :=
  let tp := count_true (ge_threshold threshold same_scores) in
  let fn := (Z.of_nat (length same_scores) - tp)%Z in
  let tn := count_true (lt_threshold threshold diff_scores) in
  let fp := (Z.of_nat (length diff_scores) - tn)%Z in
  let fnr := ratio_or_zero fn (Z.of_nat (length same_scores)) in
  let fpr := ratio_or_zero fp (Z.of_nat (length diff_scores)) in
  (fnr + fpr) / 2.

Definition eer_step (same_scores diff_scores : list Q)
    (best : Q * Q) (threshold : Q) : Q * Q :=
  let eer := half_total_error same_scores diff_scores threshold in
  if negb (Qle_bool (fst best) eer) then (eer, threshold) else best.

(** The [for ... else] loop of the TAR computation:
<<
    for threshold in np.linspace(1, 0, 10000):
        fp = np.sum(diff_scores >= threshold)
        fpr = fp / len(diff_scores) if len(diff_scores) > 0 else 0
        if fpr >= target_fpr:
            tp = np.sum(same_scores >= threshold)
            tar = tp / len(same_scores) if len(same_scores) > 0 else 0
            break
    else:
        tar = 0.0
>> *)
Definition fpr_of (diff_scores : list Q) (threshold : Q) : Q :=
  let fp := count_true (ge_threshold threshold diff_scores) in
  ratio_or_zero fp (Z.of_nat (length diff_scores)).

Definition tar_of (same_scores : list Q) (threshold : Q) : Q :=
  let tp := count_true (ge_threshold threshold same_scores) in
  ratio_or_zero tp (Z.of_nat (length same_scores)).

Definition tar_scan (target_fpr : Q) (thresholds : list Q)
    (same_scores diff_scores : list Q) : Q :=
  match find (fun threshold =>
                Qle_bool target_fpr (fpr_of diff_scores threshold))
             thresholds with
  | Some threshold => tar_of same_scores threshold
  | None => 0
  end.

Record PenaltyMetrics : Type := {
  best_eer : Q;
  best_threshold : Q;
  tar : Q
}.

Definition eer_thresholds : list Q := linspace 0 1 1000.

Definition tar_thresholds : list Q := linspace 1 0 10000.

Definition target_fpr : Q := 1 # 1000.

(** The local variables of [evaluate_calibration] when it returns. *)
Definition evaluate_calibration_locals (params : Q * Q * Q)
    (same_pairs diff_pairs : Pairs) : PenaltyMetrics :=
  let '(alpha, tau, M) := params in
  let same_scores := calibrated_scores alpha tau M same_pairs in
  let diff_scores := calibrated_scores alpha tau M diff_pairs in
  let best :=
    fold_left (eer_step same_scores diff_scores) eer_thresholds (1, 1 # 2) in
  {| best_eer := fst best; best_threshold := snd best;
     tar := tar_scan target_fpr tar_thresholds same_scores diff_scores |}.

(** [evaluate_calibration(params, same_pairs, diff_pairs)]: it returns
    [best_eer]. *)
Definition evaluate_calibration (params : Q * Q * Q)
    (same_pairs diff_pairs : Pairs) : Q :=
  best_eer (evaluate_calibration_locals params same_pairs diff_pairs).

(** ** The metrics as the specification words them *)

(** The same-person and the different-person scores of a labelled set. *)
Definition scores_with_label (y : Z) (probs : list Q) (labels : list Z)
  : list Q :=
  map fst (filter (fun '(_, l) => (l =? y)%Z) (combine probs labels)).

(** The number of scores that are positives at threshold [t]. *)
Definition positives (scores : list Q) (t : Q) : Z :=
  Z.of_nat (length (filter (fun s => Qle_bool t s) scores)).

Definition size (scores : list Q) : Z := Z.of_nat (length scores).

(** [TPR = TP / (TP + FN)], [FNR = FN / (TP + FN)] on the same-person
    scores, [FPR = FP / (FP + TN)] on the different-person scores. *)
Definition TPR (same : list Q) (t : Q) : Q :=
  inject_Z (positives same t) / inject_Z (size same).

Definition FNR (same : list Q) (t : Q) : Q :=
  inject_Z (size same - positives same t) / inject_Z (size same).

Definition FPR (diff : list Q) (t : Q) : Q :=
  inject_Z (positives diff t) / inject_Z (size diff).

(** [t] is a point of the grid at which [|FPR - FNR|] is least. *)
Definition minimizes_gap (grid : list Q) (same diff : list Q) (t : Q) : Prop :=
  In t grid
  /\ forall t', In t' grid ->
       Qabs (FPR diff t - FNR same t) <= Qabs (FPR diff t' - FNR same t').

(** [t] is the first point of the scan [grid] that satisfies [P]. *)
Definition first_in (grid : list Q) (P : Q -> Prop) (t : Q) : Prop :=
  exists before after,
    grid = before ++ t :: after /\ P t /\ forall t', In t' before -> ~ P t'.

(** TAR at FAR in the words of the specification: scan the thresholds in
    the given order, report the TPR at the first one whose FPR reaches the
    target, and 0 when none does. *)
Fixpoint tar_at_far_spec (target : Q) (scan : list Q) (same diff : list Q)
  : Q :=
  match scan with
  | [] => 0
  | t :: rest =>
      if Qle_bool target (FPR diff t) then TPR same t
      else tar_at_far_spec target rest same diff
  end.

(** Each entry is smaller than the next. *)
Fixpoint increasing (l : list Q) : bool :=
  match l with
  | a :: ((b :: _) as l') => negb (Qle_bool b a) && increasing l'
  | _ => true
  end.

(** A perfect separator: every same-person score is greater than every
    different-person score. *)
Definition perfect_separator (same diff : list Q) : Prop :=
  forall s d, In s same -> In d diff -> d < s.

(** ** Example data *)

(** A same-person pair scored just above a different-person pair. *)
Definition close_probs : list Q := [ 3001 # 10000; 3 # 10 ].

Definition close_labels : list Z := [ 1%Z; 0%Z ].

(** One same-person pair scored 0.9 and one different-person pair scored
    0.2. *)
Definition separated_probs : list Q := [ 9 # 10; 2 # 10 ].

Definition separated_labels : list Z := [ 1%Z; 0%Z ].

(** Two same-person pairs (similarities 0.8 and 0.5) and two
    different-person pairs (0.6 and 0.2), all with age gaps below the
    threshold [tau = 5] of the initial guess, so that their calibrated
    scores are their similarities. *)
Definition overlap_same : Pairs :=
  {| similarity := [ 8 # 10; 5 # 10 ]; age_diff := [ 3; 1 ] |}.

Definition overlap_diff : Pairs :=
  {| similarity := [ 6 # 10; 2 # 10 ]; age_diff := [ 2; 4 ] |}.

Definition initial_guess : Q * Q * Q := (5 # 1000, 5, 30).

End Metrics.

(* ================================================================== *)
(** * Sample extraction loops *)
(* ================================================================== *)

Module Loops.
Local Open Scope Z_scope.

(** ** Strings: [str.split], [int], [sorted] *)

(** [s.split(sep)] for a one-character separator. *)
Fixpoint split_from (sep : ascii) (current : string) (s : string)
  : list string :=
  match s with
  | EmptyString => [ current ]
  | String c rest =>
      if Ascii.eqb c sep then current :: split_from sep EmptyString rest
      else split_from sep (current ++ String c EmptyString)%string rest
  end.

Definition split (sep : ascii) (s : string) : list string :=
  split_from sep EmptyString s.

Definition digit_of (c : ascii) : option Z :=
  let n := Z.of_N (N_of_ascii c) in
  if (48 <=? n) && (n <=? 57) then Some (n - 48) else None.

Fixpoint parse_digits (acc : Z) (s : string) : option Z :=
  match s with
  | EmptyString => Some acc
  | String c rest =>
      match digit_of c with
      | Some d => parse_digits (10 * acc + d) rest
      | None => None
      end
  end.

(** The value [int(s)] has on a plain numeral: ASCII decimal digits with
    an optional sign.  Python's [int] accepts more (blanks around the
    numeral, digits of other scripts), so the loops below take [int] as one
    of the library functions they call; this parser is the instance used
    on the example file names, all of which are plain numerals. *)
Definition ascii_int (s : string) : option Z :=
  match s with
  | EmptyString => None
  | String "-"%char EmptyString => None
  | String "+"%char EmptyString => None
  | String "-"%char rest => option_map Z.opp (parse_digits 0 rest)
  | String "+"%char rest => parse_digits 0 rest
  | _ => parse_digits 0 s
  end.

(** [sorted(names)]: by insertion, on the code-point order of strings. *)
Fixpoint insert_sorted (x : string) (l : list string) : list string :=
  match l with
  | [] => [ x ]
  | y :: l' => if String.leb x y then x :: l else y :: insert_sorted x l'
  end.

Definition sorted (l : list string) : list string :=
  fold_right insert_sorted [] l.

(** [os.path.join(dir, name)] *)
Definition path_join (dir name : string) : string :=
  (dir ++ "/" ++ name)%string.

(** ** [extract_embeddings_from_utkface] of [train-age-probe.py] *)

Section Utkface.

(** The image type and the embedding type of the libraries. *)
Variables (Image Embedding : Type).

(** The file system and the libraries the loop calls:
    - [listdir dir] is [None] when [os.path.exists(dir)] is false, else the
      names [os.listdir(dir)] gives;
    - [imread path] is [None] when [cv2.imread] returns [None];
    - [run_model img] is the preprocessing and [model_session.run],
      [None] when any of them raises. *)
Variable listdir : string -> option (list string).
Variable imread : string -> option Image.
Variable run_model : Image -> option Embedding.

(** Python's [int] on a string: [None] stands for its [ValueError]. *)
Variable py_int : string -> option Z.

(** The body of the [try]: [Some (embedding, age)] when the two [append]s
    are reached, [None] at each [continue], also the one of the
    [except Exception] clause. *)
Definition process_file (utkface_dir filename : string)
  : option (Embedding * Z) :=
  let parts := split "_"%char filename in
  if (Z.of_nat (length parts) <? 4) then None
  else
    match py_int (hd EmptyString parts) with
    | None => None
    | Some age =>
        if age >? 100 then None
        else
          match imread (path_join utkface_dir filename) with
          | None => None
          | Some img =>
              match run_model img with
              | None => None
              | Some embedding => Some (embedding, age)
              end
          end
    end.

(** The two lists the function builds, [embeddings] and [ages]. *)
Definition State : Type := (list Embedding * list Z)%type.

(** The invariant of the loops: the two lists have one length, and no age
    in them exceeds 100. *)
Definition aligned (st : State) : Prop :=
  length (fst st) = length (snd st) /\ Forall (fun a => a <= 100) (snd st).

Definition file_step (utkface_dir : string) (st : State) (filename : string)
  : State :=
  match process_file utkface_dir filename with
  | Some (embedding, age) => (fst st ++ [ embedding ], snd st ++ [ age ])
  | None => st
  end.

(** The loop over the directories; [max_samples] is [None] or a number,
    and [if max_samples:] is false for [None] and for 0.  The [break]
    leaves the loop with the state reached. *)
Fixpoint directory_loop (max_samples : option Z) (utkface_dirs : list string)
    (st : State) : State :=
  match utkface_dirs with
  | [] => st
  | utkface_dir :: rest =>
      match listdir utkface_dir with
      | None => directory_loop max_samples rest st
      | Some names =>
          let files := sorted names in
          match max_samples with
          | Some m =>
              if m =? 0 then
                directory_loop max_samples rest
                  (fold_left (file_step utkface_dir) files st)
              else
                let remaining := m - Z.of_nat (length (fst st)) in
                if remaining <=? 0 then st
                else
                  let files := firstn (Z.to_nat remaining) files in
                  directory_loop max_samples rest
                    (fold_left (file_step utkface_dir) files st)
          | None =>
              directory_loop max_samples rest
                (fold_left (file_step utkface_dir) files st)
          end
      end
  end.

(** [extract_embeddings_from_utkface(model_session, utkface_dirs,
    max_samples)]: it returns the two arrays. *)
Definition extract_embeddings_from_utkface (utkface_dirs : list string)
    (max_samples : option Z) : list Embedding * list Z :=
  directory_loop max_samples utkface_dirs ([], []).

(** The files the loop visits, directory by directory, and how many of
    them it does not keep. *)
Fixpoint visited (max_samples : option Z) (utkface_dirs : list string)
    (st : State) : list (string * string) :=
  match utkface_dirs with
  | [] => []
  | utkface_dir :: rest =>
      match listdir utkface_dir with
      | None => visited max_samples rest st
      | Some names =>
          let files := sorted names in
          match max_samples with
          | Some m =>
              if m =? 0 then
                map (pair utkface_dir) files
                ++ visited max_samples rest
                     (fold_left (file_step utkface_dir) files st)
              else
                let remaining := m - Z.of_nat (length (fst st)) in
                if remaining <=? 0 then []
                else
                  let files := firstn (Z.to_nat remaining) files in
                  map (pair utkface_dir) files
                  ++ visited max_samples rest
                       (fold_left (file_step utkface_dir) files st)
          | None =>
              map (pair utkface_dir) files
              ++ visited max_samples rest
                   (fold_left (file_step utkface_dir) files st)
          end
      end
  end.

Definition is_discarded (sample : string * string) : bool :=
  match process_file (fst sample) (snd sample) with
  | Some _ => false
  | None => true
  end.


End Utkface.

(** ** [extract_features_from_pairs] of [train-linear-calibrator.py] *)

Section Pairs.

Variable Image : Type.

(** [imread path] is [None] when [cv2.imread] returns [None];
    [get_embedding_and_age img] is [None] when the preprocessing or one of
    the two model runs raises, else [(embedding, age, uncertainty)]. *)
Variable imread : string -> option Image.
Variable get_embedding_and_age : Image -> option (list R * R * R).





End Pairs.

(** ** Example data *)


Definition outlier_listing : string -> option (list string) :=
  fun _ => Some [ "200_0_0_20170109150557335.jpg"%string ].

(** Libraries that read every image and embed it. *)
Definition read_any : string -> option unit := fun _ => Some tt.

Definition embed_any : unit -> option unit := fun _ => Some tt.

End Loops.

(* ================================================================== *)
(** * The samples an extraction keeps *)
(* ================================================================== *)

Module Kept.
Import Loops.

Section Utkface.

Variables (Image Embedding : Type).
Variable imread : string -> option Image.
Variable run_model : Image -> option Embedding.
Variable py_int : string -> option Z.

(** The (embedding, age) entries of the files of a list that
    [process_file] does not skip, in the order of the list. *)
Definition kept_samples (samples : list (string * string))
  : list (Embedding * Z) :=
  flat_map
    (fun sample =>
       match process_file Image Embedding imread run_model py_int
               (fst sample) (snd sample) with
       | Some entry => [ entry ]
       | None => []
       end)
    samples.

End Utkface.

End Kept.

(* ================================================================== *)
(** * Fitting the penalty model ([fit_penalty_calibrator]) *)
(* ================================================================== *)

Module PenaltyFit.
Import Penalty Metrics.
Local Open Scope Q_scope.

(** [scipy.optimize.minimize] with [method='L-BFGS-B'] and finite bounds,
    as an argument: it receives the objective, the starting point and the
    bounds and gives [result.x], or [None] when the objective raised. *)
Definition optimizer : Type :=
  (list Q -> option Q) -> list Q -> list (Q * Q) -> option (list Q).

(** The objective [lambda p: evaluate_calibration(p, same_pairs,
    diff_pairs)]; the unpacking [alpha, tau, M = params] raises unless
    there are three parameters. *)
Definition objective (same_pairs diff_pairs : Pairs) (p : list Q) : option Q :=
  match p with
  | [ alpha; tau; M ] =>
      Some (evaluate_calibration (alpha, tau, M) same_pairs diff_pairs)
  | _ => None
  end.

(** [fit_penalty_calibrator(same_pairs, diff_pairs)]: minimise the
    objective from [initial_params] within [bounds], unpack
    [alpha, tau, M = result.x] and return the three. *)
Definition fit_penalty_calibrator (minimize : optimizer)
    (same_pairs diff_pairs : Pairs) : option (Q * Q * Q) :=
  match minimize (objective same_pairs diff_pairs) initial_params bounds with
  | Some [ alpha; tau; M ] => Some (alpha, tau, M)
  | _ => None
  end.

(** The contract of the bounded solve, as for the linear model. *)
Definition in_box (bs : list (Q * Q)) (xs : list Q) : Prop :=
  Forall2 (fun b x => fst b <= x <= snd b) bs xs.

Definition consistent_box (bs : list (Q * Q)) : Prop :=
  Forall (fun b => fst b <= snd b) bs.

Definition respects_box (minimize : optimizer) : Prop :=
  forall f x0 bs x,
    consistent_box bs -> length x0 = length bs ->
    minimize f x0 bs = Some x -> in_box bs x.

Definition returns_point (minimize : optimizer) : Prop :=
  forall f x0 bs,
    consistent_box bs -> length x0 = length bs ->
    (forall p, length p = length x0 -> f p <> None) ->
    minimize f x0 bs <> None.

(** A small bounded optimizer: the starting point, clipped into the box. *)
Fixpoint clip_into (bs : list (Q * Q)) (xs : list Q) : list Q :=
  match bs, xs with
  | b :: bs', x :: xs' => np_clip x (fst b) (snd b) :: clip_into bs' xs'
  | _, _ => []
  end.

Definition clipped_start : optimizer :=
  fun f x0 bs =>
    match f (clip_into bs x0) with
    | Some _ => Some (clip_into bs x0)
    | None => None
    end.

End PenaltyFit.

(* ================================================================== *)
(** * Synthetic pairs ([generate_synthetic_pairs]) *)
(* ================================================================== *)

Module Synthetic.
Import Metrics.
Local Open Scope Q_scope.

(** [np.dot] of two rows of one 2-D array (they have one length). *)
Definition dot_rows (x y : list Q) : Q :=
  fold_right Qplus 0 (map (fun '(a, b) => a * b) (combine x y)).

Section Generate.

(** [embeddings_norm], the rows of [embeddings] divided by their norms,
    and [ages], one age per row. *)
Variable embeddings_norm : list (list Q).
Variable ages : list Z.

(** The [k]-th draw of [np.random.choice(len(embeddings), 2,
    replace=False)]. *)
Variable choice : nat -> nat * nat.

Variables (num_same num_diff : nat).

Definition sim_of (i j : nat) : Q :=
  dot_rows (nth i embeddings_norm []) (nth j embeddings_norm []).

(** [abs(ages[i] - ages[j])] *)
Definition age_gap (i j : nat) : Q :=
  inject_Z (Z.abs (nth i ages 0%Z - nth j ages 0%Z)).

(** The state of the first loop: the two lists of [same_pairs] and the
    counter [checked]. *)
Record SameState : Type := {
  sims : list Q;
  gaps : list Q;
  checked : nat
}.

(** What the first loop keeps true of the two lists it builds. *)
Definition well_formed (st : SameState) : Prop :=
  length (sims st) = length (gaps st)
  /\ Forall (fun s => 75 # 100 < s) (sims st)
  /\ Forall (fun g => 0 <= g) (gaps st).

(** The loops are entered with fewer than [num_same] pairs, or with
    none. *)
Definition may_go_on (st : SameState) : Prop :=
  (length (sims st) < num_same \/ length (sims st) = 0)%nat.

(** The inner loop [for j in range(i + 1, min(i + 200, n))], on the list
    of the values of [j] still to visit; the [break] leaves it with the
    state reached. *)
Fixpoint inner_loop (i : nat) (js : list nat) (st : SameState) : SameState :=
  match js with
  | [] => st
  | j :: rest =>
      let sim := sim_of i j in
      if negb (Qle_bool sim (75 # 100)) then
        let st1 := {| sims := sims st ++ [ sim ];
                      gaps := gaps st ++ [ age_gap i j ];
                      checked := checked st |} in
        if (num_same <=? length (sims st1))%nat then st1
        else inner_loop i rest
               {| sims := sims st1; gaps := gaps st1;
                  checked := S (checked st1) |}
      else
        inner_loop i rest
          {| sims := sims st; gaps := gaps st; checked := S (checked st) |}
  end.

(** [range(i + 1, min(i + 200, n))] *)
Definition window (i n : nat) : list nat :=
  seq (S i) (Nat.min (i + 200) n - S i).

(** The outer loop [for i in range(n)], with its own [break]. *)
Fixpoint outer_loop (n : nat) (rows : list nat) (st : SameState)
  : SameState :=
  match rows with
  | [] => st
  | i :: rest =>
      let st1 := inner_loop i (window i n) st in
      if (num_same <=? length (sims st1))%nat then st1
      else outer_loop n rest st1
  end.

(** The second loop: [num_diff] random pairs. *)
Definition diff_step (st : list Q * list Q) (k : nat) : list Q * list Q :=
  let '(i, j) := choice k in
  (fst st ++ [ sim_of i j ], snd st ++ [ age_gap i j ]).

(** [generate_synthetic_pairs(embeddings, ages, num_same, num_diff)],
    from the normalised embeddings on.  [None] stands for the
    [ValueError] that the function raises: from [np.random.choice] when
    there are fewer than two embeddings to draw from, and from the
    [.min()] of the summary it prints when one of the two sets is
    empty. *)
Definition generate_synthetic_pairs : option (Pairs * Pairs) :=
  let n := length embeddings_norm in
  let same :=
    outer_loop n (seq 0 n) {| sims := []; gaps := []; checked := 0 |} in
  if (0 <? num_diff)%nat && (n <? 2)%nat then None
  else
    let diff := fold_left diff_step (seq 0 num_diff) ([], []) in
    match sims same, fst diff with
    | [], _ => None
    | _, [] => None
    | _, _ =>
        Some ({| similarity := sims same; age_diff := gaps same |},
              {| similarity := fst diff; age_diff := snd diff |})
    end.

End Generate.

End Synthetic.

(* ================================================================== *)
(** * Training loops with early stopping *)
(* ================================================================== *)

Module Training.
Local Open Scope Q_scope.

(** [train_age_probe] (of both age-probe scripts, patience 10) and
    [train_calibrator] (patience 15) share one loop around the epochs:
<<
    best_val_loss = float('inf')
    patience_counter = 0
    for epoch in range(num_epochs):
        ... one epoch of training, then the validation loss ...
        if val_loss < best_val_loss:
            best_val_loss = val_loss
            patience_counter = 0
            torch.save(model.state_dict(), 'age_probe_best.pth')
        else:
            patience_counter += 1
            if patience_counter >= 10:
                break
    model.load_state_dict(torch.load('age_probe_best.pth'))
    return model
>> *)

(** A validation loss is a Python float: a number, [inf], [-inf] or
    [nan].  ([val_loss] is a mean of [loss.item()] values; a diverged
    model gives [inf] or [nan].) *)
Inductive Loss : Type :=
  | Finite (q : Q)
  | PlusInf
  | MinusInf
  | NaN.

(** [a < b] on floats: false as soon as one side is [nan]. *)
Definition loss_lt (a b : Loss) : bool :=
  match a, b with
  | NaN, _ => false
  | _, NaN => false
  | PlusInf, _ => false
  | MinusInf, MinusInf => false
  | MinusInf, _ => true
  | Finite _, MinusInf => false
  | Finite _, PlusInf => true
  | Finite x, Finite y => negb (Qle_bool y x)
  end.

Section EarlyStopping.

(** The trainer is the model with its optimizer and scheduler; [Weights]
    is what [model.state_dict()] saves. *)
Variables (Trainer Weights : Type).
Variable state_dict : Trainer -> Weights.

(** One epoch: the training pass, the validation pass and
    [scheduler.step(val_loss)]; it gives the trainer afterwards and the
    validation loss.  (An epoch that raises, as the division by
    [len(val_loader)] does for an empty loader, ends the program; the
    model covers the runs in which every epoch returns.) *)
Variable run_epoch : Trainer -> Trainer * Loss.

Variable patience : nat.

(** The variables of the loop, the content of the checkpoint file
    ([None] when the file does not exist), and the epochs run so far with
    their saved weights and validation losses, oldest first.  The last
    field is not a variable of the source: it records the run. *)
Record LoopState : Type := {
  trainer : Trainer;
  best_val_loss : Loss;
  patience_counter : nat;
  checkpoint : option Weights;
  epochs : list (Weights * Loss)
}.

(** [val_loss < best_val_loss] *)
Definition improves (val_loss best : Loss) : bool := loss_lt val_loss best.

Fixpoint training_loop (num_epochs : nat) (st : LoopState) : LoopState :=
  match num_epochs with
  | O => st
  | S remaining =>
      let (t, val_loss) := run_epoch (trainer st) in
      let log := epochs st ++ [ (state_dict t, val_loss) ] in
      if improves val_loss (best_val_loss st) then
        training_loop remaining
          {| trainer := t; best_val_loss := val_loss;
             patience_counter := 0; checkpoint := Some (state_dict t);
             epochs := log |}
      else
        let counter := S (patience_counter st) in
        if (patience <=? counter)%nat then
          {| trainer := t; best_val_loss := best_val_loss st;
             patience_counter := counter; checkpoint := checkpoint st;
             epochs := log |}
        else
          training_loop remaining
            {| trainer := t; best_val_loss := best_val_loss st;
               patience_counter := counter; checkpoint := checkpoint st;
               epochs := log |}
  end.

(** [best_val_loss = float('inf')], [patience_counter = 0]. *)
Definition initial_state (t : Trainer) (file : option Weights) : LoopState :=
  {| trainer := t; best_val_loss := PlusInf; patience_counter := 0;
     checkpoint := file; epochs := [] |}.

(** The weights the function loads at the end and returns in the model;
    [None] is the error of [torch.load] on a missing file. *)
Definition train (t : Trainer) (file : option Weights) (num_epochs : nat)
  : option Weights :=
  checkpoint (training_loop num_epochs (initial_state t file)).

(** The loop invariant.  Either no epoch so far had a loss below [inf]:
    nothing was saved, and the counter has counted every epoch.  Or the
    checkpoint holds the weights of the epoch that set [best_val_loss]:
    every earlier epoch had a greater loss or [nan], no later epoch had a
    smaller one, and the counter tells how many epochs followed it. *)
Definition tracks_best (file : option Weights) (st : LoopState) : Prop :=
  (best_val_loss st = PlusInf
   /\ checkpoint st = file
   /\ (forall e, In e (epochs st) -> improves (snd e) PlusInf = false)
   /\ patience_counter st = length (epochs st))
  \/ (exists before w l after,
        epochs st = before ++ (w, l) :: after
        /\ best_val_loss st = l
        /\ checkpoint st = Some w
        /\ improves l PlusInf = true
        /\ (forall e, In e before ->
              snd e = NaN \/ improves l (snd e) = true)
        /\ (forall e, In e after -> improves (snd e) l = false)
        /\ patience_counter st = length after).

End EarlyStopping.

Arguments trainer {Trainer Weights} _.
Arguments best_val_loss {Trainer Weights} _.
Arguments patience_counter {Trainer Weights} _.
Arguments checkpoint {Trainer Weights} _.
Arguments epochs {Trainer Weights} _.

End Training.

(* ================================================================== *)
(** * The two small networks, in evaluation mode *)
(* ================================================================== *)

Module Network.
Import Linear.
Local Open Scope R_scope.

(** [nn.Linear]: a weight matrix, one row per output, and a bias. *)
Record Layer : Type := {
  weight : list (list R);
  bias : list R
}.

(** [layer(x)]: [W x + b]; shapes that do not fit raise. *)
Fixpoint affine (W : list (list R)) (b : list R) (x : list R)
  : option (list R) :=
  match W, b with
  | [], [] => Some []
  | row :: W', bi :: b' =>
      match dot row x, affine W' b' x with
      | Some d, Some r => Some (d + bi :: r)
      | _, _ => None
      end
  | _, _ => None
  end.

Definition apply_layer (l : Layer) (x : list R) : option (list R) :=
  affine (weight l) (bias l) x.

(** [nn.ReLU], [nn.Softplus] (beta 1, threshold 20: the identity above
    20) and [nn.Sigmoid], element-wise.  Over the reals the softplus is
    positive everywhere; in binary32 it underflows to exactly 0.0 for a
    very negative argument, so only [0 <= softplus x] carries over to the
    code, and the theorems on the program state no more. *)
Definition relu (x : R) : R := Rmax 0 x.

Definition softplus (x : R) : R :=
  if Rlt_dec 20 x then x else ln (1 + exp x).

(** [layer] followed by an activation. *)
Definition dense (l : Layer) (act : R -> R) (x : list R) : option (list R) :=
  match apply_layer l x with
  | Some y => Some (map act y)
  | None => None
  end.

Definition bind {A B : Type} (x : option A) (f : A -> option B) : option B :=
  match x with
  | Some a => f a
  | None => None
  end.

(** [AgeProbe]: the trunk 512 -> 128 -> 64, the age head 64 -> 32 -> 1
    ending in a ReLU, the uncertainty head 64 -> 16 -> 1 ending in a
    Softplus.  In evaluation mode [nn.Dropout] is the identity. *)
Record AgeProbe : Type := {
  features_1 : Layer;
  features_2 : Layer;
  age_head_1 : Layer;
  age_head_2 : Layer;
  uncertainty_head_1 : Layer;
  uncertainty_head_2 : Layer
}.

(** [AgeProbe.forward(x)] on one embedding: [(age, uncertainty)]. *)
Definition age_probe_forward (m : AgeProbe) (x : list R)
  : option (list R * list R) :=
  bind (dense (features_1 m) relu x) (fun h1 =>
  bind (dense (features_2 m) relu h1) (fun features =>
  bind (dense (age_head_1 m) relu features) (fun a1 =>
  bind (dense (age_head_2 m) relu a1) (fun age =>
  bind (dense (uncertainty_head_1 m) relu features) (fun u1 =>
  bind (dense (uncertainty_head_2 m) softplus u1) (fun uncertainty =>
  Some (age, uncertainty))))))).

(** The shape [nn.Linear(n_in, n_out)] gives a layer. *)
Definition has_shape (n_in n_out : nat) (l : Layer) : Prop :=
  length (weight l) = n_out
  /\ length (bias l) = n_out
  /\ Forall (fun row => length row = n_in) (weight l).

(** [AgeProbe(embedding_dim)] *)
Definition age_probe_shaped (embedding_dim : nat) (m : AgeProbe) : Prop :=
  has_shape embedding_dim 128 (features_1 m)
  /\ has_shape 128 64 (features_2 m)
  /\ has_shape 64 32 (age_head_1 m)
  /\ has_shape 32 1 (age_head_2 m)
  /\ has_shape 64 16 (uncertainty_head_1 m)
  /\ has_shape 16 1 (uncertainty_head_2 m).

(** The loss of one sample in [train_age_probe]:
    [torch.abs(pred_age - ages) + 0.1 * pred_unc]. *)
Definition sample_loss (pred_age pred_unc age : R) : R :=
  Rabs (pred_age - age) + (1 / 10) * pred_unc.

(** [SimilarityCalibrator]: 3 -> 32 -> 16 -> 1, ending in a Sigmoid. *)
Record SimilarityCalibrator : Type := {
  network_1 : Layer;
  network_2 : Layer;
  network_3 : Layer
}.

Definition calibrator_forward (m : SimilarityCalibrator) (x : list R)
  : option (list R) :=
  bind (dense (network_1 m) relu x) (fun h1 =>
  bind (dense (network_2 m) relu h1) (fun h2 =>
  dense (network_3 m) sigmoid h2)).

Definition calibrator_shaped (m : SimilarityCalibrator) : Prop :=
  has_shape 3 32 (network_1 m)
  /\ has_shape 32 16 (network_2 m)
  /\ has_shape 16 1 (network_3 m).

(** A layer of the given shape with all weights and biases 0. *)
Definition zero_layer (n_in n_out : nat) : Layer :=
  {| weight := repeat (repeat 0 n_in) n_out; bias := repeat 0 n_out |}.

End Network.

(* ================================================================== *)
(** * FairFace extraction ([train-age-probe-fairface.py]) *)
(* ================================================================== *)

Module FairFace.
Local Open Scope Q_scope.

(** [AGE_BIN_MIDPOINTS]; a bin outside the table raises [KeyError]. *)
Definition AGE_BIN_MIDPOINTS (age_bin : Z) : option Q :=
  match age_bin with
  | 0%Z => Some 1
  | 1%Z => Some 6
  | 2%Z => Some (145 # 10)
  | 3%Z => Some (245 # 10)
  | 4%Z => Some (345 # 10)
  | 5%Z => Some (445 # 10)
  | 6%Z => Some (545 # 10)
  | 7%Z => Some (645 # 10)
  | 8%Z => Some (775 # 10)
  | _ => None
  end.

Section Extract.

Variables (Bytes Embedding : Type).

(** Decoding the image bytes, preprocessing and running the model;
    [None] when any of them raises. *)
Variable embed : Bytes -> option Embedding.

(** A row of a parquet file: the age bin, and the bytes of the image
    when [row['image']] is a dictionary with the key ['bytes']. *)
Record Row : Type := {
  age : Z;
  image : option Bytes
}.

(** The body of the [try] for one row. *)
Definition process_row (row : Row) : option (Embedding * Q) :=
  match AGE_BIN_MIDPOINTS (age row) with
  | None => None
  | Some a =>
      match image row with
      | None => None
      | Some img_bytes =>
          match embed img_bytes with
          | None => None
          | Some embedding => Some (embedding, a)
          end
      end
  end.

(** [max_samples and total_processed >= max_samples] *)
Definition cap_reached (max_samples : option Z) (total_processed : nat)
  : bool :=
  match max_samples with
  | None => false
  | Some m => negb (m =? 0)%Z && (m <=? Z.of_nat total_processed)%Z
  end.

(** The state: [embeddings], [ages] and [total_processed]. *)
Definition State : Type := (list Embedding * list Q * nat)%type.

(** The loop over the rows of one file, with its [break]. *)
Fixpoint row_loop (max_samples : option Z) (rows : list Row) (st : State)
  : State :=
  match rows with
  | [] => st
  | row :: rest =>
      let '(embeddings, ages, total_processed) := st in
      if cap_reached max_samples total_processed then st
      else
        match process_row row with
        | Some (embedding, a) =>
            row_loop max_samples rest
              (embeddings ++ [ embedding ], ages ++ [ a ],
               S total_processed)
        | None => row_loop max_samples rest st
        end
  end.

(** The loop over the parquet files, with the second [break]. *)
Fixpoint file_loop (max_samples : option Z) (files : list (list Row))
    (st : State) : State :=
  match files with
  | [] => st
  | rows :: rest =>
      let st1 := row_loop max_samples rows st in
      if cap_reached max_samples (snd st1) then st1
      else file_loop max_samples rest st1
  end.

(** [extract_embeddings_from_fairface]: [train_files] is [None] when the
    directory does not exist ([FileNotFoundError]), else the rows of the
    training files in sorted order. *)
Definition extract_embeddings_from_fairface
    (train_files : option (list (list Row))) (max_samples : option Z)
  : option (list Embedding * list Q) :=
  match train_files with
  | None => None
  | Some files => Some (fst (file_loop max_samples files ([], [], 0%nat)))
  end.

(** The rows of a list that are not skipped, in order. *)
Definition kept_of (rows : list Row) : list (Embedding * Q) :=
  flat_map
    (fun row => match process_row row with
                | Some entry => [ entry ]
                | None => []
                end)
    rows.

(** The rows that are not skipped, over all the files, in order. *)
Definition kept_rows (files : list (list Row)) : list (Embedding * Q) :=
  flat_map
    (fun row => match process_row row with
                | Some entry => [ entry ]
                | None => []
                end)
    (concat files).

End Extract.

(** The number of kept samples after which the loops stop: none for
    [None] and for 0; a negative [max_samples] stops them at once. *)
Definition budget (max_samples : option Z) : option nat :=
  match max_samples with
  | None => None
  | Some m => if (m =? 0)%Z then None else Some (Z.to_nat m)
  end.

(** What a budget leaves of a list when [already] samples are kept. *)
Definition take {A : Type} (b : option nat) (already : nat) (l : list A)
  : list A :=
  match b with
  | None => l
  | Some n => firstn (n - already) l
  end.

End FairFace.

(* ================================================================== *)
(** * The threshold search of [audit-calibrator.py] *)
(* ================================================================== *)

Module Audit.
Local Open Scope Q_scope.

(** The search for the similarity at which the probability crosses 0.5:
<<
    low, high = 0.0, 1.0
    for _ in range(20):
        mid = (low + high) / 2
        ... prob = model([mid, age_diff, 0.0]) ...
        if prob > 0.5:
            high = mid
        else:
            low = mid
>>
    [prob_at] is the model's probability as a function of the
    similarity. *)
Section Search.

Variable prob_at : Q -> Q.

Definition search_step (st : Q * Q) : Q * Q :=
  let '(low, high) := st in
  let mid := (low + high) / 2 in
  let prob := prob_at mid in
  if negb (Qle_bool prob (1 # 2)) then (low, mid) else (mid, high).

Fixpoint search (rounds : nat) (st : Q * Q) : Q * Q :=
  match rounds with
  | O => st
  | S n => search n (search_step st)
  end.

Definition find_threshold : Q * Q := search 20 (0, 1).

(** The bracket of the search: the probability is at most 0.5 at its
    lower end and above 0.5 at its upper end. *)
Definition brackets (st : Q * Q) : Prop :=
  prob_at (fst st) <= 1 # 2 /\ 1 # 2 < prob_at (snd st)
  /\ fst st < snd st.

End Search.

End Audit.

(* ================================================================== *)
(** * Reading the AgeDB-30 pairs file ([load_agedb30]) *)
(* ================================================================== *)

Module Datasets.
Import Loops.

Section Agedb.

(** [str.strip], of the Python library. *)
Variable strip : string -> string.

(** [f"{name}/{name}_{idx}.jpg"] *)
Definition image_path (name idx : string) : string :=
  (name ++ "/" ++ name ++ "_" ++ idx ++ ".jpg")%string.

(** The body of the loop over the lines: a line of three tab-separated
    fields is a positive pair, one of four fields a negative pair, any
    other line is passed over. *)
Definition parse_line (line : string) : option (string * string * Z) :=
  match split "009"%char (strip line) with
  | [ name; idx1; idx2 ] =>
      Some (image_path name idx1, image_path name idx2, 1%Z)
  | [ name1; idx1; name2; idx2 ] =>
      Some (image_path name1 idx1, image_path name2 idx2, 0%Z)
  | _ => None
  end.

(** [load_agedb30(data_dir)]: [lines] is the content of
    [agedb_pairs.txt], [None] when the file does not exist
    ([FileNotFoundError]); the first line is a header. *)
Definition load_agedb30 (lines : option (list string)) (data_dir : string)
  : option (list (string * string * Z) * string) :=
  match lines with
  | None => None
  | Some lines =>
      let pairs :=
        flat_map
          (fun line => match parse_line line with
                       | Some entry => [ entry ]
                       | None => []
                       end)
          (tl lines) in
      Some (pairs, data_dir)
  end.

(** A pair as the loader builds them: label 1 with two images of one
    person's directory, or label 0. *)
Definition loader_pair (entry : string * string * Z) : Prop :=
  let '(img1, img2, label) := entry in
  (label = 1%Z
   /\ exists name idx1 idx2,
        img1 = image_path name idx1 /\ img2 = image_path name idx2)
  \/ (label = 0%Z
      /\ exists name1 idx1 name2 idx2,
           img1 = image_path name1 idx1 /\ img2 = image_path name2 idx2).

End Agedb.

End Datasets.

(* ================================================================== *)
(** * Example data for the witnesses *)
(* ================================================================== *)

Module Examples.
Import Metrics.
Local Open Scope Q_scope.

(** One same-person pair (similarity 0.9, age gap 2) and one
    different-person pair (similarity 0.2, age gap 30). *)
Definition far_same : Pairs :=
  {| similarity := [ 9 # 10 ]; age_diff := [ 2 ] |}.

Definition far_diff : Pairs :=
  {| similarity := [ 2 # 10 ]; age_diff := [ 30 ] |}.

(** Three unit embeddings, the first two equal, with their ages, and a
    random source that always draws the first and the third. *)
Definition three_embeddings : list (list Q) :=
  [ [ 1; 0 ]; [ 1; 0 ]; [ 0; 1 ] ].

Definition three_ages : list Z := [ 20; 25; 60 ]%Z.

Definition first_and_third : nat -> nat * nat := fun _ => (0%nat, 2%nat).

(** Two orthogonal unit embeddings. *)
Definition two_orthogonal : list (list Q) := [ [ 1; 0 ]; [ 0; 1 ] ].

Definition two_ages : list Z := [ 20; 60 ]%Z.

Definition first_and_second : nat -> nat * nat := fun _ => (0%nat, 1%nat).

(** A trainer that is just the number of epochs it has run, with the
    validation losses nan, 5, 3, 4, 4, 4, ...; and one whose validation
    loss is nan at every epoch. *)
Definition toy_epoch (t : nat) : nat * Training.Loss :=
  (S t,
   nth t [ Training.NaN; Training.Finite 5; Training.Finite 3 ]
     (Training.Finite 4)).

Definition diverged_epoch (t : nat) : nat * Training.Loss :=
  (S t, Training.NaN).

(** A probability that grows with the similarity and crosses 0.5 at
    0.7. *)
Definition toy_prob (sim : Q) : Q := sim - (2 # 10).

(** An age probe for embeddings of two numbers and a calibrator, with
    all weights and biases 0. *)
Definition zero_age_probe : Network.AgeProbe :=
  {| Network.features_1 := Network.zero_layer 2 128;
     Network.features_2 := Network.zero_layer 128 64;
     Network.age_head_1 := Network.zero_layer 64 32;
     Network.age_head_2 := Network.zero_layer 32 1;
     Network.uncertainty_head_1 := Network.zero_layer 64 16;
     Network.uncertainty_head_2 := Network.zero_layer 16 1 |}.

Definition zero_calibrator : Network.SimilarityCalibrator :=
  {| Network.network_1 := Network.zero_layer 3 32;
     Network.network_2 := Network.zero_layer 32 16;
     Network.network_3 := Network.zero_layer 16 1 |}.

End Examples.

(* ================================================================== *)
(** * Theorems: the penalty model *)
(* ================================================================== *)

Module PenaltyFacts.
Import Penalty.
Local Open Scope Q_scope.

Lemma Qmult_le_compat_l_nonneg (x y z : Q) :
  0 <= z -> x <= y -> z * x <= z * y.
Proof.
  intros Hz Hxy. rewrite (Qmult_comm z x), (Qmult_comm z y).
  apply Qmult_le_compat_r; assumption.
Qed.

Lemma np_clip_cases (a lo hi : Q) :
  lo <= hi ->
  (a <= lo /\ np_clip a lo hi == lo)
  \/ (lo <= a <= hi /\ np_clip a lo hi == a)
  \/ (hi <= a /\ np_clip a lo hi == hi).
Proof.
  intros Hlh. unfold np_clip.
  destruct (Q.max_spec a lo) as [[H1 E1] | [H1 E1]];
  destruct (Q.min_spec hi (Qmax a lo)) as [[H2 E2] | [H2 E2]];
  rewrite E2; rewrite E1 in *.
  - right; right. split; [lra | reflexivity].
  - left. split; [lra | reflexivity].
  - right; right. split; [lra | reflexivity].
  - right; left. split; [lra | reflexivity].
Qed.

Lemma np_clip_is_clamp (a lo hi : Q) :
  lo <= hi -> np_clip a lo hi == clamp a lo hi.
Proof.
  intros Hlh. unfold clamp.
  destruct (np_clip_cases a lo hi Hlh) as [[H E] | [[H E] | [H E]]];
    rewrite E; destruct (Qlt_le_dec a lo); destruct (Qlt_le_dec hi a);
    try reflexivity; lra.
Qed.

Lemma np_clip_range (a lo hi : Q) :
  lo <= hi -> lo <= np_clip a lo hi <= hi.
Proof.
  intros Hlh.
  destruct (np_clip_cases a lo hi Hlh) as [[H E] | [[H E] | [H E]]];
    rewrite E; lra.
Qed.

Lemma np_clip_mono (a b lo hi : Q) :
  lo <= hi -> a <= b -> np_clip a lo hi <= np_clip b lo hi.
Proof.
  intros Hlh Hab.
  destruct (np_clip_cases a lo hi Hlh) as [[H E] | [[H E] | [H E]]];
  destruct (np_clip_cases b lo hi Hlh) as [[H' E'] | [[H' E'] | [H' E']]];
    rewrite E, E'; lra.
Qed.

(** C3.  For every similarity [s], every age gap [d >= 0] and parameters
    with [M >= 0], the calibrated score is [s - alpha * clamp (d - tau) 0 M];
    it is [s] whenever [d <= tau] and [s - alpha * M] whenever
    [d >= tau + M]. *)
Theorem penalty_calibration_closed_form (s d alpha tau M : Q) :
  0 <= d -> 0 <= M ->
  penalty_calibration s d alpha tau M == s - alpha * clamp (d - tau) 0 M
  /\ (d <= tau -> penalty_calibration s d alpha tau M == s)
  /\ (tau + M <= d -> penalty_calibration s d alpha tau M == s - alpha * M).
Proof.
  intros _ HM. unfold penalty_calibration. cbv zeta.
  split; [| split].
  - rewrite (np_clip_is_clamp (d - tau) 0 M HM). reflexivity.
  - intros Hd.
    destruct (np_clip_cases (d - tau) 0 M HM) as [[H E] | [[H E] | [H E]]];
      rewrite E.
    + ring.
    + assert (Hz : d - tau == 0) by lra. rewrite Hz. ring.
    + assert (Hz : M == 0) by lra. rewrite Hz. ring.
  - intros Hd.
    destruct (np_clip_cases (d - tau) 0 M HM) as [[H E] | [[H E] | [H E]]];
      rewrite E.
    + assert (Hz : M == 0) by lra. rewrite Hz. ring.
    + assert (Hz : d - tau == M) by lra. rewrite Hz. ring.
    + ring.
Qed.

Lemma penalty_calibration_closed_form_witness :
  penalty_calibration (7 # 10) 12 (5 # 1000) 5 30
    == (7 # 10) - (5 # 1000) * clamp (12 - 5) 0 30
  /\ (12 <= 5 -> penalty_calibration (7 # 10) 12 (5 # 1000) 5 30 == 7 # 10)
  /\ (5 + 30 <= 12 ->
      penalty_calibration (7 # 10) 12 (5 # 1000) 5 30
        == (7 # 10) - (5 # 1000) * 30).
Proof.
  apply (penalty_calibration_closed_form (7 # 10) 12 (5 # 1000) 5 30).
  - vm_compute. discriminate.
  - vm_compute. discriminate.
Defined.

(** C10.  For every similarity [s], every age difference [d] (also below
    [tau], also negative) and parameters with [alpha >= 0] and [M >= 0],
    the calibrated score lies between [s - alpha * M] and [s], and it does
    not increase when the age difference grows. *)
Theorem penalty_calibration_bounds (s d alpha tau M : Q) :
  0 <= alpha -> 0 <= M ->
  s - alpha * M <= penalty_calibration s d alpha tau M
  /\ penalty_calibration s d alpha tau M <= s
  /\ (forall d', d <= d' ->
        penalty_calibration s d' alpha tau M
          <= penalty_calibration s d alpha tau M).
Proof.
  intros Ha HM. unfold penalty_calibration. cbv zeta.
  pose proof (np_clip_range (d - tau) 0 M HM) as [Hlo Hhi].
  split; [| split].
  - assert (alpha * np_clip (d - tau) 0 M <= alpha * M)
      by (apply Qmult_le_compat_l_nonneg; assumption).
    lra.
  - assert (0 <= alpha * np_clip (d - tau) 0 M)
      by (apply Qmult_le_0_compat; assumption).
    lra.
  - intros d' Hd.
    assert (Hm : np_clip (d - tau) 0 M <= np_clip (d' - tau) 0 M)
      by (apply np_clip_mono; [assumption | lra]).
    assert (alpha * np_clip (d - tau) 0 M <= alpha * np_clip (d' - tau) 0 M)
      by (apply Qmult_le_compat_l_nonneg; assumption).
    lra.
Qed.

Lemma penalty_calibration_bounds_witness :
  (7 # 10) - (5 # 1000) * 30 <= penalty_calibration (7 # 10) (-4) (5 # 1000) 5 30
  /\ penalty_calibration (7 # 10) (-4) (5 # 1000) 5 30 <= 7 # 10
  /\ (forall d', -4 <= d' ->
        penalty_calibration (7 # 10) d' (5 # 1000) 5 30
          <= penalty_calibration (7 # 10) (-4) (5 # 1000) 5 30).
Proof.
  apply (penalty_calibration_bounds (7 # 10) (-4) (5 # 1000) 5 30).
  - vm_compute. discriminate.
  - vm_compute. discriminate.
Defined.

End PenaltyFacts.

(* ================================================================== *)
(** * Theorems: the constrained linear model *)
(* ================================================================== *)

Module LinearFacts.
Import Linear.
Local Open Scope R_scope.

(** ** Shapes *)

Lemma dot_defined (x w : list R) :
  length x = length w -> exists r, dot x w = Some r.
Proof.
  revert w. induction x as [| a x IH]; intros [| b w] Hlen;
    simpl in Hlen; try discriminate.
  - exists 0. reflexivity.
  - injection Hlen as Hlen. destruct (IH w Hlen) as [r Hr].
    exists (a * b + r). simpl. rewrite Hr. reflexivity.
Qed.

Lemma matvec_defined (features : list (list R)) (w : list R) :
  Forall (fun row => length row = length w) features ->
  exists ls, matvec features w = Some ls /\ length ls = length features.
Proof.
  induction 1 as [| row rest Hrow _ IH].
  - exists []. split; reflexivity.
  - destruct IH as [ls [Hls Hlen]].
    destruct (dot_defined row w Hrow) as [l Hl].
    exists (l :: ls). simpl. rewrite Hl, Hls, Hlen. split; reflexivity.
Qed.

Lemma zip_with_defined (f : R -> R -> R) (xs ys : list R) :
  length xs = length ys -> exists r, zip_with f xs ys = Some r.
Proof.
  revert ys. induction xs as [| x xs IH]; intros [| y ys] Hlen;
    simpl in Hlen; try discriminate.
  - exists []. reflexivity.
  - injection Hlen as Hlen. destruct (IH ys Hlen) as [r Hr].
    exists (f x y :: r). simpl. rewrite Hr. reflexivity.
Qed.

(** On an [n x 4] feature matrix with [n] labels the objective is defined
    at every five-parameter point. *)
Lemma logistic_loss_defined (features : list (list R)) (labels : list R)
    (regularization : R) (params : list R) :
  Forall (fun row => length row = 4%nat) features ->
  length labels = length features ->
  length params = 5%nat ->
  logistic_loss features labels regularization params <> None.
Proof.
  intros Hrows Hlabels Hparams.
  destruct params as [| w0 w]; [discriminate |].
  simpl in Hparams. injection Hparams as Hw.
  assert (Hrows' : Forall (fun row => length row = length w) features).
  { rewrite Hw. exact Hrows. }
  destruct (matvec_defined features w Hrows') as [ls [Hls Hlen]].
  unfold logistic_loss, probs, logits. rewrite Hls.
  match goal with
  | |- context [zip_with ?f labels ?ps] =>
      destruct (zip_with_defined f labels ps) as [terms Hterms]
  end.
  { rewrite !length_map. congruence. }
  rewrite Hterms. discriminate.
Qed.

(** ** The optimizer's contract *)

Lemma bounds_consistent : Forall consistent bounds.
Proof. unfold bounds. repeat constructor. Qed.

Lemma project1_within (b : bound) (x : R) :
  consistent b -> within b (project1 b x).
Proof.
  destruct b as [[lo |] [hi |]]; unfold consistent, within, project1; simpl;
    intros Hc; split; try exact I.
  - apply Rmin_glb; [apply Rmax_r | exact Hc].
  - apply Rmin_r.
  - apply Rmax_r.
  - apply Rmin_r.
Qed.

Lemma project_feasible (bs : list bound) (xs : list R) :
  Forall consistent bs -> length xs = length bs ->
  feasible bs (project bs xs).
Proof.
  intros Hc. revert xs. induction Hc as [| b bs Hb _ IH]; intros [| x xs] Hlen;
    simpl in Hlen; try discriminate.
  - constructor.
  - injection Hlen as Hlen. simpl. constructor.
    + apply project1_within. exact Hb.
    + apply IH. exact Hlen.
Qed.

Lemma project_length (bs : list bound) (xs : list R) :
  length xs = length bs -> length (project bs xs) = length xs.
Proof.
  revert xs. induction bs as [| b bs IH]; intros [| x xs] Hlen;
    simpl in Hlen; try discriminate; simpl.
  - reflexivity.
  - injection Hlen as Hlen. rewrite (IH xs Hlen). reflexivity.
Qed.

Lemma projected_start_respects_bounds : respects_bounds projected_start.
Proof.
  intros f x0 bs x Hc Hlen. unfold projected_start.
  destruct (f (project bs x0)); [| discriminate].
  intros Hx. injection Hx as <-. apply project_feasible; assumption.
Qed.

Lemma projected_start_returns_result : returns_result projected_start.
Proof.
  intros f x0 bs Hc Hlen Hf. unfold projected_start.
  specialize (Hf (project bs x0) (project_length bs x0 Hlen)).
  destruct (f (project bs x0)); [discriminate | contradiction].
Qed.

(** ** Signs of the fitted weights *)

Lemma feasible_bounds_signs (params : list R) :
  feasible bounds params ->
  exists bias w_sim w_age w_age2 w_unc,
    params = [ bias; w_sim; w_age; w_age2; w_unc ]
    /\ 0 <= w_sim /\ w_age <= 0 /\ w_age2 <= 0 /\ w_unc <= 0.
Proof.
  unfold feasible, bounds. intros H.
  inversion H as [| b0 bias bs0 ps0 _ H0]; subst.
  inversion H0 as [| b1 w_sim bs1 ps1 Hsim H1]; subst.
  inversion H1 as [| b2 w_age bs2 ps2 Hage H2]; subst.
  inversion H2 as [| b3 w_age2 bs3 ps3 Hage2 H3]; subst.
  inversion H3 as [| b4 w_unc bs4 ps4 Hunc H4]; subst.
  inversion H4; subst.
  exists bias, w_sim, w_age, w_age2, w_unc.
  unfold within in *; simpl in *.
  repeat split; tauto.
Qed.

(** Whenever the fit returns, and on whatever data, the signs hold. *)
Lemma fit_signs_if_returned (minimize : optimizer)
    (features : list (list R)) (labels : list R) (regularization : R)
    (params : list R) :
  respects_bounds minimize ->
  constrained_linear_calibrator minimize features labels regularization
    = Some params ->
  exists bias w_sim w_age w_age2 w_unc,
    params = [ bias; w_sim; w_age; w_age2; w_unc ]
    /\ 0 <= w_sim /\ w_age <= 0 /\ w_age2 <= 0 /\ w_unc <= 0.
Proof.
  intros Hbox Hfit. apply feasible_bounds_signs.
  unfold constrained_linear_calibrator in Hfit.
  exact (Hbox _ initial_params bounds params bounds_consistent eq_refl Hfit).
Qed.

(** C1.  With a bounded optimizer (one whose result lies in the box it is
    given, and which returns whenever the objective can be evaluated), the
    fit on any [n x 4] feature matrix with [n] labels returns five
    parameters [bias, w_sim, w_age, w_age2, w_unc] with [w_sim >= 0],
    [w_age <= 0], [w_age2 <= 0] and [w_unc <= 0]: whatever the data show,
    also when the age gap alone predicts the label. *)
Theorem fitted_weights_signs (minimize : optimizer)
    (features : list (list R)) (labels : list R) (regularization : R) :
  respects_bounds minimize -> returns_result minimize ->
  Forall (fun row => length row = 4%nat) features ->
  length labels = length features ->
  exists bias w_sim w_age w_age2 w_unc,
    constrained_linear_calibrator minimize features labels regularization
      = Some [ bias; w_sim; w_age; w_age2; w_unc ]
    /\ 0 <= w_sim /\ w_age <= 0 /\ w_age2 <= 0 /\ w_unc <= 0.
Proof.
  intros Hbox Hret Hrows Hlabels.
  destruct (constrained_linear_calibrator minimize features labels
              regularization) as [params |] eqn:Hfit.
  - destruct (fit_signs_if_returned minimize features labels regularization
                params Hbox Hfit)
      as (bias & w_sim & w_age & w_age2 & w_unc & -> & Hs).
    exists bias, w_sim, w_age, w_age2, w_unc. split; [reflexivity | exact Hs].
  - exfalso. unfold constrained_linear_calibrator in Hfit.
    revert Hfit. apply Hret; [apply bounds_consistent | reflexivity |].
    intros p Hp. apply logistic_loss_defined; assumption.
Qed.

Lemma fitted_weights_signs_witness :
  exists bias w_sim w_age w_age2 w_unc,
    constrained_linear_calibrator projected_start
      age_only_features age_only_labels (1 / 100)
      = Some [ bias; w_sim; w_age; w_age2; w_unc ]
    /\ 0 <= w_sim /\ w_age <= 0 /\ w_age2 <= 0 /\ w_unc <= 0.
Proof.
  apply (fitted_weights_signs projected_start
           age_only_features age_only_labels (1 / 100)).
  - exact projected_start_respects_bounds.
  - exact projected_start_returns_result.
  - repeat constructor.
  - reflexivity.
Defined.

(** ** Monotonicity of the probability *)

Lemma sigmoid_mono (x y : R) : x <= y -> sigmoid x <= sigmoid y.
Proof.
  intros Hxy. unfold sigmoid.
  assert (Hex : exp (- y) <= exp (- x)).
  { destruct Hxy as [Hlt | ->]; [| apply Rle_refl].
    left. apply exp_increasing. lra. }
  pose proof (exp_pos (- x)) as Hpx. pose proof (exp_pos (- y)) as Hpy.
  unfold Rdiv. rewrite !Rmult_1_l.
  apply Rinv_le_contravar; lra.
Qed.

Lemma sigmoid_range (x : R) : 0 < sigmoid x < 1.
Proof.
  unfold sigmoid. pose proof (exp_pos (- x)) as Hp.
  unfold Rdiv. rewrite Rmult_1_l. split.
  - apply Rinv_0_lt_compat. lra.
  - rewrite <- Rinv_1 at 2. apply Rinv_lt_contravar; lra.
Qed.

(** The probability the code computes for one feature row. *)
Lemma predict_row (bias w_sim w_age w_age2 w_unc sim d d2 unc : R) :
  predict [ bias; w_sim; w_age; w_age2; w_unc ] [ sim; d; d2; unc ]
  = Some (sigmoid (bias + w_sim * sim + w_age * d + w_age2 * d2
                   + w_unc * unc)).
Proof.
  unfold predict, probs, logits. simpl. do 2 f_equal. ring.
Qed.

(** C2.  For weights with [w_sim >= 0], [w_age <= 0], [w_age2 <= 0] and
    [w_unc <= 0], the probability computed for a feature row
    [sim, d, d^2, unc] with [d >= 0] is
    [sigmoid (bias + w_sim*sim + w_age*d + w_age2*d^2 + w_unc*unc)]; with
    the other features fixed it does not increase when the age gap grows
    and does not decrease when the similarity grows, for all inputs. *)
Theorem probability_monotone (bias w_sim w_age w_age2 w_unc : R) :
  0 <= w_sim -> w_age <= 0 -> w_age2 <= 0 -> w_unc <= 0 ->
  let params := [ bias; w_sim; w_age; w_age2; w_unc ] in
  (forall sim d unc,
      predict params [ sim; d; d ^ 2; unc ]
      = Some (sigmoid (bias + w_sim * sim + w_age * d + w_age2 * d ^ 2
                       + w_unc * unc)))
  /\ (forall sim unc d1 d2,
        0 <= d1 -> d1 <= d2 ->
        exists p1 p2,
          predict params [ sim; d1; d1 ^ 2; unc ] = Some p1
          /\ predict params [ sim; d2; d2 ^ 2; unc ] = Some p2
          /\ p2 <= p1)
  /\ (forall d unc sim1 sim2,
        0 <= d -> sim1 <= sim2 ->
        exists p1 p2,
          predict params [ sim1; d; d ^ 2; unc ] = Some p1
          /\ predict params [ sim2; d; d ^ 2; unc ] = Some p2
          /\ p1 <= p2).
Proof.
  intros Hsim Hage Hage2 Hunc params. subst params.
  split; [| split].
  - intros sim d unc. apply predict_row.
  - intros sim unc d1 d2 Hd1 Hd.
    eexists. eexists.
    split; [apply predict_row | split; [apply predict_row |]].
    apply sigmoid_mono.
    assert (d1 ^ 2 <= d2 ^ 2) by nra.
    nra.
  - intros d unc sim1 sim2 Hd Hs.
    eexists. eexists.
    split; [apply predict_row | split; [apply predict_row |]].
    apply sigmoid_mono. nra.
Qed.

Lemma probability_monotone_witness :
  let params := [ 0; 1; - (1 / 100); - (1 / 10000); - (1 / 100) ] in
  (forall sim d unc,
      predict params [ sim; d; d ^ 2; unc ]
      = Some (sigmoid (0 + 1 * sim + - (1 / 100) * d + - (1 / 10000) * d ^ 2
                       + - (1 / 100) * unc)))
  /\ (forall sim unc d1 d2,
        0 <= d1 -> d1 <= d2 ->
        exists p1 p2,
          predict params [ sim; d1; d1 ^ 2; unc ] = Some p1
          /\ predict params [ sim; d2; d2 ^ 2; unc ] = Some p2
          /\ p2 <= p1)
  /\ (forall d unc sim1 sim2,
        0 <= d -> sim1 <= sim2 ->
        exists p1 p2,
          predict params [ sim1; d; d ^ 2; unc ] = Some p1
          /\ predict params [ sim2; d; d ^ 2; unc ] = Some p2
          /\ p1 <= p2).
Proof.
  apply (probability_monotone 0 1 (- (1 / 100)) (- (1 / 10000))
           (- (1 / 100))); lra.
Defined.

End LinearFacts.

(* ================================================================== *)
(** * Theorems: the feature assembler *)
(* ================================================================== *)

Module AssemblerFacts.
Import Linear Assembler.
Local Open Scope R_scope.

Lemma normalize_length (emb : list R) : length (normalize emb) = length emb.
Proof. unfold normalize. apply length_map. Qed.

(** The norm of the code is the Euclidean length. *)
Lemma norm_is_euclidean_length (emb : list R) :
  norm emb = euclidean_length emb.
Proof.
  unfold norm, euclidean_length, np_sum. f_equal.
  induction emb as [| x emb IH]; simpl; [reflexivity |].
  rewrite IH. reflexivity.
Qed.

Lemma normalize_is_unit_vector (emb : list R) :
  normalize emb = unit_vector emb.
Proof.
  unfold normalize, unit_vector. rewrite norm_is_euclidean_length.
  reflexivity.
Qed.

(** On two vectors of one length [np.dot] is the sum of the products. *)
Lemma dot_is_inner_product (u v : list R) :
  length u = length v -> dot u v = Some (inner_product u v).
Proof.
  revert v. induction u as [| x u IH]; intros [| y v] Hlen;
    simpl in Hlen; try discriminate.
  - reflexivity.
  - injection Hlen as Hlen. simpl. rewrite (IH v Hlen). reflexivity.
Qed.

Lemma unit_vector_length (emb : list R) :
  length (unit_vector emb) = length emb.
Proof. unfold unit_vector. apply length_map. Qed.

Lemma euclidean_length_3_4 : euclidean_length [ 3; 4 ] <> 0.
Proof.
  unfold euclidean_length. simpl. apply Rgt_not_eq.
  apply sqrt_lt_R0. lra.
Qed.

Lemma euclidean_length_4_3 : euclidean_length [ 4; 3 ] <> 0.
Proof.
  unfold euclidean_length. simpl. apply Rgt_not_eq.
  apply sqrt_lt_R0. lra.
Qed.

(** C7.  For every two (embedding, age, uncertainty) inputs whose
    embeddings have one length and are not of Euclidean length 0, the
    assembler returns a feature vector of four entries, the FacePairFeature
    whose similarity is the cosine similarity of the data model (the sum of
    the products of the entries of the two embeddings, each divided by its
    Euclidean length), whose ageDiff is the absolute age difference (never
    negative), whose ageDiffSquared is the square of ageDiff (and of the
    age difference itself), and whose uncertainty is the mean of the two
    uncertainties. *)
Theorem feature_vec_components (emb1 : list R) (age1 unc1 : R)
    (emb2 : list R) (age2 unc2 : R) :
  length emb1 = length emb2 ->
  euclidean_length emb1 <> 0 ->
  euclidean_length emb2 <> 0 ->
  exists v f,
    feature_vec emb1 age1 unc1 emb2 age2 unc2 = Some v
    /\ as_FacePairFeature v = Some f
    /\ similarity f = cosine_similarity emb1 emb2
    /\ ageDiff f = Rabs (age1 - age2)
    /\ 0 <= ageDiff f
    /\ ageDiffSquared f = ageDiff f ^ 2
    /\ ageDiffSquared f = (age1 - age2) * (age1 - age2)
    /\ uncertainty f = (unc1 + unc2) / 2.
Proof.
  intros Hlen _ _.
  unfold feature_vec. cbv zeta.
  rewrite !normalize_is_unit_vector.
  rewrite dot_is_inner_product
    by (rewrite !unit_vector_length; exact Hlen).
  eexists. eexists.
  split; [reflexivity |].
  split; [reflexivity |].
  cbn [similarity ageDiff ageDiffSquared uncertainty].
  split; [reflexivity |].
  split; [reflexivity |].
  split; [apply Rabs_pos |].
  split; [reflexivity |].
  split; [| reflexivity].
  rewrite <- Rsqr_pow2, <- Rsqr_abs. reflexivity.
Qed.

Lemma feature_vec_components_witness :
  exists v f,
    feature_vec [ 3; 4 ] 30 2 [ 4; 3 ] 42 4 = Some v
    /\ as_FacePairFeature v = Some f
    /\ similarity f = cosine_similarity [ 3; 4 ] [ 4; 3 ]
    /\ ageDiff f = Rabs (30 - 42)
    /\ 0 <= ageDiff f
    /\ ageDiffSquared f = ageDiff f ^ 2
    /\ ageDiffSquared f = (30 - 42) * (30 - 42)
    /\ uncertainty f = (2 + 4) / 2.
Proof.
  apply (feature_vec_components [ 3; 4 ] 30 2 [ 4; 3 ] 42 4).
  - reflexivity.
  - exact euclidean_length_3_4.
  - exact euclidean_length_4_3.
Defined.

(** ** No validation of feature rows *)

(** The probabilities of an [n x 4] feature matrix are defined at every
    five-parameter point, one for each row. *)
Lemma probs_defined (features : list (list R)) (params : list R) :
  Forall (fun row => length row = 4%nat) features ->
  length params = 5%nat ->
  exists ps, probs params features = Some ps
             /\ length ps = length features.
Proof.
  intros Hrows Hparams.
  destruct params as [| w0 w]; [discriminate |].
  simpl in Hparams. injection Hparams as Hw.
  assert (Hrows' : Forall (fun row => length row = length w) features).
  { rewrite Hw. exact Hrows. }
  destruct (LinearFacts.matvec_defined features w Hrows')
    as [ls [Hls Hlen]].
  unfold probs, logits. rewrite Hls.
  eexists. split; [reflexivity |]. rewrite !length_map. exact Hlen.
Qed.

(** The row [0.5, -3, 9, 0.1] has a negative age gap; the model scores
    it, and the training loss takes it. *)
Lemma negative_gap_row_scored :
  length negative_gap_row = 4%nat
  /\ nth_error negative_gap_row 1 = Some (- 3)
  /\ - 3 < 0
  /\ predict initial_params negative_gap_row
     = Some (sigmoid (0 + 1 * (1 / 2) + - (1 / 100) * - 3
                      + - (1 / 10000) * 9 + - (1 / 100) * (1 / 10)))
  /\ logistic_loss [ negative_gap_row ] [ 1 ] (1 / 100) initial_params
     <> None.
Proof.
  split; [reflexivity |].
  split; [reflexivity |].
  split; [lra |].
  split.
  - unfold initial_params, negative_gap_row.
    apply LinearFacts.predict_row.
  - apply LinearFacts.logistic_loss_defined.
    + repeat constructor.
    + reflexivity.
    + reflexivity.
Qed.

(** C8, as claimed, fails: a feature row with a negative ageDiff is not
    rejected.  The row [0.5, -3, 9, 0.1] has four entries and the age gap
    -3; with the five initial parameters the scoring code returns a
    probability for it, and the training loss of the one-row training set
    it makes is computed.  So it is false that every well-shaped row with a
    negative age gap is refused by the code that takes feature rows. *)
Lemma negative_age_diff_not_rejected :
  (length negative_gap_row = 4%nat
   /\ nth_error negative_gap_row 1 = Some (- 3)
   /\ - 3 < 0
   /\ (exists p, predict initial_params negative_gap_row = Some p)
   /\ (exists loss,
         logistic_loss [ negative_gap_row ] [ 1 ] (1 / 100) initial_params
         = Some loss))
  /\ ~ (forall params row d,
          length params = 5%nat -> length row = 4%nat ->
          nth_error row 1 = Some d -> d < 0 ->
          predict params row = None
          \/ logistic_loss [ row ] [ 1 ] (1 / 100) params = None).
Proof.
  destruct negative_gap_row_scored as (Hlen & Hnth & Hneg & Hpred & Hloss).
  split.
  - split; [exact Hlen |]. split; [exact Hnth |]. split; [exact Hneg |].
    split.
    + eexists. exact Hpred.
    + destruct (logistic_loss [ negative_gap_row ] [ 1 ] (1 / 100)
                  initial_params) as [loss |].
      * exists loss. reflexivity.
      * exfalso. apply Hloss. reflexivity.
  - intros H.
    destruct (H initial_params negative_gap_row (- 3) eq_refl Hlen Hnth Hneg)
      as [Hp | Hl].
    + rewrite Hpred in Hp. discriminate.
    + apply Hloss. exact Hl.
Qed.

(** C8, amended.  Whatever its inputs, the assembler only emits feature
    vectors of four entries whose age gap and squared age gap are not
    negative.  The code has no validation of feature rows: for every five
    parameters, every row of four entries, whatever the sign of its age
    gap, is given the probability
    [sigmoid (bias + w_sim*sim + w_age*d + w_age2*d2 + w_unc*unc)]; and on
    every [n x 4] feature matrix with [n] labels, rows with a negative age
    gap included, the probabilities and the training loss are computed at
    every five-parameter point. *)
Theorem assembler_age_diff_nonneg (emb1 : list R) (age1 unc1 : R)
    (emb2 : list R) (age2 unc2 : R) (v : list R) :
  feature_vec emb1 age1 unc1 emb2 age2 unc2 = Some v ->
  (exists sim d d2 unc, v = [ sim; d; d2; unc ] /\ 0 <= d /\ 0 <= d2)
  /\ (forall bias w_sim w_age w_age2 w_unc sim d d2 unc : R,
        predict [ bias; w_sim; w_age; w_age2; w_unc ] [ sim; d; d2; unc ]
        = Some (sigmoid (bias + w_sim * sim + w_age * d + w_age2 * d2
                         + w_unc * unc)))
  /\ (forall (features : list (list R)) (labels : list R)
             (regularization : R) (params : list R),
        Forall (fun row => length row = 4%nat) features ->
        length labels = length features ->
        length params = 5%nat ->
        (exists ps, probs params features = Some ps
                    /\ length ps = length features)
        /\ logistic_loss features labels regularization params <> None).
Proof.
  intros Hv. split; [| split].
  - unfold feature_vec in Hv.
    destruct (dot (normalize emb1) (normalize emb2)) as [sim |];
      [| discriminate].
    injection Hv as <-.
    exists sim, (Rabs (age1 - age2)), (Rabs (age1 - age2) ^ 2),
      ((unc1 + unc2) / 2).
    split; [reflexivity |].
    split; [apply Rabs_pos |].
    apply pow_le. apply Rabs_pos.
  - intros. apply LinearFacts.predict_row.
  - intros features labels regularization params Hrows Hlabels Hparams.
    split.
    + apply probs_defined; assumption.
    + apply LinearFacts.logistic_loss_defined; assumption.
Qed.

Lemma assembler_age_diff_nonneg_witness :
  (exists sim d d2 unc,
      [ 3 / sqrt (np_sum [ 3 * 3; 4 * 4 ]) * (4 / sqrt (np_sum [ 4 * 4; 3 * 3 ]))
        + (4 / sqrt (np_sum [ 3 * 3; 4 * 4 ])
             * (3 / sqrt (np_sum [ 4 * 4; 3 * 3 ])) + 0);
        Rabs (30 - 42); Rabs (30 - 42) ^ 2; (2 + 4) / 2 ]
      = [ sim; d; d2; unc ] /\ 0 <= d /\ 0 <= d2)
  /\ (forall bias w_sim w_age w_age2 w_unc sim d d2 unc : R,
        predict [ bias; w_sim; w_age; w_age2; w_unc ] [ sim; d; d2; unc ]
        = Some (sigmoid (bias + w_sim * sim + w_age * d + w_age2 * d2
                         + w_unc * unc)))
  /\ (forall (features : list (list R)) (labels : list R)
             (regularization : R) (params : list R),
        Forall (fun row => length row = 4%nat) features ->
        length labels = length features ->
        length params = 5%nat ->
        (exists ps, probs params features = Some ps
                    /\ length ps = length features)
        /\ logistic_loss features labels regularization params <> None).
Proof.
  apply (assembler_age_diff_nonneg [ 3; 4 ] 30 2 [ 4; 3 ] 42 4).
  reflexivity.
Defined.

End AssemblerFacts.

(* ================================================================== *)
(** * Theorems: the evaluation metrics *)
(* ================================================================== *)

Module MetricsFacts.
Import Penalty Metrics.
Local Open Scope Q_scope.

(** ** Counting *)

Lemma count_true_map {A : Type} (f : A -> bool) (l : list A) :
  count_true (map f l) = Z.of_nat (length (filter f l)).
Proof.
  unfold count_true. f_equal.
  induction l as [| a l IH]; simpl; [reflexivity |].
  destruct (f a); simpl; rewrite IH; reflexivity.
Qed.

Lemma positives_range (scores : list Q) (t : Q) :
  (0 <= positives scores t <= size scores)%Z.
Proof.
  unfold positives, size. split; [lia |].
  apply inj_le. apply filter_length_le.
Qed.

Lemma ratio_or_zero_spec (a b : Z) :
  (0 <= b)%Z -> ratio_or_zero a b == inject_Z a / inject_Z b.
Proof.
  intros Hb. unfold ratio_or_zero.
  destruct (0 <? b)%Z eqn:Hpos; [reflexivity |].
  apply Z.ltb_ge in Hpos. assert (b = 0%Z) as -> by lia.
  unfold Qdiv, Qeq. simpl. lia.
Qed.

Lemma fpr_of_spec (diff : list Q) (t : Q) : fpr_of diff t == FPR diff t.
Proof.
  unfold fpr_of, FPR, ge_threshold. cbv zeta.
  rewrite count_true_map. rewrite ratio_or_zero_spec by lia.
  reflexivity.
Qed.

Lemma tar_of_spec (same : list Q) (t : Q) : tar_of same t == TPR same t.
Proof.
  unfold tar_of, TPR, ge_threshold. cbv zeta.
  rewrite count_true_map. rewrite ratio_or_zero_spec by lia.
  reflexivity.
Qed.

(** The confusion counts of [rates_at], by label. *)
Lemma labelled_counts_nat (y : Z) (t : Q) (probs : list Q) (labels : list Z) :
  length (filter (fun b : bool => b)
            (map (fun '(p, l) => p && (l =? y)%Z)
                 (combine (ge_threshold t probs) labels)))
  = length (filter (fun s => Qle_bool t s)
              (scores_with_label y probs labels))
  /\ (length (filter (fun b : bool => b)
                (map (fun '(p, l) => negb p && (l =? y)%Z)
                     (combine (ge_threshold t probs) labels)))
      + length (filter (fun s => Qle_bool t s)
                  (scores_with_label y probs labels))
      = length (scores_with_label y probs labels))%nat.
Proof.
  unfold scores_with_label, ge_threshold.
  revert labels. induction probs as [| p probs IH]; intros [| l labels];
    simpl; try (split; reflexivity).
  destruct (IH labels) as [IH1 IH2].
  destruct (Qle_bool t p) eqn:Hp; destruct (l =? y)%Z eqn:Hl; simpl;
    try rewrite Hp; simpl; split; lia.
Qed.

Lemma labelled_counts (y : Z) (t : Q) (probs : list Q) (labels : list Z) :
  count_true (map (fun '(p, l) => p && (l =? y)%Z)
                  (combine (ge_threshold t probs) labels))
  = positives (scores_with_label y probs labels) t
  /\ count_true (map (fun '(p, l) => negb p && (l =? y)%Z)
                     (combine (ge_threshold t probs) labels))
     = (size (scores_with_label y probs labels)
        - positives (scores_with_label y probs labels) t)%Z.
Proof.
  destruct (labelled_counts_nat y t probs labels) as [H1 H2].
  unfold count_true, positives, size. split; lia.
Qed.

Lemma rates_at_spec (probs : list Q) (labels : list Z) (t : Q) :
  fst (rates_at probs labels t) == TPR (scores_with_label 1 probs labels) t
  /\ snd (rates_at probs labels t) == FPR (scores_with_label 0 probs labels) t.
Proof.
  unfold rates_at. cbv zeta. simpl fst. simpl snd.
  destruct (labelled_counts 1 t probs labels) as [Htp Hfn].
  destruct (labelled_counts 0 t probs labels) as [Hfp Htn].
  rewrite Htp, Hfn, Hfp, Htn.
  pose proof (positives_range (scores_with_label 1 probs labels) t).
  pose proof (positives_range (scores_with_label 0 probs labels) t).
  split; rewrite ratio_or_zero_spec by lia; unfold TPR, FPR;
    match goal with
    | |- _ / inject_Z ?a == _ / inject_Z ?b =>
        replace a with b by lia; reflexivity
    end.
Qed.

(** ** Scans with [break] *)

Lemma find_first_in (grid : list Q) (pb : Q -> bool) (P : Q -> Prop) (t : Q) :
  (forall u, pb u = true <-> P u) ->
  first_in grid P t -> find pb grid = Some t.
Proof.
  intros Hreflect (before & after & -> & Ht & Hbefore).
  induction before as [| b before IH]; simpl.
  - apply Hreflect in Ht. rewrite Ht. reflexivity.
  - destruct (pb b) eqn:Hb.
    + exfalso. apply (Hbefore b); [left; reflexivity |].
      apply Hreflect. exact Hb.
    + apply IH. intros u Hu. apply Hbefore. right. exact Hu.
Qed.

Lemma find_none_in (grid : list Q) (pb : Q -> bool) (P : Q -> Prop) :
  (forall u, pb u = true <-> P u) ->
  (forall u, In u grid -> ~ P u) -> find pb grid = None.
Proof.
  intros Hreflect Hnone.
  induction grid as [| b grid IH]; simpl; [reflexivity |].
  destruct (pb b) eqn:Hb.
  - exfalso. apply (Hnone b); [left; reflexivity |].
    apply Hreflect. exact Hb.
  - apply IH. intros u Hu. apply Hnone. right. exact Hu.
Qed.

(** The scan of [evaluate_calibrator] over the two rate arrays is a scan
    over the thresholds. *)
Lemma first_tpr_below_find (target : Q) (r : Q -> Q * Q) (grid : list Q) :
  first_tpr_below target (map snd (map r grid)) (map fst (map r grid))
  = match find (fun t => Qle_bool (snd (r t)) target) grid with
    | Some t => fst (r t)
    | None => 0
    end.
Proof.
  unfold first_tpr_below.
  induction grid as [| t grid IH]; simpl; [reflexivity |].
  destruct (Qle_bool (snd (r t)) target); [reflexivity | exact IH].
Qed.

(** ** The order of the grids *)

Lemma linear_thresholds_ascending :
  increasing linear_thresholds = true
  /\ hd 0 linear_thresholds == 0 /\ last linear_thresholds 0 == 1.
Proof. vm_compute. repeat split; reflexivity. Qed.

Lemma tar_thresholds_descending :
  increasing (rev tar_thresholds) = true
  /\ hd 0 tar_thresholds == 1 /\ last tar_thresholds 0 == 0.
Proof. vm_compute. repeat split; reflexivity. Qed.

(** ** TAR at FAR *)

Lemma penalty_tar_first (same diff : list Q) (t : Q) :
  first_in tar_thresholds (fun u => target_fpr <= FPR diff u) t ->
  tar_scan target_fpr tar_thresholds same diff == TPR same t.
Proof.
  intros Hfirst. unfold tar_scan.
  rewrite (find_first_in tar_thresholds _
             (fun u => target_fpr <= FPR diff u) t).
  - apply tar_of_spec.
  - intros u. rewrite Qle_bool_iff. rewrite fpr_of_spec. reflexivity.
  - exact Hfirst.
Qed.

Lemma penalty_tar_none (same diff : list Q) :
  (forall t, In t tar_thresholds -> ~ target_fpr <= FPR diff t) ->
  tar_scan target_fpr tar_thresholds same diff == 0.
Proof.
  intros Hnone. unfold tar_scan.
  rewrite (find_none_in tar_thresholds _
             (fun u => target_fpr <= FPR diff u)).
  - reflexivity.
  - intros u. rewrite Qle_bool_iff. rewrite fpr_of_spec. reflexivity.
  - exact Hnone.
Qed.

Lemma linear_tar_find (probs : list Q) (labels : list Z) :
  tar_at_far (evaluate_calibrator probs labels)
  = match find (fun t => Qle_bool (snd (rates_at probs labels t)) far_target)
               linear_thresholds with
    | Some t => fst (rates_at probs labels t)
    | None => 0
    end.
Proof.
  unfold evaluate_calibrator, evaluate_calibrator_on. cbv zeta.
  cbn [tar_at_far]. apply first_tpr_below_find.
Qed.

Lemma linear_tar_first (probs : list Q) (labels : list Z) (t : Q) :
  first_in linear_thresholds
    (fun u => FPR (scores_with_label 0 probs labels) u <= far_target) t ->
  tar_at_far (evaluate_calibrator probs labels)
  == TPR (scores_with_label 1 probs labels) t.
Proof.
  intros Hfirst. rewrite linear_tar_find.
  rewrite (find_first_in linear_thresholds _
             (fun u => FPR (scores_with_label 0 probs labels) u
                       <= far_target) t).
  - apply rates_at_spec.
  - intros u. rewrite Qle_bool_iff.
    destruct (rates_at_spec probs labels u) as [_ Hfpr].
    rewrite Hfpr. reflexivity.
  - exact Hfirst.
Qed.

Lemma linear_tar_none (probs : list Q) (labels : list Z) :
  (forall t, In t linear_thresholds ->
     ~ FPR (scores_with_label 0 probs labels) t <= far_target) ->
  tar_at_far (evaluate_calibrator probs labels) == 0.
Proof.
  intros Hnone. rewrite linear_tar_find.
  rewrite (find_none_in linear_thresholds _
             (fun u => FPR (scores_with_label 0 probs labels) u
                       <= far_target)).
  - reflexivity.
  - intros u. rewrite Qle_bool_iff.
    destruct (rates_at_spec probs labels u) as [_ Hfpr].
    rewrite Hfpr. reflexivity.
  - exact Hnone.
Qed.

(** The executable wording of the specification agrees with [first_in]. *)
Lemma tar_at_far_spec_find (target : Q) (scan same diff : list Q) :
  tar_at_far_spec target scan same diff
  = match find (fun t => Qle_bool target (FPR diff t)) scan with
    | Some t => TPR same t
    | None => 0
    end.
Proof.
  induction scan as [| t scan IH]; simpl; [reflexivity |].
  destruct (Qle_bool target (FPR diff t)); [reflexivity | exact IH].
Qed.

(** C6, as claimed, fails for [evaluate_calibrator]: on the same-person
    score 0.3001 and the different-person score 0.3, the scan from the
    highest threshold down to the first one with [FPR >= 1e-3] reports the
    TPR 1, while the code reports 0. *)
Lemma linear_tar_is_not_the_descending_scan :
  tar_at_far_spec far_target (rev linear_thresholds)
    (scores_with_label 1 close_probs close_labels)
    (scores_with_label 0 close_probs close_labels) == 1
  /\ tar_at_far (evaluate_calibrator close_probs close_labels) == 0
  /\ ~ tar_at_far (evaluate_calibrator close_probs close_labels)
       == tar_at_far_spec far_target (rev linear_thresholds)
            (scores_with_label 1 close_probs close_labels)
            (scores_with_label 0 close_probs close_labels).
Proof.
  split; [vm_compute; reflexivity |].
  split; [vm_compute; reflexivity |].
  vm_compute. discriminate.
Qed.

(** C6, amended.  [evaluate_calibration] of the penalty script scans the
    10000 thresholds from 1 down to 0 and reports the TPR at the first one
    whose FPR is at least 1e-3, and 0 when there is none.
    [evaluate_calibrator] of the linear script scans its 1000 thresholds
    from 0 up to 1 and reports the TPR at the first one whose FPR is at
    most 1e-3, and 0 when there is none.  The target is the constant 1e-3
    in both. *)
Theorem tar_at_far_scans :
  (forall alpha tau M same_pairs diff_pairs,
      let same := calibrated_scores alpha tau M same_pairs in
      let diff := calibrated_scores alpha tau M diff_pairs in
      let reported :=
        tar (evaluate_calibration_locals (alpha, tau, M)
               same_pairs diff_pairs) in
      increasing (rev tar_thresholds) = true
      /\ target_fpr == 1 # 1000
      /\ (forall t,
            first_in tar_thresholds (fun u => target_fpr <= FPR diff u) t ->
            reported == TPR same t)
      /\ ((forall t, In t tar_thresholds -> ~ target_fpr <= FPR diff t) ->
          reported == 0))
  /\ (forall probs labels,
        let same := scores_with_label 1 probs labels in
        let diff := scores_with_label 0 probs labels in
        let reported := tar_at_far (evaluate_calibrator probs labels) in
        increasing linear_thresholds = true
        /\ far_target == 1 # 1000
        /\ (forall t,
              first_in linear_thresholds (fun u => FPR diff u <= far_target) t ->
              reported == TPR same t)
        /\ ((forall t, In t linear_thresholds -> ~ FPR diff t <= far_target) ->
            reported == 0)).
Proof.
  split.
  - intros alpha tau M same_pairs diff_pairs same diff reported.
    split; [apply tar_thresholds_descending |].
    split; [reflexivity |].
    split.
    + intros t Ht. subst reported. cbn [evaluate_calibration_locals tar].
      apply penalty_tar_first. exact Ht.
    + intros Hnone. subst reported. cbn [evaluate_calibration_locals tar].
      apply penalty_tar_none. exact Hnone.
  - intros probs labels same diff reported.
    split; [apply linear_thresholds_ascending |].
    split; [reflexivity |].
    split.
    + intros t Ht. apply linear_tar_first. exact Ht.
    + intros Hnone. apply linear_tar_none. exact Hnone.
Qed.

(** ** AUC *)

Lemma positives_antitone (scores : list Q) (a b : Q) :
  a <= b -> (positives scores b <= positives scores a)%Z.
Proof.
  intros Hab. unfold positives. apply inj_le.
  induction scores as [| s scores IH]; simpl; [lia |].
  destruct (Qle_bool b s) eqn:Hb.
  - assert (Ha : Qle_bool a s = true).
    { apply Qle_bool_iff. apply Qle_bool_iff in Hb.
      apply Qle_trans with b; assumption. }
    rewrite Ha. simpl. lia.
  - destruct (Qle_bool a s); simpl; lia.
Qed.

Lemma size_nonneg (scores : list Q) : (0 <= size scores)%Z.
Proof. unfold size. lia. Qed.

Lemma Qdiv_size_mono (a b n : Z) :
  (a <= b)%Z -> (0 <= n)%Z -> inject_Z a / inject_Z n <= inject_Z b / inject_Z n.
Proof.
  intros Hab Hn. unfold Qdiv. apply Qmult_le_compat_r.
  - rewrite <- Zle_Qle. exact Hab.
  - apply Qinv_le_0_compat. replace 0 with (inject_Z 0) by reflexivity.
    rewrite <- Zle_Qle. exact Hn.
Qed.

Lemma FPR_antitone (diff : list Q) (a b : Q) :
  a <= b -> FPR diff b <= FPR diff a.
Proof.
  intros Hab. unfold FPR. apply Qdiv_size_mono.
  - apply positives_antitone. exact Hab.
  - apply size_nonneg.
Qed.

Lemma TPR_range (same : list Q) (t : Q) : 0 <= TPR same t <= 1.
Proof.
  unfold TPR. pose proof (positives_range same t) as [Hlo Hhi].
  pose proof (size_nonneg same) as Hn. split.
  - setoid_replace 0 with (inject_Z 0 / inject_Z (size same)).
    + apply Qdiv_size_mono; assumption.
    + unfold Qdiv. ring.
  - destruct (Z.eq_dec (size same) 0) as [Hz | Hnz].
    + rewrite Hz. unfold Qdiv, Qle. simpl. lia.
    + apply Qle_trans with (inject_Z (size same) / inject_Z (size same)).
      * apply Qdiv_size_mono; assumption.
      * unfold Qdiv. rewrite Qmult_inv_r; [apply Qle_refl |].
        intros H. apply Hnz.
        apply (proj1 (inject_Z_injective (size same) 0)). exact H.
Qed.

Lemma FPR_range (diff : list Q) (t : Q) : 0 <= FPR diff t <= 1.
Proof. exact (TPR_range diff t). Qed.

(** Over increasing thresholds the trapezoids have non-positive width. *)
Lemma trapz_nonpos (r : Q -> Q * Q) (grid : list Q) :
  (forall t, 0 <= fst (r t)) ->
  (forall a b, a <= b -> snd (r b) <= snd (r a)) ->
  increasing grid = true ->
  trapz (map fst (map r grid)) (map snd (map r grid)) <= 0.
Proof.
  intros Hy Hx.
  induction grid as [| a grid IH]; [intros _; apply Qle_refl |].
  destruct grid as [| b grid]; [intros _; apply Qle_refl |].
  intros Hinc. cbn [increasing] in Hinc.
  apply andb_true_iff in Hinc. destruct Hinc as [Hab Hinc].
  specialize (IH Hinc).
  assert (Hle : a <= b).
  { apply negb_true_iff in Hab. apply Qlt_le_weak. apply Qnot_le_lt.
    intros H. apply Qle_bool_iff in H. congruence. }
  change (trapz (map fst (map r (a :: b :: grid)))
                (map snd (map r (a :: b :: grid))))
    with ((snd (r b) - snd (r a)) * (fst (r b) + fst (r a)) / 2
          + trapz (map fst (map r (b :: grid)))
                  (map snd (map r (b :: grid)))).
  pose proof (Hx a b Hle) as Hw.
  pose proof (Hy a) as Hya. pose proof (Hy b) as Hyb.
  assert (Hterm : (snd (r b) - snd (r a)) * (fst (r b) + fst (r a)) / 2 <= 0).
  { assert (H0 : 0 <= (snd (r a) - snd (r b)) * (fst (r b) + fst (r a)))
      by (apply Qmult_le_0_compat; lra).
    setoid_replace ((snd (r b) - snd (r a)) * (fst (r b) + fst (r a)) / 2)
      with (- ((snd (r a) - snd (r b)) * (fst (r b) + fst (r a))) * (1 # 2))
      by (unfold Qdiv; change (/ 2) with (1 # 2); ring).
    lra. }
  lra.
Qed.

(** Whatever the scores and labels, the reported AUC is not positive: the
    FPR falls as the threshold rises, and [np.trapz] integrates along the
    thresholds, not along the FPR. *)
Lemma auc_never_positive (probs : list Q) (labels : list Z) :
  auc (evaluate_calibrator probs labels) <= 0.
Proof.
  unfold evaluate_calibrator, evaluate_calibrator_on. cbv zeta. cbn [auc].
  apply trapz_nonpos.
  - intros t. destruct (rates_at_spec probs labels t) as [Htpr _].
    rewrite Htpr. apply TPR_range.
  - intros a b Hab.
    destruct (rates_at_spec probs labels a) as [_ Ha].
    destruct (rates_at_spec probs labels b) as [_ Hb].
    rewrite Ha, Hb. apply FPR_antitone. exact Hab.
  - apply linear_thresholds_ascending.
Qed.

(** C4 on one same-person score 0.9 and one different-person score 0.2, a
    perfect separator: the FPR array starts at 1 and ends at 0, and the
    trapezoidal rule over it gives the AUC -1, not 1. *)
Theorem auc_of_separated_pair :
  perfect_separator
    (scores_with_label 1 separated_probs separated_labels)
    (scores_with_label 0 separated_probs separated_labels)
  /\ hd 0 (fpr_list (evaluate_calibrator separated_probs separated_labels)) == 1
  /\ last (fpr_list (evaluate_calibrator separated_probs separated_labels)) 1
     == 0
  /\ auc (evaluate_calibrator separated_probs separated_labels) == - (1)
  /\ ~ auc (evaluate_calibrator separated_probs separated_labels) == 1.
Proof.
  split.
  - intros s d Hs Hd. simpl in Hs, Hd.
    destruct Hs as [<- | []]. destruct Hd as [<- | []].
    reflexivity.
  - split; [vm_compute; reflexivity |].
    split; [vm_compute; reflexivity |].
    split; [vm_compute; reflexivity |].
    vm_compute. discriminate.
Qed.

(** ** EER *)

Lemma argmin_from_spec (l : list Q) :
  forall (best_i : nat) (best : Q) (i : nat),
    (argmin_from best_i best i l = best_i
     /\ forall y, In y l -> best <= y)
    \/ (exists j x,
          argmin_from best_i best i l = (i + j)%nat
          /\ nth_error l j = Some x
          /\ x <= best
          /\ forall y, In y l -> x <= y).
Proof.
  induction l as [| x l IH]; intros best_i best i; simpl.
  - left. split; [reflexivity | intros y []].
  - destruct (Qle_bool best x) eqn:Hbx.
    + apply Qle_bool_iff in Hbx.
      destruct (IH best_i best (S i)) as [[Hk Hmin] | (j & x' & Hk & Hj & Hle & Hmin)].
      * left. split; [exact Hk |].
        intros y [<- | Hy]; [exact Hbx | apply Hmin; exact Hy].
      * right. exists (S j), x'. repeat split.
        -- rewrite Hk. lia.
        -- exact Hj.
        -- exact Hle.
        -- intros y [<- | Hy]; [| apply Hmin; exact Hy].
           apply Qle_trans with best; assumption.
    + assert (Hxb : x <= best).
      { apply Qlt_le_weak. apply Qnot_le_lt. intros H.
        apply Qle_bool_iff in H. congruence. }
      destruct (IH i x (S i)) as [[Hk Hmin] | (j & x' & Hk & Hj & Hle & Hmin)].
      * right. exists 0%nat, x. repeat split.
        -- rewrite Hk. lia.
        -- exact Hxb.
        -- intros y [<- | Hy]; [apply Qle_refl | apply Hmin; exact Hy].
      * right. exists (S j), x'. repeat split.
        -- rewrite Hk. lia.
        -- exact Hj.
        -- apply Qle_trans with x; assumption.
        -- intros y [<- | Hy]; [exact Hle | apply Hmin; exact Hy].
Qed.

Lemma argmin_spec (l : list Q) :
  l <> [] ->
  exists v, nth_error l (argmin l) = Some v /\ forall y, In y l -> v <= y.
Proof.
  destruct l as [| x l]; [congruence | intros _]. unfold argmin.
  destruct (argmin_from_spec l 0%nat x 1%nat)
    as [[Hk Hmin] | (j & x' & Hk & Hj & Hle & Hmin)]; rewrite Hk.
  - exists x. split; [reflexivity |].
    intros y [<- | Hy]; [apply Qle_refl | apply Hmin; exact Hy].
  - exists x'. split; [exact Hj |].
    intros y [<- | Hy]; [exact Hle | apply Hmin; exact Hy].
Qed.

Lemma FNR_complement (same : list Q) (t : Q) :
  same <> [] -> FNR same t == 1 - TPR same t.
Proof.
  intros Hne. unfold FNR, TPR.
  assert (Hnz : ~ inject_Z (size same) == 0).
  { intros H. apply (proj1 (inject_Z_injective (size same) 0)) in H.
    destruct same; [congruence | unfold size in H; simpl in H; lia]. }
  unfold Z.sub. rewrite inject_Z_plus, inject_Z_opp. field. exact Hnz.
Qed.

Lemma gap_spec (probs : list Q) (labels : list Z) (t : Q) :
  scores_with_label 1 probs labels <> [] ->
  (let '(tpr, fpr) := rates_at probs labels t in Qabs (tpr - (1 - fpr)))
  == Qabs (FPR (scores_with_label 0 probs labels) t
           - FNR (scores_with_label 1 probs labels) t).
Proof.
  intros Hne. destruct (rates_at_spec probs labels t) as [Htpr Hfpr].
  destruct (rates_at probs labels t) as [tpr fpr]. simpl in Htpr, Hfpr.
  rewrite (FNR_complement _ t Hne), <- Htpr, <- Hfpr.
  apply Qabs_wd. ring.
Qed.

(** The linear script reports the EER the specification describes: on any
    non-empty grid, [(FPR + FNR) / 2] at a grid threshold where
    [|FPR - FNR|] is least, a number between 0 and 1. *)
Lemma linear_eer_on_grid (grid : list Q) (probs : list Q) (labels : list Z) :
  grid <> [] ->
  scores_with_label 1 probs labels <> [] ->
  exists t,
    nth_error grid (eer_idx (evaluate_calibrator_on grid probs labels)) = Some t
    /\ minimizes_gap grid (scores_with_label 1 probs labels)
         (scores_with_label 0 probs labels) t
    /\ eer (evaluate_calibrator_on grid probs labels)
       == (FPR (scores_with_label 0 probs labels) t
           + FNR (scores_with_label 1 probs labels) t) / 2
    /\ 0 <= eer (evaluate_calibrator_on grid probs labels) <= 1.
Proof.
  intros Hgrid Hne.
  unfold evaluate_calibrator_on. cbv zeta. cbn [eer_idx eer].
  set (r := rates_at probs labels).
  set (g := fun '(tpr, fpr) => Qabs (tpr - (1 - fpr))).
  destruct (argmin_spec (map g (map r grid))) as (v & Hidx & Hmin).
  { destruct grid; [congruence | discriminate]. }
  set (idx := argmin (map g (map r grid))) in *.
  rewrite !nth_error_map in Hidx.
  destruct (nth_error grid idx) as [t |] eqn:Ht; [| discriminate].
  cbn [option_map] in Hidx.
  assert (Hv : g (r t) = v) by congruence.
  exists t. split; [reflexivity |].
  assert (Hfpr : nth idx (map snd (map r grid)) 0 = snd (r t)).
  { apply nth_error_nth. rewrite !nth_error_map, Ht. reflexivity. }
  assert (Htpr : nth idx (map fst (map r grid)) 0 = fst (r t)).
  { apply nth_error_nth. rewrite !nth_error_map, Ht. reflexivity. }
  rewrite Hfpr, Htpr.
  destruct (rates_at_spec probs labels t) as [Ht1 Ht2]. fold r in Ht1, Ht2.
  assert (Heer : (snd (r t) + (1 - fst (r t))) / 2
                 == (FPR (scores_with_label 0 probs labels) t
                     + FNR (scores_with_label 1 probs labels) t) / 2).
  { rewrite (FNR_complement _ t Hne), Ht1, Ht2. reflexivity. }
  split; [| split].
  - split; [eapply nth_error_In; exact Ht |].
    intros t' Ht'.
    assert (Hg : forall u,
               g (r u)
               == Qabs (FPR (scores_with_label 0 probs labels) u
                        - FNR (scores_with_label 1 probs labels) u))
      by (intros u; apply gap_spec; exact Hne).
    rewrite <- (Hg t), <- (Hg t'), Hv.
    apply Hmin. apply in_map. apply in_map. exact Ht'.
  - exact Heer.
  - rewrite Heer. rewrite (FNR_complement _ t Hne).
    pose proof (TPR_range (scores_with_label 1 probs labels) t) as [H1 H2].
    pose proof (FPR_range (scores_with_label 0 probs labels) t) as [H3 H4].
    split.
    + apply Qle_shift_div_l; [reflexivity | lra].
    + apply Qle_shift_div_r; [reflexivity | lra].
Qed.

(** The EER loop of the penalty script keeps the least value of
    [(FNR + FPR) / 2] it meets. *)
Lemma eer_loop_least (same diff : list Q) (grid : list Q) (best : Q * Q) :
  let final := fold_left (eer_step same diff) grid best in
  fst final <= fst best
  /\ forall t, In t grid -> fst final <= half_total_error same diff t.
Proof.
  revert best. induction grid as [| t grid IH]; intros best; simpl.
  - split; [apply Qle_refl | intros t []].
  - destruct (IH (eer_step same diff best t)) as [Hle Hall].
    assert (Hstep : fst (eer_step same diff best t) <= fst best
                    /\ fst (eer_step same diff best t)
                       <= half_total_error same diff t).
    { unfold eer_step. cbv zeta.
      destruct (Qle_bool (fst best) (half_total_error same diff t)) eqn:Hb;
        simpl.
      - apply Qle_bool_iff in Hb. split; [apply Qle_refl | exact Hb].
      - split; [| apply Qle_refl].
        apply Qlt_le_weak. apply Qnot_le_lt. intros H.
        apply Qle_bool_iff in H. congruence. }
    destruct Hstep as [Hs1 Hs2]. split.
    + apply Qle_trans with (fst (eer_step same diff best t)); assumption.
    + intros u [<- | Hu].
      * apply Qle_trans with (fst (eer_step same diff best t)); assumption.
      * apply Hall. exact Hu.
Qed.

Lemma eer_thresholds_length : length eer_thresholds = 1000%nat.
Proof.
  unfold eer_thresholds, linspace. cbv zeta.
  rewrite length_map, length_seq. reflexivity.
Qed.

(** On the example, every threshold of the grid with [FPR = FNR] has
    [(FPR + FNR) / 2 = 1/2]. *)
Lemma overlap_equal_error_points :
  forallb
    (fun t =>
       implb
         (Qle_bool
            (Qabs (FPR (calibrated_scores (5 # 1000) 5 30 overlap_diff) t
                   - FNR (calibrated_scores (5 # 1000) 5 30 overlap_same) t))
            0)
         (Qeq_bool
            ((FPR (calibrated_scores (5 # 1000) 5 30 overlap_diff) t
              + FNR (calibrated_scores (5 # 1000) 5 30 overlap_same) t) / 2)
            (1 # 2)))
    eer_thresholds
  = true.
Proof. vm_compute. reflexivity. Qed.

(** C5 on two same-person scores 0.8 and 0.5 and two different-person
    scores 0.6 and 0.2, at the initial guess of the fit:
    [evaluate_calibration] returns 1/4, the least [(FNR + FPR) / 2] of the
    grid, reached where [FPR = 1/2] and [FNR = 0]; every threshold of the
    grid at which [|FPR - FNR|] is least has [(FPR + FNR) / 2 = 1/2], the
    value that [evaluate_calibrator] reports on the same scores. *)
Theorem penalty_eer_is_not_at_the_equal_error_point :
  let same := calibrated_scores (5 # 1000) 5 30 overlap_same in
  let diff := calibrated_scores (5 # 1000) 5 30 overlap_diff in
  let locals := evaluate_calibration_locals initial_guess
                  overlap_same overlap_diff in
  evaluate_calibration initial_guess overlap_same overlap_diff == 1 # 4
  /\ FPR diff (best_threshold locals) == 1 # 2
  /\ FNR same (best_threshold locals) == 0
  /\ (exists t, minimizes_gap eer_thresholds same diff t)
  /\ (forall t, minimizes_gap eer_thresholds same diff t ->
        (FPR diff t + FNR same t) / 2 == 1 # 2)
  /\ eer (evaluate_calibrator (same ++ diff) [ 1; 1; 0; 0 ]%Z) == 1 # 2.
Proof.
  intros same diff locals.
  assert (Hzero : Qabs (FPR diff (nth 550 eer_thresholds 0)
                        - FNR same (nth 550 eer_thresholds 0)) == 0)
    by (vm_compute; reflexivity).
  assert (Hin : In (nth 550 eer_thresholds 0) eer_thresholds).
  { apply nth_In. rewrite eer_thresholds_length. lia. }
  split; [vm_compute; reflexivity |].
  split; [vm_compute; reflexivity |].
  split; [vm_compute; reflexivity |].
  split; [| split].
  - exists (nth 550 eer_thresholds 0). split; [exact Hin |].
    intros t' _. rewrite Hzero. apply Qabs_nonneg.
  - intros t [Ht Hmin].
    pose proof (Hmin _ Hin) as Hgap. rewrite Hzero in Hgap.
    pose proof overlap_equal_error_points as Hall.
    rewrite forallb_forall in Hall. specialize (Hall t Ht).
    fold same diff in Hall.
    apply Qle_bool_iff in Hgap. rewrite Hgap in Hall. simpl in Hall.
    apply Qeq_bool_iff in Hall. exact Hall.
  - vm_compute. reflexivity.
Qed.

(** With at least one same-person pair, the EER that
    [evaluate_calibrator] reports is [(FPR + FNR) / 2] at a threshold of
    its grid of 1000 thresholds where [|FPR - FNR|] is least, and it lies
    between 0 and 1. *)
Lemma linear_eer_at_minimal_gap (probs : list Q) (labels : list Z) :
  scores_with_label 1 probs labels <> [] ->
  exists t,
    nth_error linear_thresholds (eer_idx (evaluate_calibrator probs labels))
    = Some t
    /\ minimizes_gap linear_thresholds (scores_with_label 1 probs labels)
         (scores_with_label 0 probs labels) t
    /\ eer (evaluate_calibrator probs labels)
       == (FPR (scores_with_label 0 probs labels) t
           + FNR (scores_with_label 1 probs labels) t) / 2
    /\ 0 <= eer (evaluate_calibrator probs labels) <= 1.
Proof.
  intros Hne. apply linear_eer_on_grid; [| exact Hne].
  intros H. pose proof eer_thresholds_length as Hlen.
  unfold eer_thresholds in Hlen. unfold linear_thresholds in H.
  rewrite H in Hlen. discriminate.
Qed.

End MetricsFacts.

(* ================================================================== *)
(** * Theorems: the extraction loops *)
(* ================================================================== *)

Module LoopsFacts.
Import Loops.
Local Open Scope Z_scope.

Section Utkface.

Variables (Image Embedding : Type).
Variable listdir : string -> option (list string).
Variable imread : string -> option Image.
Variable run_model : Image -> option Embedding.
Variable py_int : string -> option Z.

Abbreviation process_file :=
  (process_file Image Embedding imread run_model py_int).
Abbreviation file_step :=
  (file_step Image Embedding imread run_model py_int).
Abbreviation is_discarded :=
  (is_discarded Image Embedding imread run_model py_int).
Abbreviation directory_loop :=
  (directory_loop Image Embedding listdir imread run_model py_int).
Abbreviation visited :=
  (visited Image Embedding listdir imread run_model py_int).


(** A kept sample has a parsed age of at most 100. *)
Lemma process_file_age (dir filename : string) (e : Embedding) (age : Z) :
  process_file dir filename = Some (e, age) -> age <= 100.
Proof.
  unfold Loops.process_file. cbv zeta.
  destruct (_ <? 4); [discriminate |].
  destruct (py_int _) as [a |]; [| discriminate].
  destruct (a >? 100) eqn:Hgt; [discriminate |].
  destruct (imread _) as [img |]; [| discriminate].
  destruct (run_model img); [| discriminate].
  intros H. injection H as _ <-.
  rewrite Z.gtb_ltb in Hgt. apply Z.ltb_ge in Hgt. exact Hgt.
Qed.

Lemma file_loop_invariant (dir : string) (files : list string) :
  forall st : State Embedding,
    aligned Embedding st ->
    aligned Embedding (fold_left (file_step dir) files st)
    /\ (length (fst (fold_left (file_step dir) files st))
        + length (filter is_discarded (map (pair dir) files))
        = length (fst st) + length files)%nat.
Proof.
  induction files as [| f files IH]; intros st Hst; simpl.
  - split; [exact Hst | lia].
  - assert (Hstep : aligned Embedding (file_step dir st f)
                    /\ (length (fst (file_step dir st f))
                        + (if is_discarded (dir, f) then 1 else 0)
                        = length (fst st) + 1)%nat).
    { unfold Loops.file_step, Loops.is_discarded.
      simpl fst. simpl snd.
      destruct (process_file dir f) as [[e age] |] eqn:Hp.
      - destruct Hst as [Hlen Hages]. split.
        + split; simpl.
          * rewrite !length_app, Hlen. reflexivity.
          * apply Forall_app. split; [exact Hages |].
            constructor; [| constructor].
            eapply process_file_age. exact Hp.
        + simpl. rewrite length_app. simpl. lia.
      - split; [exact Hst | lia]. }
    destruct Hstep as [Hal Hcount].
    destruct (IH _ Hal) as [Hal' Hcount'].
    split; [exact Hal' |].
    destruct (is_discarded (dir, f)); simpl; lia.
Qed.



End Utkface.

Section Pairs.

Variable Image : Type.
Variable imread : string -> option Image.
Variable get_embedding_and_age : Image -> option (list R * R * R).


End Pairs.






End LoopsFacts.

(* ================================================================== *)
(** * Further theorems: the evaluation of the penalty model *)
(* ================================================================== *)

Module PenaltyEvaluationFacts.
Import Penalty Metrics Examples MetricsFacts.
Local Open Scope Q_scope.

Lemma filter_complement_length {A : Type} (f : A -> bool) (l : list A) :
  (length (filter f l) + length (filter (fun x => negb (f x)) l)
   = length l)%nat.
Proof.
  induction l as [| a l IH]; simpl; [reflexivity |].
  destruct (f a); simpl; lia.
Qed.

Lemma count_true_lt (t : Q) (scores : list Q) :
  count_true (lt_threshold t scores)
  = (size scores - positives scores t)%Z.
Proof.
  unfold lt_threshold, size, positives. rewrite count_true_map.
  pose proof (filter_complement_length (fun s => Qle_bool t s) scores).
  lia.
Qed.

Lemma fraction_range (a n : Z) :
  (0 <= a <= n)%Z -> 0 <= inject_Z a / inject_Z n <= 1.
Proof.
  intros [Ha Han]. assert (Hn : (0 <= n)%Z) by lia. split.
  - setoid_replace 0 with (inject_Z 0 / inject_Z n)
      by (unfold Qdiv; ring).
    apply Qdiv_size_mono; assumption.
  - destruct (Z.eq_dec n 0) as [-> | Hnz].
    + unfold Qdiv, Qle. simpl. lia.
    + apply Qle_trans with (inject_Z n / inject_Z n).
      * apply Qdiv_size_mono; assumption.
      * unfold Qdiv. rewrite Qmult_inv_r; [apply Qle_refl |].
        intros H. apply Hnz.
        apply (proj1 (inject_Z_injective n 0)). exact H.
Qed.

Lemma FNR_range (same : list Q) (t : Q) : 0 <= FNR same t <= 1.
Proof.
  unfold FNR. apply fraction_range.
  pose proof (positives_range same t). lia.
Qed.

(** The quantity the EER loop minimises is the mean of the two error
    rates, also on empty score sets. *)
Lemma half_total_error_spec (same diff : list Q) (t : Q) :
  half_total_error same diff t == (FNR same t + FPR diff t) / 2.
Proof.
  unfold half_total_error. cbv zeta.
  rewrite count_true_lt. unfold ge_threshold. rewrite count_true_map.
  rewrite !ratio_or_zero_spec by lia.
  unfold FNR, FPR, size, positives.
  replace (Z.of_nat (length diff)
           - (Z.of_nat (length diff)
              - Z.of_nat (length (filter (fun s => Qle_bool t s) diff))))%Z
    with (Z.of_nat (length (filter (fun s => Qle_bool t s) diff))) by lia.
  reflexivity.
Qed.

Lemma half_total_error_range (same diff : list Q) (t : Q) :
  0 <= half_total_error same diff t <= 1.
Proof.
  rewrite half_total_error_spec.
  pose proof (FNR_range same t) as [H1 H2].
  pose proof (FPR_range diff t) as [H3 H4].
  split.
  - apply Qle_shift_div_l; [reflexivity | lra].
  - apply Qle_shift_div_r; [reflexivity | lra].
Qed.

Lemma eer_loop_attained (same diff : list Q) (grid : list Q) :
  forall best : Q * Q,
    fold_left (eer_step same diff) grid best = best
    \/ exists t,
         In t grid
         /\ fold_left (eer_step same diff) grid best
            = (half_total_error same diff t, t).
Proof.
  induction grid as [| u grid IH]; intros best; simpl.
  - left. reflexivity.
  - destruct (IH (eer_step same diff best u)) as [Heq | (t & Ht & Heq)].
    + rewrite Heq. unfold eer_step. cbv zeta.
      destruct (negb (Qle_bool (fst best) (half_total_error same diff u))).
      * right. exists u. split; [left; reflexivity | reflexivity].
      * left. reflexivity.
    + right. exists t. split; [right; exact Ht | exact Heq].
Qed.

Lemma eer_thresholds_start :
  exists t0, In t0 eer_thresholds /\ t0 == 0.
Proof.
  exists (nth 0 eer_thresholds 0). split.
  - apply nth_In. rewrite eer_thresholds_length. lia.
  - vm_compute. reflexivity.
Qed.

Lemma best_eer_le_grid (same diff : list Q) (t : Q) :
  In t eer_thresholds ->
  fst (fold_left (eer_step same diff) eer_thresholds (1, 1 # 2))
  <= (FNR same t + FPR diff t) / 2.
Proof.
  intros Ht. rewrite <- half_total_error_spec.
  apply (eer_loop_least same diff eer_thresholds (1, 1 # 2)). exact Ht.
Qed.

Lemma best_eer_attained (same diff : list Q) :
  exists t,
    In t eer_thresholds
    /\ fst (fold_left (eer_step same diff) eer_thresholds (1, 1 # 2))
       == (FNR same t + FPR diff t) / 2.
Proof.
  destruct (eer_loop_attained same diff eer_thresholds (1, 1 # 2))
    as [Heq | (t & Ht & Heq)].
  - destruct eer_thresholds_start as (t0 & Ht0 & _).
    exists t0. split; [exact Ht0 |].
    pose proof (best_eer_le_grid same diff t0 Ht0) as Hle.
    rewrite Heq in *. cbn [fst] in *.
    rewrite <- half_total_error_spec in *.
    pose proof (half_total_error_range same diff t0) as [_ Hhi].
    lra.
  - exists t. split; [exact Ht |].
    rewrite Heq. cbn [fst]. apply half_total_error_spec.
Qed.

Lemma best_eer_nonneg (same diff : list Q) :
  0 <= fst (fold_left (eer_step same diff) eer_thresholds (1, 1 # 2)).
Proof.
  destruct (best_eer_attained same diff) as (t & _ & Heq).
  rewrite Heq, <- half_total_error_spec. apply half_total_error_range.
Qed.

(** What [evaluate_calibration] returns, for every parameter triple and
    every pair of score sets, empty ones included: a number between 0 and
    1, the least mean of FNR and FPR over the 1000 thresholds of the grid,
    reached at one of them. *)
Theorem evaluate_calibration_least (alpha tau M : Q)
    (same_pairs diff_pairs : Pairs) :
  let same := calibrated_scores alpha tau M same_pairs in
  let diff := calibrated_scores alpha tau M diff_pairs in
  let loss := evaluate_calibration (alpha, tau, M) same_pairs diff_pairs in
  0 <= loss <= 1
  /\ (forall t, In t eer_thresholds ->
        loss <= (FNR same t + FPR diff t) / 2)
  /\ (exists t, In t eer_thresholds
                /\ loss == (FNR same t + FPR diff t) / 2).
Proof.
  intros same diff loss.
  unfold evaluate_calibration, evaluate_calibration_locals in loss.
  cbn [best_eer] in loss. fold same diff in loss. subst loss.
  split; [split |]; [| | split].
  - apply best_eer_nonneg.
  - apply (eer_loop_least same diff eer_thresholds (1, 1 # 2)).
  - intros t Ht. apply best_eer_le_grid. exact Ht.
  - apply best_eer_attained.
Qed.

Lemma positives_all (scores : list Q) (t : Q) :
  (forall s, In s scores -> t <= s) -> positives scores t = size scores.
Proof.
  intros Hall. unfold positives, size. f_equal.
  induction scores as [| s scores IH]; simpl; [reflexivity |].
  assert (Hs : Qle_bool t s = true)
    by (apply Qle_bool_iff; apply Hall; left; reflexivity).
  rewrite Hs. simpl. f_equal. apply IH.
  intros u Hu. apply Hall. right. exact Hu.
Qed.

Lemma positives_none (scores : list Q) (t : Q) :
  (forall s, In s scores -> s < t) -> positives scores t = 0%Z.
Proof.
  intros Hall. unfold positives.
  induction scores as [| s scores IH]; simpl; [reflexivity |].
  assert (Hs : Qle_bool t s = false).
  { destruct (Qle_bool t s) eqn:H; [| reflexivity].
    apply Qle_bool_iff in H.
    pose proof (Hall s (or_introl eq_refl)). lra. }
  rewrite Hs. apply IH. intros u Hu. apply Hall. right. exact Hu.
Qed.

Lemma FNR_zero (same : list Q) (t : Q) :
  (forall s, In s same -> t <= s) -> FNR same t == 0.
Proof.
  intros Hall. unfold FNR. rewrite (positives_all same t Hall).
  rewrite Z.sub_diag. unfold Qdiv. ring.
Qed.

Lemma FPR_zero (diff : list Q) (t : Q) :
  (forall s, In s diff -> s < t) -> FPR diff t == 0.
Proof.
  intros Hall. unfold FPR. rewrite (positives_none diff t Hall).
  unfold Qdiv. ring.
Qed.

(** When no same-person pair has a negative calibrated score, the loss
    that [evaluate_calibration] returns is at most 1/2: the threshold 0
    accepts every same-person pair. *)
Theorem evaluate_calibration_at_most_half (alpha tau M : Q)
    (same_pairs diff_pairs : Pairs) :
  (forall s, In s (calibrated_scores alpha tau M same_pairs) -> 0 <= s) ->
  evaluate_calibration (alpha, tau, M) same_pairs diff_pairs <= 1 # 2.
Proof.
  intros Hnonneg.
  unfold evaluate_calibration, evaluate_calibration_locals. cbn [best_eer].
  destruct eer_thresholds_start as (t0 & Ht0 & Hz).
  apply Qle_trans with
    ((FNR (calibrated_scores alpha tau M same_pairs) t0
      + FPR (calibrated_scores alpha tau M diff_pairs) t0) / 2).
  - apply best_eer_le_grid. exact Ht0.
  - rewrite FNR_zero.
    + pose proof (FPR_range (calibrated_scores alpha tau M diff_pairs) t0)
        as [_ Hhi].
      apply Qle_shift_div_r; [reflexivity | lra].
    + intros s Hs. rewrite Hz. apply Hnonneg. exact Hs.
Qed.

Lemma evaluate_calibration_at_most_half_witness :
  evaluate_calibration (5 # 1000, 5, 30) overlap_same overlap_diff <= 1 # 2.
Proof.
  apply (evaluate_calibration_at_most_half (5 # 1000) 5 30
           overlap_same overlap_diff).
  intros s Hs. vm_compute in Hs.
  destruct Hs as [<- | [<- | []]]; vm_compute; discriminate.
Defined.

(** When a threshold of the grid separates the two calibrated score sets
    (every different-person score below it, every same-person score at or
    above it), [evaluate_calibration] returns 0. *)
Theorem evaluate_calibration_separated (alpha tau M : Q)
    (same_pairs diff_pairs : Pairs) (t : Q) :
  In t eer_thresholds ->
  (forall s, In s (calibrated_scores alpha tau M same_pairs) -> t <= s) ->
  (forall d, In d (calibrated_scores alpha tau M diff_pairs) -> d < t) ->
  evaluate_calibration (alpha, tau, M) same_pairs diff_pairs == 0.
Proof.
  intros Ht Hsame Hdiff.
  unfold evaluate_calibration, evaluate_calibration_locals. cbn [best_eer].
  set (same := calibrated_scores alpha tau M same_pairs) in *.
  set (diff := calibrated_scores alpha tau M diff_pairs) in *.
  pose proof (best_eer_le_grid same diff t Ht) as Hle.
  pose proof (best_eer_nonneg same diff) as Hlo.
  rewrite (FNR_zero _ t Hsame), (FPR_zero _ t Hdiff) in Hle.
  apply Qle_antisym; [| exact Hlo].
  setoid_replace ((0 + 0) / 2) with 0 in Hle by (unfold Qdiv; ring).
  exact Hle.
Qed.

Lemma evaluate_calibration_separated_witness :
  evaluate_calibration (5 # 1000, 5, 30) far_same far_diff == 0.
Proof.
  apply (evaluate_calibration_separated (5 # 1000) 5 30 far_same far_diff
           (nth 500 eer_thresholds 0)).
  - apply nth_In. rewrite eer_thresholds_length. lia.
  - intros s Hs. vm_compute in Hs. destruct Hs as [<- | []].
    vm_compute. discriminate.
  - intros d Hd. vm_compute in Hd. destruct Hd as [<- | []].
    vm_compute. reflexivity.
Defined.

(** The TAR that [evaluate_calibration] computes lies between 0 and 1,
    and it is 0 when there is no different-person pair: the FPR is then 0
    at every threshold and never reaches the target. *)
Theorem penalty_tar_range (alpha tau M : Q) (same_pairs diff_pairs : Pairs) :
  let reported :=
    tar (evaluate_calibration_locals (alpha, tau, M) same_pairs diff_pairs) in
  0 <= reported <= 1
  /\ (calibrated_scores alpha tau M diff_pairs = [] -> reported == 0).
Proof.
  cbn [evaluate_calibration_locals tar]. unfold tar_scan.
  split.
  - destruct (find _ tar_thresholds) as [t |].
    + rewrite tar_of_spec. apply TPR_range.
    + split; [apply Qle_refl | discriminate].
  - intros Hempty. rewrite Hempty.
    rewrite (find_none_in tar_thresholds _ (fun _ => False)).
    + reflexivity.
    + intros u. split; [| intros []].
      unfold fpr_of. simpl. intros H. discriminate H.
    + intros u _ [].
Qed.

End PenaltyEvaluationFacts.

(* ================================================================== *)
(** * Further theorems: the evaluation of the linear model *)
(* ================================================================== *)

Module LinearEvaluationFacts.
Import Metrics MetricsFacts.
Local Open Scope Q_scope.

(** The trapezoids cannot sum to less than the total fall of the
    abscissa when the ordinates stay within [0, 1]. *)
Lemma trapz_lower (r : Q -> Q * Q) (grid : list Q) (d : Q) :
  (forall t, 0 <= fst (r t) <= 1) ->
  (forall a b, a <= b -> snd (r b) <= snd (r a)) ->
  increasing grid = true ->
  grid <> [] ->
  snd (r (last grid d)) - snd (r (hd d grid))
  <= trapz (map fst (map r grid)) (map snd (map r grid)).
Proof.
  intros Hy Hx.
  induction grid as [| a grid IH]; [congruence |].
  destruct grid as [| b grid].
  - intros _ _. simpl. lra.
  - intros Hinc _. cbn [increasing] in Hinc.
    apply andb_true_iff in Hinc. destruct Hinc as [Hab Hinc].
    assert (IH' := IH Hinc ltac:(discriminate)).
    assert (Hle : a <= b).
    { apply negb_true_iff in Hab. apply Qlt_le_weak. apply Qnot_le_lt.
      intros H. apply Qle_bool_iff in H. congruence. }
    change (trapz (map fst (map r (a :: b :: grid)))
                  (map snd (map r (a :: b :: grid))))
      with ((snd (r b) - snd (r a)) * (fst (r b) + fst (r a)) / 2
            + trapz (map fst (map r (b :: grid)))
                    (map snd (map r (b :: grid)))).
    change (last (a :: b :: grid) d) with (last (b :: grid) d).
    cbn [hd] in *.
    pose proof (Hx a b Hle) as Hw.
    pose proof (Hy a) as [Hya0 Hya1]. pose proof (Hy b) as [Hyb0 Hyb1].
    assert (Hterm : snd (r b) - snd (r a)
                    <= (snd (r b) - snd (r a)) * (fst (r b) + fst (r a)) / 2).
    { assert (H0 : 0 <= (snd (r a) - snd (r b))
                        * (2 - (fst (r b) + fst (r a))))
        by (apply Qmult_le_0_compat; lra).
      setoid_replace ((snd (r b) - snd (r a)) * (fst (r b) + fst (r a)) / 2)
        with ((snd (r b) - snd (r a))
              + (snd (r a) - snd (r b)) * (2 - (fst (r b) + fst (r a)))
                * (1 # 2))
        by (unfold Qdiv; change (/ 2) with (1 # 2); ring).
      lra. }
    lra.
Qed.

Lemma linear_thresholds_length : length linear_thresholds = 1000%nat.
Proof.
  unfold linear_thresholds, linspace. cbv zeta.
  rewrite length_map, length_seq. reflexivity.
Qed.

Lemma nth_in_unit_interval (l : list Q) (i : nat) :
  (forall x, In x l -> 0 <= x <= 1) -> 0 <= nth i l 0 <= 1.
Proof.
  intros Hall. destruct (nth_in_or_default i l 0) as [Hin | ->].
  - apply Hall. exact Hin.
  - split; [apply Qle_refl | discriminate].
Qed.

(** The ranges of what [evaluate_calibrator] reports, for every array of
    probabilities and labels, empty or one-sided ones included: the AUC
    lies between -1 and 0, the EER and the TAR between 0 and 1, and the
    two rate arrays have one entry per threshold. *)
Theorem evaluate_calibrator_ranges (probs : list Q) (labels : list Z) :
  let m := evaluate_calibrator probs labels in
  length (tpr_list m) = 1000%nat
  /\ length (fpr_list m) = 1000%nat
  /\ - (1) <= auc m <= 0
  /\ 0 <= eer m <= 1
  /\ 0 <= tar_at_far m <= 1.
Proof.
  intros m.
  assert (Htpr : forall t, 0 <= fst (rates_at probs labels t) <= 1).
  { intros t. destruct (rates_at_spec probs labels t) as [H _].
    rewrite H. apply TPR_range. }
  assert (Hfpr : forall t, 0 <= snd (rates_at probs labels t) <= 1).
  { intros t. destruct (rates_at_spec probs labels t) as [_ H].
    rewrite H. apply FPR_range. }
  assert (Hanti : forall a b, a <= b ->
            snd (rates_at probs labels b) <= snd (rates_at probs labels a)).
  { intros a b Hab.
    destruct (rates_at_spec probs labels a) as [_ Ha].
    destruct (rates_at_spec probs labels b) as [_ Hb].
    rewrite Ha, Hb. apply FPR_antitone. exact Hab. }
  split; [| split; [| split; [| split]]].
  - subst m. unfold evaluate_calibrator, evaluate_calibrator_on.
    cbn [tpr_list]. rewrite !length_map. apply linear_thresholds_length.
  - subst m. unfold evaluate_calibrator, evaluate_calibrator_on.
    cbn [fpr_list]. rewrite !length_map. apply linear_thresholds_length.
  - split; [| apply auc_never_positive].
    subst m. unfold evaluate_calibrator, evaluate_calibrator_on.
    cbv zeta. cbn [auc].
    apply Qle_trans with
      (snd (rates_at probs labels (last linear_thresholds 0))
       - snd (rates_at probs labels (hd 0 linear_thresholds))).
    + pose proof (Hfpr (last linear_thresholds 0)) as [H1 _].
      pose proof (Hfpr (hd 0 linear_thresholds)) as [_ H2].
      lra.
    + apply trapz_lower.
      * exact Htpr.
      * exact Hanti.
      * apply linear_thresholds_ascending.
      * intros H. pose proof linear_thresholds_length as Hlen.
        rewrite H in Hlen. discriminate.
  - subst m. unfold evaluate_calibrator, evaluate_calibrator_on.
    cbv zeta. cbn [eer].
    set (idx := argmin _).
    assert (H1 : 0 <= nth idx (map snd (map (rates_at probs labels)
                                          linear_thresholds)) 0 <= 1).
    { apply nth_in_unit_interval. intros x Hx.
      apply in_map_iff in Hx. destruct Hx as (pt & <- & Hpt).
      apply in_map_iff in Hpt. destruct Hpt as (t & <- & _). apply Hfpr. }
    assert (H2 : 0 <= nth idx (map fst (map (rates_at probs labels)
                                          linear_thresholds)) 0 <= 1).
    { apply nth_in_unit_interval. intros x Hx.
      apply in_map_iff in Hx. destruct Hx as (pt & <- & Hpt).
      apply in_map_iff in Hpt. destruct Hpt as (t & <- & _). apply Htpr. }
    destruct H1 as [H1 H1']. destruct H2 as [H2 H2']. split.
    + apply Qle_shift_div_l; [reflexivity | lra].
    + apply Qle_shift_div_r; [reflexivity | lra].
  - subst m. rewrite linear_tar_find.
    destruct (find _ linear_thresholds) as [t |].
    + apply Htpr.
    + split; [apply Qle_refl | discriminate].
Qed.

Lemma linear_eer_at_minimal_gap_witness :
  exists t,
    nth_error linear_thresholds
      (eer_idx (evaluate_calibrator separated_probs separated_labels))
    = Some t
    /\ minimizes_gap linear_thresholds
         (scores_with_label 1 separated_probs separated_labels)
         (scores_with_label 0 separated_probs separated_labels) t
    /\ eer (evaluate_calibrator separated_probs separated_labels)
       == (FPR (scores_with_label 0 separated_probs separated_labels) t
           + FNR (scores_with_label 1 separated_probs separated_labels) t)
          / 2
    /\ 0 <= eer (evaluate_calibrator separated_probs separated_labels) <= 1.
Proof.
  apply (linear_eer_at_minimal_gap separated_probs separated_labels).
  discriminate.
Defined.

End LinearEvaluationFacts.

(* ================================================================== *)
(** * Further theorems: the linear model and its loss *)
(* ================================================================== *)

Module LinearModelFacts.
Import Linear LinearFacts.
Local Open Scope R_scope.

Lemma matvec_forall (features : list (list R)) (w : list R) (ls : list R) :
  matvec features w = Some ls -> length ls = length features.
Proof.
  revert ls. induction features as [| row rest IH]; intros ls; simpl.
  - intros H. injection H as <-. reflexivity.
  - destruct (dot row w) as [l |]; [| discriminate].
    destruct (matvec rest w) as [ls' |]; [| discriminate].
    intros H. injection H as <-. simpl. rewrite (IH ls' eq_refl).
    reflexivity.
Qed.

(** Every probability the model computes lies in the closed interval
    [0, 1], one per feature row, whenever each row has one feature per
    weight.  (The two ends are included on purpose: the sigmoid of the
    reals never reaches them, the one of the code rounds to exactly 1.0
    from a logit of about 37 on.) *)
Theorem probs_in_unit_interval (params : list R) (features : list (list R)) :
  params <> [] ->
  Forall (fun row => S (length row) = length params) features ->
  exists ps,
    probs params features = Some ps
    /\ length ps = length features
    /\ Forall (fun p => 0 <= p <= 1) ps.
Proof.
  intros Hne Hrows. destruct params as [| w0 w]; [congruence |].
  assert (Hrows' : Forall (fun row => length row = length w) features).
  { eapply Forall_impl; [| exact Hrows]. simpl. intros row H. lia. }
  destruct (matvec_defined features w Hrows') as (ls & Hls & Hlen).
  unfold probs, logits. rewrite Hls.
  eexists. split; [reflexivity |]. split.
  - rewrite !length_map. exact Hlen.
  - apply Forall_forall. intros p Hp.
    apply in_map_iff in Hp. destruct Hp as (l & <- & _).
    pose proof (sigmoid_range l). lra.
Qed.

Lemma probs_in_unit_interval_witness :
  exists ps,
    probs initial_params age_only_features = Some ps
    /\ length ps = length age_only_features
    /\ Forall (fun p => 0 <= p <= 1) ps.
Proof.
  apply (probs_in_unit_interval initial_params age_only_features).
  - discriminate.
  - repeat constructor.
Defined.

(** ** The loss is never negative *)

Lemma eps_range : 0 < eps <= 1 / 2.
Proof.
  unfold eps.
  assert (H : 2 <= 10 ^ 15) by (simpl; lra).
  split.
  - apply Rinv_0_lt_compat. lra.
  - unfold Rdiv. rewrite Rmult_1_l. apply Rinv_le_contravar; lra.
Qed.

Lemma np_clip_eps_range (p : R) :
  eps <= np_clip p eps (1 - eps) <= 1 - eps.
Proof.
  pose proof eps_range as [H0 H1]. unfold np_clip. split.
  - apply Rmin_glb; [lra | apply Rmax_r].
  - apply Rmin_l.
Qed.

Lemma ln_nonpos (x : R) : 0 < x -> x <= 1 -> ln x <= 0.
Proof.
  intros H0 H1. rewrite <- ln_1.
  destruct H1 as [Hlt | ->]; [| apply Rle_refl].
  left. apply ln_increasing; assumption.
Qed.

Lemma cross_entropy_terms_nonpos (labels ps terms : list R) :
  Forall (fun y => y = 0 \/ y = 1) labels ->
  Forall (fun p => eps <= p <= 1 - eps) ps ->
  zip_with (fun y p => y * ln p + (1 - y) * ln (1 - p)) labels ps
  = Some terms ->
  Forall (fun t => t <= 0) terms.
Proof.
  pose proof eps_range as [He0 He1].
  intros Hlabels. revert ps terms.
  induction Hlabels as [| y labels Hy _ IH]; intros [| p ps] terms Hps;
    simpl; try discriminate.
  - intros H. injection H as <-. constructor.
  - inversion Hps as [| p' ps' Hp Hps']; subst.
    destruct (zip_with _ labels ps) as [r |] eqn:Hr; [| discriminate].
    intros H. injection H as <-. constructor.
    + assert (ln p <= 0) by (apply ln_nonpos; lra).
      assert (ln (1 - p) <= 0) by (apply ln_nonpos; lra).
      destruct Hy as [-> | ->]; lra.
    + apply (IH ps r Hps' Hr).
Qed.

Lemma np_sum_nonpos (xs : list R) :
  Forall (fun t => t <= 0) xs -> np_sum xs <= 0.
Proof.
  induction 1 as [| x xs Hx _ IH]; simpl; [apply Rle_refl |].
  cbv beta in Hx. lra.
Qed.

Lemma np_sum_squares_nonneg (xs : list R) :
  0 <= np_sum (map (fun w => w ^ 2) xs).
Proof.
  induction xs as [| x xs IH]; simpl in *; [apply Rle_refl |].
  assert (0 <= x * (x * 1)) by nra. lra.
Qed.

(** On a non-empty [n x 4] training set with 0/1 labels and a
    regularization strength that is not negative, the objective of the
    fit is defined at every five-parameter point and is not negative. *)
Theorem logistic_loss_nonneg (features : list (list R)) (labels : list R)
    (regularization : R) (params : list R) :
  features <> [] ->
  Forall (fun row => length row = 4%nat) features ->
  length labels = length features ->
  Forall (fun y => y = 0 \/ y = 1) labels ->
  0 <= regularization ->
  length params = 5%nat ->
  exists loss,
    logistic_loss features labels regularization params = Some loss
    /\ 0 <= loss.
Proof.
  intros Hne Hrows Hlabels H01 Hreg Hparams.
  destruct (logistic_loss features labels regularization params)
    as [loss |] eqn:Hloss.
  2:{ exfalso. revert Hloss. apply logistic_loss_defined; assumption. }
  exists loss. split; [reflexivity |].
  unfold logistic_loss in Hloss.
  destruct (probs params features) as [ps |] eqn:Hps; [| discriminate].
  cbv zeta in Hloss.
  destruct (zip_with _ labels _) as [terms |] eqn:Hterms; [| discriminate].
  injection Hloss as <-.
  assert (Hnonpos : Forall (fun t => t <= 0) terms).
  { eapply cross_entropy_terms_nonpos; [exact H01 | | exact Hterms].
    apply Forall_forall. intros p Hp.
    apply in_map_iff in Hp. destruct Hp as (q & <- & _).
    apply np_clip_eps_range. }
  assert (Hlen : length terms = length labels).
  { clear - Hterms. revert Hterms. generalize (map (fun p => np_clip p eps (1 - eps)) ps).
    revert terms. induction labels as [| y labels IH]; intros terms [| p l];
      simpl; try discriminate.
    - intros H. injection H as <-. reflexivity.
    - destruct (zip_with _ labels l) as [r |] eqn:Hr; [| discriminate].
      intros H. injection H as <-. simpl. rewrite (IH r l Hr). reflexivity. }
  assert (Hn : 0 < INR (length terms)).
  { rewrite Hlen, Hlabels. apply lt_0_INR.
    destruct features; [congruence | simpl; lia]. }
  assert (Hmean : np_mean terms <= 0).
  { unfold np_mean. pose proof (np_sum_nonpos terms Hnonpos) as Hs.
    unfold Rdiv.
    assert (0 < / INR (length terms)) by (apply Rinv_0_lt_compat; exact Hn).
    nra. }
  pose proof (np_sum_squares_nonneg (tl params)) as Hsq.
  assert (0 <= regularization * np_sum (map (fun w => w ^ 2) (tl params)))
    by (apply Rmult_le_pos; assumption).
  cbn [pow] in *. lra.
Qed.

Lemma logistic_loss_nonneg_witness :
  exists loss,
    logistic_loss age_only_features age_only_labels (1 / 100) initial_params
    = Some loss
    /\ 0 <= loss.
Proof.
  apply (logistic_loss_nonneg age_only_features age_only_labels (1 / 100)
           initial_params).
  - discriminate.
  - repeat constructor.
  - reflexivity.
  - constructor; [right; reflexivity |].
    constructor; [left; reflexivity | constructor].
  - lra.
  - reflexivity.
Defined.

(** ** The fitted model is monotone *)

(** Whatever the training data, the model that the fit returns (with a
    bounded optimizer) gives probabilities that do not increase with the
    age gap, do not increase with the uncertainty, and do not decrease
    with the similarity. *)
Theorem fitted_model_is_monotone (minimize : optimizer)
    (features : list (list R)) (labels : list R) (regularization : R) :
  respects_bounds minimize -> returns_result minimize ->
  Forall (fun row => length row = 4%nat) features ->
  length labels = length features ->
  exists params,
    constrained_linear_calibrator minimize features labels regularization
    = Some params
    /\ (forall sim unc d1 d2,
          0 <= d1 -> d1 <= d2 ->
          exists p1 p2,
            predict params [ sim; d1; d1 ^ 2; unc ] = Some p1
            /\ predict params [ sim; d2; d2 ^ 2; unc ] = Some p2
            /\ p2 <= p1)
    /\ (forall sim d unc1 unc2,
          unc1 <= unc2 ->
          exists p1 p2,
            predict params [ sim; d; d ^ 2; unc1 ] = Some p1
            /\ predict params [ sim; d; d ^ 2; unc2 ] = Some p2
            /\ p2 <= p1)
    /\ (forall d unc sim1 sim2,
          sim1 <= sim2 ->
          exists p1 p2,
            predict params [ sim1; d; d ^ 2; unc ] = Some p1
            /\ predict params [ sim2; d; d ^ 2; unc ] = Some p2
            /\ p1 <= p2).
Proof.
  intros Hbox Hret Hrows Hlabels.
  destruct (constrained_linear_calibrator minimize features labels
              regularization) as [params |] eqn:Hfit.
  2:{ exfalso. unfold constrained_linear_calibrator in Hfit.
      revert Hfit. apply Hret; [apply bounds_consistent | reflexivity |].
      intros p Hp. apply logistic_loss_defined; assumption. }
  destruct (fit_signs_if_returned minimize features labels regularization
              params Hbox Hfit)
    as (bias & w_sim & w_age & w_age2 & w_unc & -> & Hsim & Hage & Hage2 & Hunc).
  eexists. split; [reflexivity |].
  split; [| split].
  - intros sim unc d1 d2 Hd1 Hd. eexists. eexists.
    split; [apply predict_row | split; [apply predict_row |]].
    apply sigmoid_mono. assert (d1 ^ 2 <= d2 ^ 2) by nra. nra.
  - intros sim d unc1 unc2 Hu. eexists. eexists.
    split; [apply predict_row | split; [apply predict_row |]].
    apply sigmoid_mono. nra.
  - intros d unc sim1 sim2 Hs. eexists. eexists.
    split; [apply predict_row | split; [apply predict_row |]].
    apply sigmoid_mono. nra.
Qed.

Lemma fitted_model_is_monotone_witness :
  exists params,
    constrained_linear_calibrator projected_start age_only_features
      age_only_labels (1 / 100)
    = Some params
    /\ (forall sim unc d1 d2,
          0 <= d1 -> d1 <= d2 ->
          exists p1 p2,
            predict params [ sim; d1; d1 ^ 2; unc ] = Some p1
            /\ predict params [ sim; d2; d2 ^ 2; unc ] = Some p2
            /\ p2 <= p1)
    /\ (forall sim d unc1 unc2,
          unc1 <= unc2 ->
          exists p1 p2,
            predict params [ sim; d; d ^ 2; unc1 ] = Some p1
            /\ predict params [ sim; d; d ^ 2; unc2 ] = Some p2
            /\ p2 <= p1)
    /\ (forall d unc sim1 sim2,
          sim1 <= sim2 ->
          exists p1 p2,
            predict params [ sim1; d; d ^ 2; unc ] = Some p1
            /\ predict params [ sim2; d; d ^ 2; unc ] = Some p2
            /\ p1 <= p2).
Proof.
  apply (fitted_model_is_monotone projected_start age_only_features
           age_only_labels (1 / 100)).
  - exact projected_start_respects_bounds.
  - exact projected_start_returns_result.
  - repeat constructor.
  - reflexivity.
Defined.

End LinearModelFacts.

(* ================================================================== *)
(** * Further theorems: the similarity of two embeddings *)
(* ================================================================== *)

Module SimilarityFacts.
Import Linear LinearFacts Assembler AssemblerFacts.
Local Open Scope R_scope.

Lemma dot_comm (x w : list R) : dot x w = dot w x.
Proof.
  revert w. induction x as [| a x IH]; intros [| b w]; simpl;
    try reflexivity.
  rewrite (IH w). destruct (dot w x); [| reflexivity].
  f_equal. ring.
Qed.

(** The feature vector does not depend on the order of the two faces. *)
Theorem feature_vec_symmetric (emb1 : list R) (age1 unc1 : R)
    (emb2 : list R) (age2 unc2 : R) :
  feature_vec emb1 age1 unc1 emb2 age2 unc2
  = feature_vec emb2 age2 unc2 emb1 age1 unc1.
Proof.
  unfold feature_vec. cbv zeta.
  rewrite (dot_comm (normalize emb1) (normalize emb2)).
  destruct (dot (normalize emb2) (normalize emb1)); [| reflexivity].
  rewrite (Rabs_minus_sym age1 age2).
  replace ((unc1 + unc2) / 2) with ((unc2 + unc1) / 2) by lra.
  reflexivity.
Qed.

End SimilarityFacts.

(* ================================================================== *)
(** * Further theorems: the extraction of embeddings *)
(* ================================================================== *)

Module ExtractionOrderFacts.
Import Loops Kept LoopsFacts.
Local Open Scope Z_scope.

(** ** [sorted] sorts *)

Lemma insert_sorted_permutation (x : string) (l : list string) :
  Permutation (x :: l) (insert_sorted x l).
Proof.
  induction l as [| y l IH]; simpl.
  - apply Permutation_refl.
  - destruct (String.leb x y).
    + apply Permutation_refl.
    + eapply Permutation_trans; [apply perm_swap |].
      apply perm_skip. exact IH.
Qed.

Lemma sorted_permutation (l : list string) : Permutation l (sorted l).
Proof.
  unfold sorted. induction l as [| x l IH]; simpl.
  - apply Permutation_refl.
  - eapply Permutation_trans; [| apply insert_sorted_permutation].
    apply perm_skip. exact IH.
Qed.

Lemma insert_sorted_head (x a : string) (l : list string) :
  String.leb a x = true ->
  HdRel (fun u v => String.leb u v = true) a l ->
  HdRel (fun u v => String.leb u v = true) a (insert_sorted x l).
Proof.
  intros Hax Hal. destruct l as [| y l]; simpl.
  - constructor. exact Hax.
  - destruct (String.leb x y).
    + constructor. exact Hax.
    + constructor. inversion Hal; subst. assumption.
Qed.

Lemma insert_sorted_in_order (x : string) (l : list string) :
  Sorted (fun u v => String.leb u v = true) l ->
  Sorted (fun u v => String.leb u v = true) (insert_sorted x l).
Proof.
  induction 1 as [| y l Hl IH Hhd]; simpl.
  - repeat constructor.
  - destruct (String.leb x y) eqn:Hxy.
    + constructor.
      * constructor; assumption.
      * constructor. exact Hxy.
    + constructor; [exact IH |].
      apply insert_sorted_head; [| exact Hhd].
      destruct (String.leb_total x y) as [H | H]; [congruence | exact H].
Qed.

Lemma sorted_in_order (l : list string) :
  Sorted (fun u v => String.leb u v = true) (sorted l).
Proof.
  unfold sorted. induction l as [| x l IH]; simpl.
  - constructor.
  - apply insert_sorted_in_order. exact IH.
Qed.

Section Utkface.

Variables (Image Embedding : Type).
Variable listdir : string -> option (list string).
Variable imread : string -> option Image.
Variable run_model : Image -> option Embedding.
Variable py_int : string -> option Z.

Abbreviation file_step :=
  (file_step Image Embedding imread run_model py_int).
Abbreviation directory_loop :=
  (directory_loop Image Embedding listdir imread run_model py_int).
Abbreviation visited :=
  (visited Image Embedding listdir imread run_model py_int).
Abbreviation kept_samples :=
  (kept_samples Image Embedding imread run_model py_int).

Lemma file_loop_appends (dir : string) (files : list string) :
  forall st : State Embedding,
    fold_left (file_step dir) files st
    = (fst st ++ map fst (kept_samples (map (pair dir) files)),
       snd st ++ map snd (kept_samples (map (pair dir) files))).
Proof.
  induction files as [| f files IH]; intros st; simpl.
  - rewrite !app_nil_r. destruct st. reflexivity.
  - rewrite IH. unfold Loops.file_step.
    destruct (process_file Image Embedding imread run_model py_int dir f)
      as [[e age] |]; simpl.
    + rewrite <- !app_assoc. reflexivity.
    + reflexivity.
Qed.

Lemma directory_loop_appends (max_samples : option Z) (dirs : list string) :
  forall st : State Embedding,
    directory_loop max_samples dirs st
    = (fst st ++ map fst (kept_samples (visited max_samples dirs st)),
       snd st ++ map snd (kept_samples (visited max_samples dirs st))).
Proof.
  induction dirs as [| dir dirs IH]; intros st; simpl.
  - rewrite !app_nil_r. destruct st. reflexivity.
  - destruct (listdir dir) as [names |]; [| apply IH].
    assert (Hgo : forall files,
              directory_loop max_samples dirs
                (fold_left (file_step dir) files st)
              = (fst st
                 ++ map fst
                      (kept_samples
                         (map (pair dir) files
                          ++ visited max_samples dirs
                               (fold_left (file_step dir) files st))),
                 snd st
                 ++ map snd
                      (kept_samples
                         (map (pair dir) files
                          ++ visited max_samples dirs
                               (fold_left (file_step dir) files st))))).
    { intros files. rewrite IH.
      pose proof (file_loop_appends dir files st) as Hf.
      set (st' := fold_left (file_step dir) files st) in *.
      assert (H1 : fst st'
                   = fst st ++ map fst (kept_samples (map (pair dir) files)))
        by (rewrite Hf; reflexivity).
      assert (H2 : snd st'
                   = snd st ++ map snd (kept_samples (map (pair dir) files)))
        by (rewrite Hf; reflexivity).
      rewrite H1, H2. unfold Kept.kept_samples.
      rewrite !flat_map_app, !map_app, <- !app_assoc. reflexivity. }
    destruct max_samples as [m |]; [| apply Hgo].
    destruct (m =? 0); [apply Hgo |].
    destruct (m - Z.of_nat (length (fst st)) <=? 0); [| apply Hgo].
    simpl. rewrite !app_nil_r. destruct st. reflexivity.
Qed.

(** Without a cap the loop visits every listed file. *)
Lemma visited_without_cap (dirs : list string) :
  forall st : State Embedding,
    visited None dirs st
    = flat_map
        (fun dir =>
           match listdir dir with
           | Some names => map (pair dir) (sorted names)
           | None => []
           end)
        dirs.
Proof.
  induction dirs as [| dir dirs IH]; intros st; simpl; [reflexivity |].
  destruct (listdir dir) as [names |].
  - rewrite IH. reflexivity.
  - rewrite IH. reflexivity.
Qed.

(** Without [max_samples], the two arrays that
    [extract_embeddings_from_utkface] returns hold the embedding and the
    age of every file that is not skipped, directory after directory in
    the order of [utkface_dirs] (a directory that does not exist
    contributes nothing), and within a directory by ascending file name:
    [sorted] returns the names it is given, each as often as it occurs,
    with every name at most the next one in the order of strings. *)
Theorem extraction_keeps_order (dirs : list string) :
  (let samples :=
     flat_map
       (fun dir =>
          match listdir dir with
          | Some names => map (pair dir) (sorted names)
          | None => []
          end)
       dirs in
   extract_embeddings_from_utkface Image Embedding listdir imread run_model
     py_int dirs None
   = (map fst (kept_samples samples), map snd (kept_samples samples)))
  /\ (forall names : list string,
        Permutation names (sorted names)
        /\ Sorted (fun u v => String.leb u v = true) (sorted names)).
Proof.
  split.
  - cbv zeta. unfold extract_embeddings_from_utkface.
    rewrite directory_loop_appends, visited_without_cap. reflexivity.
  - intros names. split; [apply sorted_permutation | apply sorted_in_order].
Qed.

Lemma firstn_length_bound (n : nat) (files : list string) :
  (length (firstn n files) <= n)%nat.
Proof. rewrite length_firstn. lia. Qed.

Lemma directory_loop_capped (m : Z) (dirs : list string) :
  0 < m ->
  forall st : State Embedding,
    aligned Embedding st ->
    Z.of_nat (length (fst st)) <= m ->
    Z.of_nat (length (fst (directory_loop (Some m) dirs st))) <= m.
Proof.
  intros Hm. induction dirs as [| dir dirs IH]; intros st Hal Hst; simpl.
  - exact Hst.
  - destruct (listdir dir) as [names |]; [| apply IH; assumption].
    destruct (m =? 0) eqn:Hz; [apply Z.eqb_eq in Hz; lia |].
    destruct (m - Z.of_nat (length (fst st)) <=? 0) eqn:Hrem; [exact Hst |].
    apply Z.leb_gt in Hrem.
    set (files := firstn (Z.to_nat (m - Z.of_nat (length (fst st))))
                         (sorted names)).
    destruct (file_loop_invariant Image Embedding imread run_model py_int
                dir files st Hal) as [Hal' Hcount].
    apply IH; [exact Hal' |].
    pose proof (firstn_length_bound
                  (Z.to_nat (m - Z.of_nat (length (fst st))))
                  (sorted names)) as Hlen.
    fold files in Hlen. lia.
Qed.

(** With a positive [max_samples] the function returns at most that many
    embeddings. *)
Theorem extraction_respects_cap (dirs : list string) (m : Z) :
  0 < m ->
  Z.of_nat
    (length
       (fst (extract_embeddings_from_utkface Image Embedding listdir imread
               run_model py_int dirs (Some m))))
  <= m.
Proof.
  intros Hm. unfold extract_embeddings_from_utkface.
  apply directory_loop_capped.
  - exact Hm.
  - split; [reflexivity | constructor].
  - simpl. lia.
Qed.

Lemma directory_loop_zero_cap (dirs : list string) :
  forall st : State Embedding,
    directory_loop (Some 0) dirs st = directory_loop None dirs st.
Proof.
  induction dirs as [| dir dirs IH]; intros st; simpl; [reflexivity |].
  destruct (listdir dir); apply IH.
Qed.

(** [max_samples = 0] does not mean "no sample": the test
    [if max_samples:] is false for 0, and the function then extracts
    every file, as it does without a cap. *)
Theorem extraction_zero_cap_is_no_cap (dirs : list string) :
  extract_embeddings_from_utkface Image Embedding listdir imread run_model
    py_int dirs (Some 0)
  = extract_embeddings_from_utkface Image Embedding listdir imread run_model
      py_int dirs None.
Proof.
  unfold extract_embeddings_from_utkface. apply directory_loop_zero_cap.
Qed.

End Utkface.

Lemma extraction_respects_cap_witness :
  Z.of_nat
    (length
       (fst (extract_embeddings_from_utkface unit unit outlier_listing
               read_any embed_any ascii_int [ "part1"%string; "part2"%string ]
               (Some 1))))
  <= 1.
Proof.
  apply (extraction_respects_cap unit unit outlier_listing read_any embed_any
           ascii_int [ "part1"%string; "part2"%string ] 1).
  reflexivity.
Defined.

End ExtractionOrderFacts.

(* ================================================================== *)
(** * Further theorems: fitting the penalty model *)
(* ================================================================== *)

Module PenaltyFitFacts.
Import Penalty Metrics PenaltyFit Examples PenaltyFacts.
Local Open Scope Q_scope.

Lemma bounds_consistent_box : consistent_box bounds.
Proof.
  unfold consistent_box, bounds.
  repeat constructor; simpl; vm_compute; discriminate.
Qed.

Lemma clip_into_in_box (bs : list (Q * Q)) (xs : list Q) :
  consistent_box bs -> length xs = length bs -> in_box bs (clip_into bs xs).
Proof.
  intros Hc. revert xs.
  induction Hc as [| b bs Hb _ IH]; intros [| x xs] Hlen;
    simpl in Hlen; try discriminate.
  - constructor.
  - injection Hlen as Hlen. simpl. constructor.
    + apply np_clip_range. exact Hb.
    + apply IH. exact Hlen.
Qed.

Lemma clip_into_length (bs : list (Q * Q)) (xs : list Q) :
  length xs = length bs -> length (clip_into bs xs) = length xs.
Proof.
  revert xs. induction bs as [| b bs IH]; intros [| x xs] Hlen;
    simpl in Hlen; try discriminate; simpl.
  - reflexivity.
  - injection Hlen as Hlen. rewrite (IH xs Hlen). reflexivity.
Qed.

Lemma clipped_start_respects_box : respects_box clipped_start.
Proof.
  intros f x0 bs x Hc Hlen. unfold clipped_start.
  destruct (f (clip_into bs x0)); [| discriminate].
  intros Hx. injection Hx as <-. apply clip_into_in_box; assumption.
Qed.

Lemma clipped_start_returns_point : returns_point clipped_start.
Proof.
  intros f x0 bs Hc Hlen Hf. unfold clipped_start.
  specialize (Hf (clip_into bs x0) (clip_into_length bs x0 Hlen)).
  destruct (f (clip_into bs x0)); [discriminate | contradiction].
Qed.

Lemma objective_defined (same_pairs diff_pairs : Pairs) (p : list Q) :
  length p = 3%nat -> objective same_pairs diff_pairs p <> None.
Proof.
  destruct p as [| a [| b [| c [| d p]]]]; simpl; discriminate.
Qed.

(** With a bounded optimizer the fit of the penalty model returns three
    parameters inside their bounds, [alpha] in [0, 0.02], [tau] in
    [0, 20] and [M] in [10, 80], whatever the pairs; and the model fitted
    never raises a similarity and never lowers it by more than 1.6. *)
Theorem fitted_penalty_in_bounds (minimize : optimizer)
    (same_pairs diff_pairs : Pairs) :
  respects_box minimize -> returns_point minimize ->
  exists alpha tau M,
    fit_penalty_calibrator minimize same_pairs diff_pairs
    = Some (alpha, tau, M)
    /\ 0 <= alpha <= 2 # 100
    /\ 0 <= tau <= 20
    /\ 10 <= M <= 80
    /\ forall s d,
         s - (16 # 10) <= penalty_calibration s d alpha tau M <= s.
Proof.
  intros Hbox Hret. unfold fit_penalty_calibrator.
  destruct (minimize (objective same_pairs diff_pairs) initial_params bounds)
    as [x |] eqn:Hx.
  2:{ exfalso. revert Hx.
      apply Hret; [apply bounds_consistent_box | reflexivity |].
      intros p Hp. apply objective_defined. exact Hp. }
  pose proof (Hbox _ initial_params bounds x bounds_consistent_box
                eq_refl Hx) as Hin.
  unfold in_box, bounds in Hin.
  inversion Hin as [| b0 alpha bs0 xs0 Halpha H0]; subst.
  inversion H0 as [| b1 tau bs1 xs1 Htau H1]; subst.
  inversion H1 as [| b2 M bs2 xs2 HM H2]; subst.
  inversion H2; subst.
  cbn [fst snd] in Halpha, Htau, HM.
  exists alpha, tau, M.
  split; [reflexivity |].
  split; [exact Halpha |]. split; [exact Htau |]. split; [exact HM |].
  intros s d. unfold penalty_calibration. cbv zeta.
  assert (HM0 : 0 <= M) by lra.
  pose proof (np_clip_range (d - tau) 0 M HM0) as [Hlo Hhi].
  destruct Halpha as [Ha0 Ha1].
  assert (H1' : 0 <= alpha * np_clip (d - tau) 0 M)
    by (apply Qmult_le_0_compat; assumption).
  assert (H2' : alpha * np_clip (d - tau) 0 M <= alpha * M)
    by (apply Qmult_le_compat_l_nonneg; assumption).
  assert (H3' : alpha * M <= (2 # 100) * M)
    by (apply Qmult_le_compat_r; assumption).
  lra.
Qed.

Lemma fitted_penalty_in_bounds_witness :
  exists alpha tau M,
    fit_penalty_calibrator clipped_start overlap_same overlap_diff
    = Some (alpha, tau, M)
    /\ 0 <= alpha <= 2 # 100
    /\ 0 <= tau <= 20
    /\ 10 <= M <= 80
    /\ forall s d,
         s - (16 # 10) <= penalty_calibration s d alpha tau M <= s.
Proof.
  apply (fitted_penalty_in_bounds clipped_start overlap_same overlap_diff).
  - exact clipped_start_respects_box.
  - exact clipped_start_returns_point.
Defined.

End PenaltyFitFacts.

(* ================================================================== *)
(** * Further theorems: synthetic pairs *)
(* ================================================================== *)

Module SyntheticFacts.
Import Metrics Synthetic Examples.
Local Open Scope Q_scope.

Section Generate.

Variable embeddings_norm : list (list Q).
Variable ages : list Z.
Variable choice : nat -> nat * nat.
Variables (num_same num_diff : nat).

Abbreviation sim_of := (sim_of embeddings_norm).
Abbreviation age_gap := (age_gap ages).
Abbreviation inner_loop := (inner_loop embeddings_norm ages num_same).
Abbreviation outer_loop := (outer_loop embeddings_norm ages num_same).
Abbreviation diff_step := (diff_step embeddings_norm ages choice).
Abbreviation may_go_on := (may_go_on num_same).

Lemma age_gap_nonneg (i j : nat) : 0 <= age_gap i j.
Proof.
  unfold Synthetic.age_gap. replace 0 with (inject_Z 0) by reflexivity.
  rewrite <- Zle_Qle. apply Z.abs_nonneg.
Qed.

Lemma inner_loop_well_formed (i : nat) (js : list nat) :
  forall st, well_formed st -> well_formed (inner_loop i js st).
Proof.
  induction js as [| j js IH]; intros st Hst; simpl; [exact Hst |].
  destruct Hst as (Hlen & Hsims & Hgaps).
  destruct (Qle_bool (sim_of i j) (75 # 100)) eqn:Hsim; simpl.
  - apply IH. repeat split; assumption.
  - assert (Hst1 : length (sims st ++ [ sim_of i j ])
                   = length (gaps st ++ [ age_gap i j ])
                   /\ Forall (fun s => 75 # 100 < s) (sims st ++ [ sim_of i j ])
                   /\ Forall (fun g => 0 <= g) (gaps st ++ [ age_gap i j ])).
    { split; [| split].
      - rewrite !length_app, Hlen. reflexivity.
      - apply Forall_app. split; [exact Hsims |].
        constructor; [| constructor].
        apply Qnot_le_lt. intros H. apply Qle_bool_iff in H. congruence.
      - apply Forall_app. split; [exact Hgaps |].
        constructor; [apply age_gap_nonneg | constructor]. }
    destruct (num_same <=? length (sims st ++ [ sim_of i j ]))%nat.
    + exact Hst1.
    + apply IH. exact Hst1.
Qed.

Lemma outer_loop_well_formed (n : nat) (rows : list nat) :
  forall st, well_formed st -> well_formed (outer_loop n rows st).
Proof.
  induction rows as [| i rows IH]; intros st Hst; simpl; [exact Hst |].
  pose proof (inner_loop_well_formed i (window i n) st Hst) as H1.
  destruct (num_same <=? length (sims (inner_loop i (window i n) st)))%nat.
  - exact H1.
  - apply IH. exact H1.
Qed.

Lemma inner_loop_capped (i : nat) (js : list nat) :
  forall st,
    may_go_on st ->
    (length (sims (inner_loop i js st)) <= Nat.max num_same 1)%nat.
Proof.
  unfold may_go_on.
  induction js as [| j js IH]; intros st Hst; simpl; [lia |].
  destruct (Qle_bool (sim_of i j) (75 # 100)); simpl.
  - apply IH. simpl. exact Hst.
  - destruct (num_same <=? length (sims st ++ [ sim_of i j ]))%nat eqn:Hcap.
    + simpl. rewrite length_app. simpl. lia.
    + apply Nat.leb_gt in Hcap. apply IH. simpl. left. exact Hcap.
Qed.

Lemma outer_loop_capped (n : nat) (rows : list nat) :
  forall st,
    may_go_on st ->
    (length (sims (outer_loop n rows st)) <= Nat.max num_same 1)%nat.
Proof.
  unfold may_go_on.
  induction rows as [| i rows IH]; intros st Hst; simpl; [lia |].
  pose proof (inner_loop_capped i (window i n) st Hst) as H1.
  destruct (num_same <=? length (sims (inner_loop i (window i n) st)))%nat
    eqn:Hcap.
  - exact H1.
  - apply Nat.leb_gt in Hcap. apply IH. left. exact Hcap.
Qed.

Lemma diff_loop_lengths (ks : list nat) :
  forall st : list Q * list Q,
    length (fst st) = length (snd st) ->
    Forall (fun g => 0 <= g) (snd st) ->
    let st' := fold_left diff_step ks st in
    length (fst st') = (length (fst st) + length ks)%nat
    /\ length (snd st') = (length (fst st) + length ks)%nat
    /\ Forall (fun g => 0 <= g) (snd st').
Proof.
  induction ks as [| k ks IH]; intros st Hlen Hgaps; simpl.
  - repeat split; [lia | lia | exact Hgaps].
  - unfold Synthetic.diff_step at 2 4 6.
    destruct (choice k) as [i j].
    destruct (IH (fst st ++ [ sim_of i j ], snd st ++ [ age_gap i j ]))
      as (H1 & H2 & H3).
    + simpl. rewrite !length_app, Hlen. reflexivity.
    + simpl. apply Forall_app. split; [exact Hgaps |].
      constructor; [apply age_gap_nonneg | constructor].
    + simpl in H1, H2. rewrite length_app in H1, H2. simpl in H1, H2.
      repeat split; [lia | lia | exact H3].
Qed.

(** When [generate_synthetic_pairs] returns, the same-person set has at
    least one pair and at most [num_same] (one when [num_same] is 0),
    every one of its similarities is above 0.75, the different-person set
    has exactly [num_diff] pairs, both sets have one age gap per
    similarity, and no age gap is negative. *)
Theorem synthetic_pairs_well_formed (same diff : Pairs) :
  generate_synthetic_pairs embeddings_norm ages choice num_same num_diff
  = Some (same, diff) ->
  length (similarity same) = length (age_diff same)
  /\ (1 <= length (similarity same) <= Nat.max num_same 1)%nat
  /\ Forall (fun s => 75 # 100 < s) (similarity same)
  /\ Forall (fun g => 0 <= g) (age_diff same)
  /\ length (similarity diff) = num_diff
  /\ length (age_diff diff) = num_diff
  /\ (1 <= num_diff)%nat
  /\ Forall (fun g => 0 <= g) (age_diff diff).
Proof.
  unfold generate_synthetic_pairs. cbv zeta.
  set (n := length embeddings_norm).
  set (st := outer_loop n (seq 0 n)
               {| sims := []; gaps := []; checked := 0 |}).
  assert (Hwf : well_formed st).
  { apply outer_loop_well_formed. repeat split; constructor. }
  assert (Hcap : (length (sims st) <= Nat.max num_same 1)%nat).
  { apply outer_loop_capped. right. reflexivity. }
  destruct (diff_loop_lengths (seq 0 num_diff) ([], []) eq_refl
              (Forall_nil _)) as (Hd1 & Hd2 & Hd3).
  rewrite length_seq in Hd1, Hd2. simpl in Hd1, Hd2.
  destruct ((0 <? num_diff)%nat && (n <? 2)%nat); [discriminate |].
  destruct (sims st) as [| s0 ss] eqn:Hsims; [discriminate |].
  destruct (fst (fold_left diff_step (seq 0 num_diff) ([], [])))
    as [| d0 ds] eqn:Hdiff; [discriminate |].
  intros H. injection H as <- <-. cbn [similarity age_diff].
  destruct Hwf as (Hlen & Hs & Hg). rewrite Hsims in *.
  simpl in Hd1.
  repeat split; try assumption; simpl in *; lia.
Qed.

Lemma inner_loop_finds_none (i : nat) (js : list nat) :
  (forall j, (i < j)%nat -> sim_of i j <= 75 # 100) ->
  Forall (fun j => (i < j)%nat) js ->
  forall st, sims (inner_loop i js st) = sims st.
Proof.
  intros Hlow Hjs. induction Hjs as [| j js Hj _ IH]; intros st; simpl.
  - reflexivity.
  - assert (Hb : Qle_bool (sim_of i j) (75 # 100) = true)
      by (apply Qle_bool_iff; apply Hlow; exact Hj).
    rewrite Hb. simpl. rewrite IH. reflexivity.
Qed.

Lemma window_above (i n : nat) : Forall (fun j => (i < j)%nat) (window i n).
Proof.
  unfold window. apply Forall_forall. intros j Hj.
  apply in_seq in Hj. lia.
Qed.

Lemma outer_loop_finds_none (n : nat) (rows : list nat) :
  (forall i j, (i < j)%nat -> sim_of i j <= 75 # 100) ->
  forall st, sims (outer_loop n rows st) = sims st.
Proof.
  intros Hlow. induction rows as [| i rows IH]; intros st; simpl.
  - reflexivity.
  - pose proof (inner_loop_finds_none i (window i n) (Hlow i)
                  (window_above i n) st) as H1.
    destruct (num_same <=? _)%nat; [exact H1 |].
    rewrite IH. exact H1.
Qed.

(** When no embedding has a similarity above 0.75 with a later one, the
    function does not return an empty same-person set: it raises. *)
Theorem synthetic_pairs_need_a_similar_pair :
  (forall i j, (i < j)%nat -> sim_of i j <= 75 # 100) ->
  generate_synthetic_pairs embeddings_norm ages choice num_same num_diff
  = None.
Proof.
  intros Hlow. unfold generate_synthetic_pairs. cbv zeta.
  destruct ((0 <? num_diff)%nat && _); [reflexivity |].
  rewrite (outer_loop_finds_none _ _ Hlow). reflexivity.
Qed.

End Generate.

Lemma synthetic_pairs_well_formed_witness :
  let same := {| similarity := [ 1 ]; age_diff := [ 5 ] |} in
  let diff := {| similarity := [ 0; 0 ]; age_diff := [ 40; 40 ] |} in
  length (similarity same) = length (age_diff same)
  /\ (1 <= length (similarity same) <= Nat.max 1 1)%nat
  /\ Forall (fun s => 75 # 100 < s) (similarity same)
  /\ Forall (fun g => 0 <= g) (age_diff same)
  /\ length (similarity diff) = 2%nat
  /\ length (age_diff diff) = 2%nat
  /\ (1 <= 2)%nat
  /\ Forall (fun g => 0 <= g) (age_diff diff).
Proof.
  apply (synthetic_pairs_well_formed three_embeddings three_ages
           first_and_third 1 2).
  vm_compute. reflexivity.
Defined.

Lemma synthetic_pairs_need_a_similar_pair_witness :
  generate_synthetic_pairs two_orthogonal two_ages first_and_second 1 2
  = None.
Proof.
  apply (synthetic_pairs_need_a_similar_pair two_orthogonal two_ages
           first_and_second 1 2).
  intros i j Hij.
  destruct i as [| [| [| i]]]; destruct j as [| [| [| j]]];
    try lia; vm_compute; discriminate.
Defined.

End SyntheticFacts.

(* ================================================================== *)
(** * Further theorems: early stopping *)
(* ================================================================== *)

Module TrainingFacts.
Import Training Examples.
Local Open Scope Q_scope.

(** ** The order of floats *)

Lemma finite_lt (x y : Q) : loss_lt (Finite x) (Finite y) = true <-> x < y.
Proof.
  cbn [loss_lt]. rewrite negb_true_iff. split; intros H.
  - apply Qnot_le_lt. intros Hle. apply Qle_bool_iff in Hle. congruence.
  - destruct (Qle_bool y x) eqn:Hle; [| reflexivity].
    apply Qle_bool_iff in Hle. exfalso. apply (Qlt_not_le _ _ H). exact Hle.
Qed.

Lemma finite_not_lt (x y : Q) :
  loss_lt (Finite x) (Finite y) = false <-> y <= x.
Proof.
  cbn [loss_lt]. rewrite negb_false_iff. apply Qle_bool_iff.
Qed.

Lemma loss_lt_trans (a b c : Loss) :
  loss_lt a b = true -> loss_lt b c = true -> loss_lt a c = true.
Proof.
  destruct a as [x | | |], b as [y | | |], c as [z | | |];
    cbn [loss_lt]; try discriminate; try reflexivity.
  change (loss_lt (Finite x) (Finite y) = true ->
          loss_lt (Finite y) (Finite z) = true ->
          loss_lt (Finite x) (Finite z) = true).
  rewrite !finite_lt. apply Qlt_trans.
Qed.

(** What is not below [b] is [nan] or above everything below [b]. *)
Lemma loss_lt_below (a b c : Loss) :
  loss_lt a b = true -> loss_lt c b = false ->
  c = NaN \/ loss_lt a c = true.
Proof.
  destruct a as [x | | |], b as [y | | |], c as [z | | |];
    cbn [loss_lt]; try discriminate; auto.
  change (loss_lt (Finite x) (Finite y) = true ->
          loss_lt (Finite z) (Finite y) = false ->
          Finite z = NaN \/ loss_lt (Finite x) (Finite z) = true).
  rewrite !finite_lt, finite_not_lt. intros H1 H2. right.
  apply Qlt_le_trans with y; assumption.
Qed.

Section EarlyStopping.

Variables (Trainer Weights : Type).
Variable state_dict : Trainer -> Weights.
Variable run_epoch : Trainer -> Trainer * Loss.
Variable patience : nat.

Abbreviation LoopState := (LoopState Trainer Weights).
Abbreviation training_loop :=
  (training_loop Trainer Weights state_dict run_epoch patience).
Abbreviation tracks_best := (tracks_best Trainer Weights).
Abbreviation train := (train Trainer Weights state_dict run_epoch patience).

(** One round of the loop keeps the invariant. *)
Lemma round_tracks_best (file : option Weights) (st : LoopState)
    (t : Trainer) (v : Loss) :
  tracks_best file st ->
  (improves v (best_val_loss st) = true ->
   tracks_best file
     {| trainer := t; best_val_loss := v; patience_counter := 0;
        checkpoint := Some (state_dict t);
        epochs := epochs st ++ [ (state_dict t, v) ] |})
  /\ (improves v (best_val_loss st) = false ->
      tracks_best file
        {| trainer := t; best_val_loss := best_val_loss st;
           patience_counter := S (patience_counter st);
           checkpoint := checkpoint st;
           epochs := epochs st ++ [ (state_dict t, v) ] |}).
Proof.
  unfold improves.
  intros Hst. split; intros Himp.
  - right. exists (epochs st), (state_dict t), v, [].
    cbn [epochs best_val_loss checkpoint patience_counter].
    split; [reflexivity |]. split; [reflexivity |]. split; [reflexivity |].
    destruct Hst as [(Hb & _ & Hnone & _)
                    | (before & w & l & after & Heq & Hb & _ & Hl & Hbefore
                       & Hafter & _)].
    + rewrite Hb in Himp.
      split; [exact Himp |]. split; [| split; [intros e [] | reflexivity]].
      intros e He. apply (loss_lt_below v PlusInf (snd e) Himp).
      apply Hnone. exact He.
    + rewrite Hb in Himp.
      split; [exact (loss_lt_trans _ _ _ Himp Hl) |].
      split; [| split; [intros e [] | reflexivity]].
      intros e He. rewrite Heq in He. apply in_app_or in He.
      destruct He as [He | [<- | He]].
      * destruct (Hbefore e He) as [Hnan | Hlt]; [left; exact Hnan |].
        right. exact (loss_lt_trans _ _ _ Himp Hlt).
      * right. exact Himp.
      * apply (loss_lt_below v l (snd e) Himp). apply Hafter. exact He.
  - destruct Hst as [(Hb & Hc & Hnone & Hcount)
                    | (before & w & l & after & Heq & Hb & Hc & Hl & Hbefore
                       & Hafter & Hcount)].
    + left. cbn [epochs best_val_loss checkpoint patience_counter].
      rewrite Hb in Himp.
      split; [exact Hb |]. split; [exact Hc |]. split.
      * intros e He. apply in_app_or in He.
        destruct He as [He | [<- | []]]; [apply Hnone; exact He | exact Himp].
      * rewrite length_app, Hcount. simpl. lia.
    + right. exists before, w, l, (after ++ [ (state_dict t, v) ]).
      cbn [epochs best_val_loss checkpoint patience_counter].
      rewrite Hb in Himp.
      split; [rewrite Heq, <- app_assoc; reflexivity |].
      split; [exact Hb |]. split; [exact Hc |]. split; [exact Hl |].
      split; [exact Hbefore |]. split.
      * intros e He. apply in_app_or in He.
        destruct He as [He | [<- | []]]; [apply Hafter; exact He | exact Himp].
      * rewrite length_app, Hcount. simpl. lia.
Qed.

Lemma training_loop_tracks_best (file : option Weights) (n : nat) :
  forall st, tracks_best file st -> tracks_best file (training_loop n st).
Proof.
  induction n as [| n IH]; intros st Hst; simpl; [exact Hst |].
  destruct (run_epoch (trainer st)) as [t v].
  destruct (round_tracks_best file st t v Hst) as [Hyes Hno].
  destruct (improves v (best_val_loss st)).
  - apply IH. apply Hyes. reflexivity.
  - destruct (patience <=? S (patience_counter st))%nat.
    + apply Hno. reflexivity.
    + apply IH. apply Hno. reflexivity.
Qed.

(** The loop runs one epoch per round, and leaves early only when the
    counter has reached the patience. *)
Lemma training_loop_length (n : nat) :
  forall st : LoopState,
    (length (epochs (training_loop n st)) <= length (epochs st) + n
     /\ (length (epochs (training_loop n st)) = length (epochs st) + n
         \/ patience <= patience_counter (training_loop n st)))%nat.
Proof.
  induction n as [| n IH]; intros st; simpl; [lia |].
  destruct (run_epoch (trainer st)) as [t v].
  destruct (improves v (best_val_loss st)).
  - match goal with
    | |- context [training_loop n ?s] => specialize (IH s)
    end.
    cbn [epochs] in IH. rewrite length_app in IH. simpl in IH. lia.
  - destruct (patience <=? S (patience_counter st))%nat eqn:Hp.
    + apply Nat.leb_le in Hp. cbn [epochs patience_counter].
      rewrite length_app. simpl. lia.
    + match goal with
      | |- context [training_loop n ?s] => specialize (IH s)
      end.
      cbn [epochs] in IH. rewrite length_app in IH. simpl in IH. lia.
Qed.

(** What training returns, with validation losses that may be [inf] or
    [nan].  If some epoch of the run had a validation loss below [inf],
    training returns the weights saved after the first epoch that reached
    the least loss of the run: every earlier epoch had a greater loss or
    [nan], and no epoch had a smaller one.  If no epoch had (every loss was
    [inf] or [nan]), nothing is saved: training returns the content of the
    checkpoint file as it was before the run, and fails in [torch.load]
    when there was none.  The run has at most [num_epochs] epochs, and it
    is shorter only when the last [patience] epochs brought no
    improvement. *)
Theorem training_returns_best_epoch (t : Trainer) (file : option Weights)
    (num_epochs : nat) :
  let final := training_loop num_epochs (initial_state Trainer Weights t file) in
  ((exists e, In e (epochs final) /\ improves (snd e) PlusInf = true) ->
   exists before w l after,
     epochs final = before ++ (w, l) :: after
     /\ train t file num_epochs = Some w
     /\ improves l PlusInf = true
     /\ (forall e, In e before -> snd e = NaN \/ improves l (snd e) = true)
     /\ (forall e, In e (epochs final) -> improves (snd e) l = false)
     /\ (length (epochs final) = num_epochs \/ patience <= length after)%nat)
  /\ ((forall e, In e (epochs final) -> improves (snd e) PlusInf = false) ->
      train t file num_epochs = file
      /\ (length (epochs final) = num_epochs
          \/ patience <= length (epochs final))%nat)
  /\ (length (epochs final) <= num_epochs)%nat.
Proof.
  intros final.
  assert (Hinv : tracks_best file final).
  { apply training_loop_tracks_best. left.
    cbn [initial_state best_val_loss checkpoint epochs patience_counter].
    split; [reflexivity |]. split; [reflexivity |].
    split; [intros e [] | reflexivity]. }
  pose proof (training_loop_length num_epochs
                (initial_state Trainer Weights t file)) as (Hhi & Hstop).
  fold final in Hhi, Hstop. cbn [initial_state epochs length] in Hhi, Hstop.
  split; [| split; [| lia]].
  - intros (e0 & He0 & Hfin).
    destruct Hinv as [(_ & _ & Hnone & _)
                     | (before & w & l & after & Heq & Hb & Hc & Hl & Hbefore
                        & Hafter & Hcount)].
    + rewrite (Hnone e0 He0) in Hfin. discriminate.
    + exists before, w, l, after.
      split; [exact Heq |]. split; [exact Hc |]. split; [exact Hl |].
      split; [exact Hbefore |]. split.
      * intros e He. rewrite Heq in He. apply in_app_or in He.
        destruct He as [He | [<- | He]].
        -- destruct (Hbefore e He) as [Hnan | Hlt].
           ++ rewrite Hnan. reflexivity.
           ++ unfold improves in *. destruct (loss_lt (snd e) l) eqn:Hel;
                [| reflexivity].
              pose proof (loss_lt_trans _ _ _ Hlt Hel) as Hll.
              clear - Hll. destruct l as [x | | |]; cbn [loss_lt] in Hll;
                try discriminate.
              apply finite_lt in Hll. exfalso.
              exact (Qlt_irrefl x Hll).
        -- cbn [snd]. unfold improves. destruct l as [x | | |];
             cbn [loss_lt]; try reflexivity.
           apply finite_not_lt. apply Qle_refl.
        -- apply Hafter. exact He.
      * destruct Hstop as [Hfull | Hpat]; [left; lia | right; lia].
  - intros Hnone.
    destruct Hinv as [(_ & Hc & _ & Hcount)
                     | (before & w & l & after & Heq & _ & _ & Hl & _)].
    + split; [exact Hc |].
      destruct Hstop as [Hfull | Hpat]; [left; lia | right; lia].
    + exfalso. specialize (Hnone (w, l)). cbn [snd] in Hnone.
      rewrite Hnone in Hl; [discriminate |].
      rewrite Heq. apply in_or_app. right. left. reflexivity.
Qed.

End EarlyStopping.

(** Two runs of 50 epochs with patience 2.  With the losses nan, 5, 3, 4,
    4 the run stops after five epochs and returns the weights of the
    third; with the loss nan at every epoch nothing is saved and the
    weights of the old checkpoint file come back. *)
Lemma training_returns_best_epoch_witness :
  (let final :=
     training_loop nat nat (fun t => t) toy_epoch 2 50
       (initial_state nat nat 0%nat None) in
   exists before w l after,
     epochs final = before ++ (w, l) :: after
     /\ train nat nat (fun t => t) toy_epoch 2 0%nat None 50 = Some w
     /\ improves l PlusInf = true
     /\ (forall e, In e before -> snd e = NaN \/ improves l (snd e) = true)
     /\ (forall e, In e (epochs final) -> improves (snd e) l = false)
     /\ (length (epochs final) = 50 \/ 2 <= length after)%nat)
  /\ train nat nat (fun t => t) diverged_epoch 2 0%nat (Some 7%nat) 50
     = Some 7%nat.
Proof.
  split.
  - apply (training_returns_best_epoch nat nat (fun t => t) toy_epoch 2
             0%nat None 50).
    exists (2%nat, Finite 5). split.
    + vm_compute. right. left. reflexivity.
    + reflexivity.
  - apply (training_returns_best_epoch nat nat (fun t => t) diverged_epoch 2
             0%nat (Some 7%nat) 50).
    intros e He. vm_compute in He.
    destruct He as [<- | [<- | []]]; reflexivity.
Defined.

End TrainingFacts.

(* ================================================================== *)
(** * Further theorems: the threshold search *)
(* ================================================================== *)

Module AuditFacts.
Import Audit Examples.
Local Open Scope Q_scope.

Section Search.

Variable prob_at : Q -> Q.

Abbreviation search_step := (search_step prob_at).
Abbreviation search := (search prob_at).
Abbreviation brackets := (brackets prob_at).

Lemma search_step_brackets (st : Q * Q) :
  brackets st ->
  brackets (search_step st)
  /\ fst st <= fst (search_step st)
  /\ snd (search_step st) <= snd st
  /\ (snd (search_step st) - fst (search_step st)) * 2 == snd st - fst st.
Proof.
  destruct st as [low high]. unfold brackets. cbn [fst snd].
  intros (Hlow & Hhigh & Hlt). unfold Audit.search_step.
  assert (Hmid : low < (low + high) / 2 /\ (low + high) / 2 < high).
  { split.
    - apply Qlt_shift_div_l; [reflexivity | lra].
    - apply Qlt_shift_div_r; [reflexivity | lra]. }
  destruct Hmid as [Hm1 Hm2].
  destruct (Qle_bool (prob_at ((low + high) / 2)) (1 # 2)) eqn:Hp;
    cbn [negb fst snd].
  - apply Qle_bool_iff in Hp.
    split; [repeat split; assumption |].
    split; [apply Qlt_le_weak; exact Hm1 |].
    split; [apply Qle_refl |]. field.
  - assert (1 # 2 < prob_at ((low + high) / 2)).
    { apply Qnot_le_lt. intros H. apply Qle_bool_iff in H. congruence. }
    split; [repeat split; assumption |].
    split; [apply Qle_refl |].
    split; [apply Qlt_le_weak; exact Hm2 |]. field.
Qed.

Lemma search_brackets (n : nat) :
  forall st,
    brackets st ->
    brackets (search n st)
    /\ fst st <= fst (search n st)
    /\ snd (search n st) <= snd st
    /\ (snd (search n st) - fst (search n st)) * inject_Z (2 ^ Z.of_nat n)
       == snd st - fst st.
Proof.
  induction n as [| n IH]; intros st Hst.
  - cbn [Audit.search].
    split; [exact Hst |].
    split; [apply Qle_refl |].
    split; [apply Qle_refl |].
    change (inject_Z (2 ^ Z.of_nat 0)) with 1. ring.
  - destruct (search_step_brackets st Hst) as (Hb & Hlo & Hhi & Hw).
    destruct (IH _ Hb) as (Hb' & Hlo' & Hhi' & Hw').
    cbn [Audit.search].
    split; [exact Hb' |].
    split; [apply Qle_trans with (fst (search_step st)); assumption |].
    split; [apply Qle_trans with (snd (search_step st)); assumption |].
    rewrite Nat2Z.inj_succ, Z.pow_succ_r by lia.
    rewrite inject_Z_mult, <- Hw, <- Hw'.
    change (inject_Z 2) with 2. ring.
Qed.

(** When the model's probability is at most 0.5 at similarity 0 and above
    0.5 at similarity 1, the 20 rounds of the search end with a bracket
    of width [2^-20] inside [0, 1]: the probability is at most 0.5 at its
    lower end and above 0.5 at its upper end. *)
Theorem threshold_search_brackets :
  prob_at 0 <= 1 # 2 -> 1 # 2 < prob_at 1 ->
  let low := fst (find_threshold prob_at) in
  let high := snd (find_threshold prob_at) in
  prob_at low <= 1 # 2
  /\ 1 # 2 < prob_at high
  /\ 0 <= low /\ low < high /\ high <= 1
  /\ high - low == 1 # 1048576.
Proof.
  intros H0 H1 low high.
  destruct (search_brackets 20 (0, 1)) as ((Hl & Hh & Hlt) & Hlo & Hhi & Hw).
  { unfold Audit.brackets. cbn [fst snd].
    split; [exact H0 |]. split; [exact H1 | reflexivity]. }
  fold (find_threshold prob_at) in Hl, Hh, Hlt, Hlo, Hhi, Hw.
  fold low high in Hl, Hh, Hlt, Hlo, Hhi, Hw. cbn [fst snd] in Hlo, Hhi, Hw.
  split; [exact Hl |]. split; [exact Hh |]. split; [exact Hlo |].
  split; [exact Hlt |]. split; [exact Hhi |].
  change (inject_Z (2 ^ Z.of_nat 20)) with (1048576 # 1) in Hw.
  assert (Hone : (high - low) * (1048576 # 1) * (1 # 1048576)
                 == (1 - 0) * (1 # 1048576))
    by (rewrite Hw; reflexivity).
  rewrite <- Qmult_assoc in Hone.
  setoid_replace ((1048576 # 1) * (1 # 1048576)) with 1 in Hone
    by reflexivity.
  rewrite Qmult_1_r in Hone. rewrite Hone. reflexivity.
Qed.

End Search.

Lemma threshold_search_brackets_witness :
  let low := fst (find_threshold toy_prob) in
  let high := snd (find_threshold toy_prob) in
  toy_prob low <= 1 # 2
  /\ 1 # 2 < toy_prob high
  /\ 0 <= low /\ low < high /\ high <= 1
  /\ high - low == 1 # 1048576.
Proof.
  apply (threshold_search_brackets toy_prob).
  - vm_compute. discriminate.
  - vm_compute. reflexivity.
Defined.

End AuditFacts.

(* ================================================================== *)
(** * Further theorems: the outputs of the networks *)
(* ================================================================== *)

Module NetworkFacts.
Import Linear LinearFacts Network Examples.
Local Open Scope R_scope.

Lemma affine_defined (W : list (list R)) (b x : list R) :
  length W = length b ->
  Forall (fun row => length row = length x) W ->
  exists y, affine W b x = Some y /\ length y = length b.
Proof.
  revert b. induction W as [| row W IH]; intros [| bi b] Hlen Hrows;
    simpl in Hlen; try discriminate.
  - exists []. split; reflexivity.
  - injection Hlen as Hlen.
    inversion Hrows as [| r W' Hrow Hrows']; subst.
    destruct (dot_defined row x Hrow) as [d Hd].
    destruct (IH b Hlen Hrows') as (y & Hy & Hylen).
    exists (d + bi :: y). simpl. rewrite Hd, Hy, Hylen.
    split; reflexivity.
Qed.

Lemma dense_defined (n_in n_out : nat) (l : Layer) (act : R -> R)
    (x : list R) :
  has_shape n_in n_out l -> length x = n_in ->
  exists y,
    dense l act x = Some y
    /\ length y = n_out
    /\ Forall (fun v => exists u, v = act u) y.
Proof.
  intros (HW & Hb & Hrows) Hx.
  destruct (affine_defined (weight l) (bias l) x) as (y & Hy & Hlen).
  - congruence.
  - rewrite Hx. exact Hrows.
  - exists (map act y). unfold dense, apply_layer. rewrite Hy.
    split; [reflexivity |]. split.
    + rewrite length_map. congruence.
    + apply Forall_forall. intros v Hv.
      apply in_map_iff in Hv. destruct Hv as (u & <- & _).
      exists u. reflexivity.
Qed.

Lemma relu_nonneg (x : R) : 0 <= relu x.
Proof. unfold relu. apply Rmax_l. Qed.

Lemma softplus_nonneg (x : R) : 0 <= softplus x.
Proof.
  unfold softplus. destruct (Rlt_dec 20 x) as [H | H]; [lra |].
  rewrite <- ln_1. left. apply ln_increasing; [lra |].
  pose proof (exp_pos x). lra.
Qed.

Lemma singleton_of_length (A : Type) (y : list A) :
  length y = 1%nat -> exists a, y = [ a ].
Proof.
  destruct y as [| a [| b y]]; simpl; try discriminate.
  intros _. exists a. reflexivity.
Qed.

(** For every choice of weights, the age probe maps an embedding to one
    age and one uncertainty, neither of them negative; the loss of a
    sample is therefore not negative either, for every true age, and is
    at least the absolute error of the age. *)
Theorem age_probe_outputs (embedding_dim : nat) (m : AgeProbe)
    (x : list R) :
  age_probe_shaped embedding_dim m ->
  length x = embedding_dim ->
  exists age uncertainty,
    age_probe_forward m x = Some ([ age ], [ uncertainty ])
    /\ 0 <= age
    /\ 0 <= uncertainty
    /\ forall true_age,
         0 <= Rabs (age - true_age) <= sample_loss age uncertainty true_age.
Proof.
  intros (H1 & H2 & H3 & H4 & H5 & H6) Hx.
  unfold age_probe_forward.
  destruct (dense_defined _ _ _ relu x H1 Hx) as (h1 & E1 & L1 & _).
  rewrite E1. cbn [bind].
  destruct (dense_defined _ _ _ relu h1 H2 L1) as (f & E2 & L2 & _).
  rewrite E2. cbn [bind].
  destruct (dense_defined _ _ _ relu f H3 L2) as (a1 & E3 & L3 & _).
  rewrite E3. cbn [bind].
  destruct (dense_defined _ _ _ relu a1 H4 L3) as (age & E4 & L4 & A4).
  rewrite E4. cbn [bind].
  destruct (dense_defined _ _ _ relu f H5 L2) as (u1 & E5 & L5 & _).
  rewrite E5. cbn [bind].
  destruct (dense_defined _ _ _ softplus u1 H6 L5) as (unc & E6 & L6 & A6).
  rewrite E6. cbn [bind].
  destruct (singleton_of_length _ age L4) as [a ->].
  destruct (singleton_of_length _ unc L6) as [u ->].
  exists a, u. split; [reflexivity |].
  inversion A4 as [| ? ? [za ->] _]; subst.
  inversion A6 as [| ? ? [zu ->] _]; subst.
  pose proof (relu_nonneg za) as Ha. pose proof (softplus_nonneg zu) as Hu.
  split; [exact Ha |]. split; [exact Hu |].
  intros true_age. unfold sample_loss.
  pose proof (Rabs_pos (relu za - true_age)). lra.
Qed.

Lemma zero_layer_shape (n_in n_out : nat) :
  has_shape n_in n_out (zero_layer n_in n_out).
Proof.
  unfold has_shape, zero_layer. cbn [weight bias].
  rewrite !repeat_length. split; [reflexivity |]. split; [reflexivity |].
  apply Forall_forall. intros row Hrow.
  apply repeat_spec in Hrow. subst row. apply repeat_length.
Qed.

Lemma age_probe_outputs_witness :
  exists age uncertainty,
    age_probe_forward zero_age_probe [ 3; 4 ] = Some ([ age ], [ uncertainty ])
    /\ 0 <= age
    /\ 0 <= uncertainty
    /\ forall true_age,
         0 <= Rabs (age - true_age) <= sample_loss age uncertainty true_age.
Proof.
  apply (age_probe_outputs 2 zero_age_probe [ 3; 4 ]).
  - unfold age_probe_shaped, zero_age_probe.
    cbn [features_1 features_2 age_head_1 age_head_2 uncertainty_head_1
         uncertainty_head_2].
    repeat split; apply zero_layer_shape.
  - reflexivity.
Defined.

(** For every choice of weights, the learned calibrator maps a feature
    vector of three numbers to one probability in the closed interval
    [0, 1] (the ends included: the sigmoid of the code rounds to exactly
    1.0 for a large logit). *)
Theorem calibrator_output_is_probability (m : SimilarityCalibrator)
    (x : list R) :
  calibrator_shaped m ->
  length x = 3%nat ->
  exists p, calibrator_forward m x = Some [ p ] /\ 0 <= p <= 1.
Proof.
  intros (H1 & H2 & H3) Hx. unfold calibrator_forward.
  destruct (dense_defined _ _ _ relu x H1 Hx) as (h1 & E1 & L1 & _).
  rewrite E1. cbn [bind].
  destruct (dense_defined _ _ _ relu h1 H2 L1) as (h2 & E2 & L2 & _).
  rewrite E2. cbn [bind].
  destruct (dense_defined _ _ _ sigmoid h2 H3 L2) as (y & E3 & L3 & A3).
  rewrite E3.
  destruct (singleton_of_length _ y L3) as [p ->].
  exists p. split; [reflexivity |].
  inversion A3 as [| ? ? [z ->] _]; subst.
  pose proof (sigmoid_range z). lra.
Qed.

Lemma calibrator_output_is_probability_witness :
  exists p,
    calibrator_forward zero_calibrator [ 7 / 10; 20; 0 ] = Some [ p ]
    /\ 0 <= p <= 1.
Proof.
  apply (calibrator_output_is_probability zero_calibrator [ 7 / 10; 20; 0 ]).
  - unfold calibrator_shaped, zero_calibrator.
    cbn [network_1 network_2 network_3].
    repeat split; apply zero_layer_shape.
  - reflexivity.
Defined.

End NetworkFacts.

(* ================================================================== *)
(** * Further theorems: the FairFace extraction *)
(* ================================================================== *)

Module FairFaceFacts.
Import FairFace.
Local Open Scope Q_scope.

Lemma midpoint_range (age_bin : Z) (a : Q) :
  AGE_BIN_MIDPOINTS age_bin = Some a -> 1 <= a <= 775 # 10.
Proof.
  unfold AGE_BIN_MIDPOINTS. intros H.
  repeat match type of H with
         | context [match ?p with _ => _ end] => destruct p
         end;
    try discriminate; injection H as <-; split; vm_compute; discriminate.
Qed.

Section Extract.

Variables (Bytes Embedding : Type).
Variable embed : Bytes -> option Embedding.

Abbreviation Row := (Row Bytes).
Abbreviation process_row := (process_row Bytes Embedding embed).
Abbreviation row_loop := (row_loop Bytes Embedding embed).
Abbreviation file_loop := (file_loop Bytes Embedding embed).
Abbreviation kept_rows := (kept_rows Bytes Embedding embed).
Abbreviation kept_of := (kept_of Bytes Embedding embed).
Abbreviation extract := (extract_embeddings_from_fairface Bytes Embedding embed).

Lemma cap_reached_budget (max_samples : option Z) (k : nat) :
  cap_reached max_samples k
  = match budget max_samples with
    | None => false
    | Some b => (b <=? k)%nat
    end.
Proof.
  unfold cap_reached, budget. destruct max_samples as [m |]; [| reflexivity].
  destruct (m =? 0)%Z; [reflexivity |]. simpl.
  destruct (m <=? Z.of_nat k)%Z eqn:H1;
    destruct (Z.to_nat m <=? k)%nat eqn:H2; try reflexivity.
  - apply Z.leb_le in H1. apply Nat.leb_gt in H2. lia.
  - apply Z.leb_gt in H1. apply Nat.leb_le in H2. lia.
Qed.

Lemma take_nil (b : option nat) (k : nat) :
  take b k (@nil (Embedding * Q)) = [].
Proof. destruct b; simpl; [apply firstn_nil | reflexivity]. Qed.

Lemma row_loop_spec (max_samples : option Z) (rows : list Row) :
  forall (E : list Embedding) (A : list Q) (k : nat),
    row_loop max_samples rows (E, A, k)
    = (E ++ map fst (take (budget max_samples) k (kept_of rows)),
       A ++ map snd (take (budget max_samples) k (kept_of rows)),
       (k + length (take (budget max_samples) k (kept_of rows)))%nat).
Proof.
  induction rows as [| row rows IH]; intros E A k.
  - cbn [FairFace.row_loop FairFace.kept_of flat_map].
    rewrite take_nil. simpl. rewrite !app_nil_r, Nat.add_0_r. reflexivity.
  - cbn [FairFace.row_loop]. rewrite cap_reached_budget.
    destruct (budget max_samples) as [b |] eqn:Hb.
    + destruct (b <=? k)%nat eqn:Hcap.
      * apply Nat.leb_le in Hcap. unfold take.
        replace (b - k)%nat with 0%nat by lia.
        simpl. rewrite !app_nil_r, Nat.add_0_r. reflexivity.
      * apply Nat.leb_gt in Hcap.
        cbn [FairFace.kept_of flat_map].
        destruct (process_row row) as [[e a] |].
        -- rewrite IH. try rewrite Hb. unfold take.
           replace (b - k)%nat with (S (b - S k)) by lia.
           cbn [app firstn map fst snd length].
           rewrite <- !app_assoc. cbn [app].
           unfold FairFace.kept_of. f_equal. lia.
        -- rewrite IH. try rewrite Hb. reflexivity.
    + cbn [FairFace.kept_of flat_map].
      destruct (process_row row) as [[e a] |].
      * rewrite IH. try rewrite Hb. unfold take.
        cbn [app map fst snd length].
        rewrite <- !app_assoc. cbn [app].
        unfold FairFace.kept_of. f_equal. lia.
      * rewrite IH. try rewrite Hb. reflexivity.
Qed.

Lemma kept_of_app (l1 l2 : list Row) :
  kept_of (l1 ++ l2) = kept_of l1 ++ kept_of l2.
Proof. unfold FairFace.kept_of. apply flat_map_app. Qed.

Lemma file_loop_spec (max_samples : option Z) (files : list (list Row)) :
  forall (E : list Embedding) (A : list Q) (k : nat),
    file_loop max_samples files (E, A, k)
    = (E ++ map fst (take (budget max_samples) k (kept_of (concat files))),
       A ++ map snd (take (budget max_samples) k (kept_of (concat files))),
       (k + length (take (budget max_samples) k (kept_of (concat files))))%nat).
Proof.
  induction files as [| rows files IH]; intros E A k.
  - cbn [FairFace.file_loop concat FairFace.kept_of flat_map].
    rewrite take_nil. simpl. rewrite !app_nil_r, Nat.add_0_r. reflexivity.
  - cbn [FairFace.file_loop concat]. rewrite row_loop_spec.
    cbn [snd]. rewrite cap_reached_budget, kept_of_app.
    set (L1 := kept_of rows). set (L2 := kept_of (concat files)).
    destruct (budget max_samples) as [b |] eqn:Hb.
    + unfold take. rewrite firstn_app.
      destruct (b <=? k + length (firstn (b - k) L1))%nat eqn:Hcap.
      * apply Nat.leb_le in Hcap. rewrite length_firstn in Hcap.
        replace (b - k - length L1)%nat with 0%nat by lia.
        cbn [firstn]. rewrite app_nil_r. reflexivity.
      * apply Nat.leb_gt in Hcap. rewrite length_firstn in Hcap.
        rewrite IH. try rewrite Hb. unfold take. fold L2.
        assert (Hall : firstn (b - k) L1 = L1)
          by (apply firstn_all2; lia).
        rewrite Hall.
        replace (b - (k + length L1))%nat with (b - k - length L1)%nat
          by lia.
        rewrite !map_app, !length_app, <- !app_assoc.
        apply (f_equal2 pair); [reflexivity | lia].
    + rewrite IH. try rewrite Hb. unfold take. fold L2.
      rewrite !map_app, !length_app, <- !app_assoc.
      apply (f_equal2 pair); [reflexivity | lia].
Qed.

Lemma kept_of_ages (rows : list Row) :
  Forall (fun entry => 1 <= snd entry <= 775 # 10) (kept_of rows).
Proof.
  apply Forall_forall. intros entry Hin.
  unfold FairFace.kept_of in Hin. apply in_flat_map in Hin.
  destruct Hin as (row & _ & Hin).
  destruct (process_row row) as [kept |] eqn:Hp; [| destruct Hin].
  destruct Hin as [<- | []].
  unfold FairFace.process_row in Hp.
  destruct (AGE_BIN_MIDPOINTS (age Bytes row)) as [a |] eqn:Ha;
    [| discriminate].
  destruct (image Bytes row) as [img |]; [| discriminate].
  destruct (embed img) as [e |]; [| discriminate].
  injection Hp as <-. cbn [snd]. apply (midpoint_range _ _ Ha).
Qed.

Lemma take_incl (b : option nat) (k : nat) (l : list (Embedding * Q)) :
  incl (take b k l) l.
Proof.
  destruct b as [n |]; simpl; [| apply incl_refl].
  intros x Hx. rewrite <- (firstn_skipn (n - k) l).
  apply in_or_app. left. exact Hx.
Qed.

(** When the FairFace directory is missing the function raises.
    Otherwise, with a positive [max_samples] it returns the first
    [max_samples] rows that are not skipped (the cap counts kept samples),
    and all of them with [max_samples] 0 or [None]; every age it returns
    is one of the nine bin midpoints, hence between 1 and 77.5. *)
Theorem fairface_extraction_takes_first (files : list (list Row))
    (max_samples : option Z) :
  let kept := take (budget max_samples) 0 (kept_rows files) in
  extract None max_samples = None
  /\ extract (Some files) max_samples = Some (map fst kept, map snd kept)
  /\ Forall (fun a => 1 <= a <= 775 # 10) (map snd kept)
  /\ (forall m, max_samples = Some m -> (0 < m)%Z ->
        kept = firstn (Z.to_nat m) (kept_rows files)
        /\ (length kept <= Z.to_nat m)%nat)
  /\ (max_samples = None \/ max_samples = Some 0%Z ->
      kept = kept_rows files).
Proof.
  intros kept. split; [reflexivity |].
  split; [| split; [| split]].
  - unfold extract_embeddings_from_fairface. rewrite file_loop_spec.
    reflexivity.
  - apply Forall_forall. intros a Ha.
    apply in_map_iff in Ha. destruct Ha as (entry & <- & Hin).
    apply take_incl in Hin.
    pose proof (kept_of_ages (concat files)) as Hall.
    rewrite Forall_forall in Hall. apply Hall. exact Hin.
  - intros m -> Hm. subst kept. unfold budget, take.
    destruct (m =? 0)%Z eqn:Hz; [apply Z.eqb_eq in Hz; lia |].
    rewrite Nat.sub_0_r. split; [reflexivity |].
    rewrite length_firstn. lia.
  - intros [-> | ->]; reflexivity.
Qed.

End Extract.

End FairFaceFacts.

(* ================================================================== *)
(** * Further theorems: reading the AgeDB-30 pairs file *)
(* ================================================================== *)

Module DatasetsFacts.
Import Loops Datasets.

Section Agedb.

Variable strip : string -> string.

Lemma parse_line_loader_pair (line : string) (entry : string * string * Z) :
  parse_line strip line = Some entry -> loader_pair entry.
Proof.
  unfold parse_line.
  destruct (split "009"%char (strip line))
    as [| f1 [| f2 [| f3 [| f4 [| f5 rest]]]]]; try discriminate.
  - intros H. injection H as <-. left. split; [reflexivity |].
    exists f1, f2, f3. split; reflexivity.
  - intros H. injection H as <-. right. split; [reflexivity |].
    exists f1, f2, f3, f4. split; reflexivity.
Qed.

Lemma pairs_of_lines_app (l1 l2 : list string) :
  flat_map
    (fun line => match parse_line strip line with
                 | Some entry => [ entry ]
                 | None => []
                 end) (l1 ++ l2)
  = flat_map
      (fun line => match parse_line strip line with
                   | Some entry => [ entry ]
                   | None => []
                   end) l1
    ++ flat_map
         (fun line => match parse_line strip line with
                      | Some entry => [ entry ]
                      | None => []
                      end) l2.
Proof. apply flat_map_app. Qed.

(** The loader raises when the pairs file is missing.  Otherwise it
    returns the directory it was given and the pairs of the file: none for
    an empty file and for a file that has only its first line, whatever
    that line holds; and each further line adds, at the end of the list,
    the positive pair of its three tab-separated fields, or the negative
    pair of its four fields, or nothing when it has another number of
    fields.  So the pairs come in the order of the lines, the first line
    never gives one, and every pair has label 1 with two images of one
    person's directory, or label 0. *)
Theorem load_agedb30_pairs (data_dir : string) :
  load_agedb30 strip None data_dir = None
  /\ load_agedb30 strip (Some []) data_dir = Some ([], data_dir)
  /\ (forall header : string,
        load_agedb30 strip (Some [ header ]) data_dir = Some ([], data_dir))
  /\ (forall (header : string) (body : list string) (line : string),
        exists pairs,
          load_agedb30 strip (Some (header :: body)) data_dir
          = Some (pairs, data_dir)
          /\ (length pairs <= length body)%nat
          /\ Forall loader_pair pairs
          /\ load_agedb30 strip (Some (header :: body ++ [ line ])) data_dir
             = Some
                 (pairs
                  ++ match split "009"%char (strip line) with
                     | [ name; idx1; idx2 ] =>
                         [ (image_path name idx1, image_path name idx2, 1%Z) ]
                     | [ name1; idx1; name2; idx2 ] =>
                         [ (image_path name1 idx1, image_path name2 idx2,
                            0%Z) ]
                     | _ => []
                     end,
                  data_dir)).
Proof.
  split; [reflexivity |]. split; [reflexivity |]. split; [reflexivity |].
  intros header body line.
  unfold load_agedb30. cbv zeta. cbn [tl].
  eexists. split; [reflexivity |].
  split; [| split].
  - induction body as [| l ls IH]; simpl; [lia |].
    destruct (parse_line strip l); simpl; lia.
  - apply Forall_forall. intros entry Hin. apply in_flat_map in Hin.
    destruct Hin as (l & _ & Hin).
    destruct (parse_line strip l) as [q |] eqn:Hq; [| destruct Hin].
    destruct Hin as [<- | []]. eapply parse_line_loader_pair. exact Hq.
  - rewrite pairs_of_lines_app. do 2 f_equal.
    cbn [flat_map]. rewrite app_nil_r. unfold parse_line.
    destruct (split "009"%char (strip line))
      as [| f1 [| f2 [| f3 [| f4 [| f5 rest]]]]]; reflexivity.
Qed.

End Agedb.

End DatasetsFacts.
